(** * Optimal binary search tree by dynamic programming (obst_completo.py)

    A shallow embedding of [validate_probabilities], [optimal_bst], the three
    traversals derived from the root table and the body of [main], followed
    by the properties of the tables they compute.

    Numbers.  The script computes with Python floats.  Its functions are
    embedded once, over an interface [Arith] of the float operations they
    use (and [Summation] for the builtin [sum]), and run on two arithmetics:
    - [binary64], the IEEE 754 doubles of the interpreter (Rocq's primitive
      floats): rounding, overflow to [inf] and [nan] as the script meets
      them; the builtin [sum] is [Binary64.left_to_right] up to CPython 3.11
      and [Binary64.compensated] from 3.12 on, and what is proved of
      binary64 is proved for any [Summation];
    - [exact], the rationals extended with [inf], [-inf] and [nan]: the
      same operations without rounding or overflow.
    A property stated for [list float] holds of the script as it runs; a
    property stated for [rationals] holds of its algorithm in exact
    arithmetic, and says so.

    Python ints used as loop counters are [nat] (every counter of
    [optimal_bst] starts at 1, so [i-1], [j-1] and [r-1] never go below 0);
    ints read back from the root table are [Z], indexed the way Python
    indexes a list (a negative index counts from the end). *)

From Stdlib Require Import QArith Qabs Qround Lqa ZArith List Lia String.
From Stdlib Require Import Floats.
From stdpp Require Import base list.

Local Open Scope nat_scope.

(** ** Exceptions and results *)

Module Py.

(** The four [ValueError] messages of the script, by the check that raises
    them. *)
Inductive message :=
  | MsgQLength      (* "q deve ter tamanho len(p)+1 ..." *)
  | MsgNegative     (* "Probabilidades negativas nao sao permitidas." *)
  | MsgSum          (* "As probabilidades devem somar 1.0 ..." *)
  | MsgKeysLength.  (* "keys e p devem ter o mesmo tamanho." *)

Inductive exn :=
  | ValueError (m : message)
  | IndexError
  | TypeError
  | ZeroDivisionError
  | RecursionError.

Inductive result (A : Type) :=
  | Ok (a : A)
  | Raise (x : exn).
Arguments Ok {A} a.
Arguments Raise {A} x.

Definition bind {A B} (m : result A) (k : A -> result B) : result B :=
  match m with
  | Ok a => k a
  | Raise x => Raise x
  end.

(** [for x in xs: body], threading the loop state and stopping at the first
    exception. *)
Fixpoint for_each {X S} (xs : list X) (body : X -> S -> result S) (s : S)
  : result S :=
  match xs with
  | [] => Ok s
  | x :: xs' => bind (body x s) (for_each xs' body)
  end.

(** [range(a, b)] *)
Definition range (a b : nat) : list nat := seq a (b - a).

(** [l[k]] for a counter [k >= 0]. *)
Definition item {A} (l : list A) (k : nat) : result A :=
  match l !! k with
  | Some x => Ok x
  | None => Raise IndexError
  end.

(** [l[k]] for an arbitrary int [k]. *)
Definition index {A} (l : list A) (k : Z) : result A :=
  let len := Z.of_nat (length l) in
  if (0 <=? k)%Z then item l (Z.to_nat k)
  else if (- len <=? k)%Z then item l (Z.to_nat (len + k))
  else Raise IndexError.

End Py.
Import Py.

Declare Scope py_scope.
Delimit Scope py_scope with py.
Notation "'let*' x ':=' m 'in' k" := (bind m (fun x => k))
  (at level 10, x name, m at level 100, k at level 200) : py_scope.
Local Open Scope py_scope.

(** ** Float arithmetic *)

(** The operations of the script on floats. *)
Class Arith (F : Type) := {
  lit : Q -> F;                 (* a decimal literal, as [0.0] or [1e-6] *)
  inf : F;                      (* [float("inf")] *)
  fadd : F -> F -> F;           (* [a + b] *)
  fsub : F -> F -> F;           (* [a - b] *)
  fmul : F -> F -> F;           (* [a * b] *)
  fdiv : F -> F -> result F;    (* [a / b] *)
  fabs : F -> F;                (* [abs(a)] *)
  fltb : F -> F -> bool;        (* [a < b] *)
  fround : F -> nat -> F        (* [round(a, ndigits)] *)
}.

(** [sum(l)] of a list of floats.  The builtin depends on the interpreter:
    CPython up to 3.11 adds the entries from left to right; from 3.12 on it
    also accumulates the rounding errors (Neumaier's compensated sum). *)
Class Summation (F : Type) := {
  sum : list F -> F
}.

(** [round(x)] of a rational: the nearest integer, a tie to the even
    one. *)
Definition round_half_even (x : Q) : Z :=
  let f := Qfloor x in
  match (x - inject_Z f ?= 1 # 2)%Q with
  | Lt => f
  | Gt => (f + 1)%Z
  | Eq => if Z.even f then f else (f + 1)%Z
  end.

(** [x] rounded to [ndigits] decimals, a tie to the even one. *)
Definition round_to (x : Q) (ndigits : nat) : Q :=
  let scale := inject_Z (10 ^ Z.of_nat ndigits) in
  inject_Z (round_half_even (x * scale)) / scale.

(** *** binary64 *)

Module Binary64.

(** The double nearest to [n / d] (a tie to the even one), with sign
    [s]. *)
Definition nearest (s : bool) (n d : positive) : float :=
  SF2Prim (SFdiv prec emax (S754_finite s n 0) (S754_finite false d 0)).

(** A decimal literal is read as the nearest double. *)
Definition lit (q : Q) : float :=
  match Qnum q with
  | Z0 => 0%float
  | Zpos n => nearest false n (Qden q)
  | Zneg n => nearest true n (Qden q)
  end.

(** The rational that a finite double is, in lowest terms. *)
Definition value (x : float) : option Q :=
  match Prim2SF x with
  | S754_zero _ => Some 0%Q
  | S754_finite s m e =>
      Some (Qred ((if s then -1 else 1) * inject_Z (Zpos m) * 2 ^ e))%Q
  | _ => None
  end.

(** [a / b]: a zero divisor raises, whatever its sign. *)
Definition div (a b : float) : result float :=
  if PrimFloat.eqb b 0 then Raise ZeroDivisionError
  else Ok (PrimFloat.div a b).

(** [round(x, ndigits)] for [ndigits >= 0]: the value of [x] is rounded to
    [ndigits] decimals, a tie to the even one, and the double nearest to
    that decimal is returned; [inf] and [nan] are returned as they are. *)
Definition round (x : float) (ndigits : nat) : float :=
  match Prim2SF x with
  | S754_finite s m e =>
      let scale := (10 ^ Z.of_nat ndigits)%Z in
      match round_half_even
              (inject_Z (Zpos m) * 2 ^ e * inject_Z scale) with
      | Zpos n => nearest s n (Z.to_pos scale)
      | _ => if s then (-0)%float else 0%float
      end
  | _ => x
  end.

(** [sum(l)] up to CPython 3.11: [0 + l[0] + l[1] + ...]. *)
Definition sum_left (l : list float) : float :=
  fold_left PrimFloat.add l 0%float.

(** One step of the compensated sum: the running sum [f] and the
    compensation [c], for the next entry [x]. *)
Definition neumaier (fc : float * float) (x : float) : float * float :=
  let f := fst fc in
  let c := snd fc in
  let t := (f + x)%float in
  (t, if (abs x <=? abs f)%float then (c + ((f - t) + x))%float
      else (c + ((x - t) + f))%float).

(** [sum(l)] from CPython 3.12 on: the first entry is added to the
    integer 0, the others are added with compensation, and the compensation
    is added at the end when it is finite and not zero. *)
Definition sum_compensated (l : list float) : float :=
  match l with
  | [] => 0%float
  | x :: l' =>
      let fc := fold_left neumaier l' ((0 + x)%float, 0%float) in
      if negb (snd fc =? 0)%float && (abs (snd fc) <? infinity)%float
      then (fst fc + snd fc)%float
      else fst fc
  end.

Definition left_to_right : Summation float := {| sum := sum_left |}.
Definition compensated : Summation float := {| sum := sum_compensated |}.

End Binary64.

#[export] Instance binary64 : Arith float := {|
  lit := Binary64.lit;
  inf := infinity;
  fadd := PrimFloat.add;
  fsub := PrimFloat.sub;
  fmul := PrimFloat.mul;
  fdiv := Binary64.div;
  fabs := PrimFloat.abs;
  fltb := PrimFloat.ltb;
  fround := Binary64.round
|}.

(** *** Exact arithmetic *)

Inductive exact :=
  | Fin (x : Q)
  | Inf
  | NInf
  | NaN.

Definition Qltb (x y : Q) : bool := negb (Qle_bool y x).

Module Exact.

Definition add (a b : exact) : exact :=
  match a, b with
  | Fin x, Fin y => Fin (x + y)
  | NaN, _ | _, NaN => NaN
  | Inf, NInf | NInf, Inf => NaN
  | Inf, _ | _, Inf => Inf
  | NInf, _ | _, NInf => NInf
  end.

Definition opp (a : exact) : exact :=
  match a with
  | Fin x => Fin (- x)
  | Inf => NInf
  | NInf => Inf
  | NaN => NaN
  end.

Definition sub (a b : exact) : exact := add a (opp b).

Definition abs (a : exact) : exact :=
  match a with
  | Fin x => Fin (Qabs x)
  | Inf | NInf => Inf
  | NaN => NaN
  end.

(** The sign of a number: [Some true] below 0, [Some false] above, [None]
    at 0 and for [nan]. *)
Definition negative (a : exact) : option bool :=
  match a with
  | Fin x => if Qltb x 0 then Some true
             else if Qltb 0 x then Some false else None
  | Inf => Some false
  | NInf => Some true
  | NaN => None
  end.

Definition mul (a b : exact) : exact :=
  match a, b with
  | Fin x, Fin y => Fin (x * y)
  | NaN, _ | _, NaN => NaN
  | _, _ =>
      match negative a, negative b with
      | Some s, Some t => if xorb s t then NInf else Inf
      | _, _ => NaN
      end
  end.

Definition div (a b : exact) : result exact :=
  match a, b with
  | _, Fin y =>
      if Qeq_bool y 0 then Raise ZeroDivisionError
      else Ok (mul a (Fin (/ y)))
  | _, NaN | NaN, _ => Ok NaN
  | Fin _, _ => Ok (Fin 0)
  | _, _ => Ok NaN
  end.

Definition ltb (a b : exact) : bool :=
  match a, b with
  | Fin x, Fin y => Qltb x y
  | Fin _, Inf | NInf, Fin _ | NInf, Inf => true
  | _, _ => false
  end.

(** [round(x, ndigits)] *)
Definition round (a : exact) (ndigits : nat) : exact :=
  match a with
  | Fin x => Fin (round_to x ndigits)
  | _ => a
  end.

End Exact.

#[export] Instance exact_sum : Summation exact := {|
  sum l := fold_left Exact.add l (Fin 0)
|}.

#[export] Instance exact_arith : Arith exact := {|
  lit := Fin;
  inf := Inf;
  fadd := Exact.add;
  fsub := Exact.sub;
  fmul := Exact.mul;
  fdiv := Exact.div;
  fabs := Exact.abs;
  fltb := Exact.ltb;
  fround := Exact.round
|}.

(** Rational inputs of the exact reading. *)
Definition rationals (l : list Q) : list exact := map Fin l.

(** ** Tables: a list of rows *)

Abbreviation table A := (list (list A)).

(** [[[x]*m for _ in range(m)]] *)
Definition new_table {A} (m : nat) (x : A) : table A :=
  replicate m (replicate m x).

(** [t[i][j]] *)
Definition tget {A} (t : table A) (i j : nat) : result A :=
  let* row := item t i in item row j.

(** [t[i][j] = v] *)
Definition tset {A} (t : table A) (i j : nat) (v : A) : result (table A) :=
  let* row := item t i in
  if j <? length row then Ok (<[i := <[j := v]> row]> t)
  else Raise IndexError.

(** [l[a:b]] for counters [a], [b]. *)
Definition slice {A} (l : list A) (a b : nat) : list A :=
  take (b - a) (drop a l).

Record tables (F : Type) := Tables {
  e : table F;
  w : table F;
  root : table (option Z)
}.
Arguments Tables {F}.
Arguments e {F}.
Arguments w {F}.
Arguments root {F}.

Record report (F K : Type) := Report {
  cost_dp : F;
  chosen : list (nat * nat * list K * K);
  pre : list K;
  ino : list K;
  post : list K
}.
Arguments Report {F K}.
Arguments cost_dp {F K}.
Arguments chosen {F K}.
Arguments pre {F K}.
Arguments ino {F K}.
Arguments post {F K}.

(** ** Traversals read off the root table

    [depth] is the number of nested calls still available: the interpreter
    raises [RecursionError] when its recursion limit is reached. *)

Section Traversals.
Context {K : Type}.

(** [r = root[i][j]]; using [None] as a number is a [TypeError]. *)
Definition root_of (root : table (option Z)) (i j : Z) : result Z :=
  let* row := index root i in
  let* r := index row j in
  match r with
  | Some r => Ok r
  | None => Raise TypeError
  end.

Fixpoint preorder_from_root (depth : nat) (root : table (option Z))
    (keys : list K) (i j : Z) : result (list K) :=
  match depth with
  | O => Raise RecursionError
  | S depth' =>
    if (j <? i)%Z then Ok []
    else
      let* r := root_of root i j in
      let* k := index keys (r - 1) in
      let* lt := preorder_from_root depth' root keys i (r - 1) in
      let* rt := preorder_from_root depth' root keys (r + 1) j in
      Ok ([k] ++ lt ++ rt)
  end.

Fixpoint inorder_from_root (depth : nat) (root : table (option Z))
    (keys : list K) (i j : Z) : result (list K) :=
  match depth with
  | O => Raise RecursionError
  | S depth' =>
    if (j <? i)%Z then Ok []
    else
      let* r := root_of root i j in
      let* lt := inorder_from_root depth' root keys i (r - 1) in
      let* k := index keys (r - 1) in
      let* rt := inorder_from_root depth' root keys (r + 1) j in
      Ok (lt ++ [k] ++ rt)
  end.

Fixpoint postorder_from_root (depth : nat) (root : table (option Z))
    (keys : list K) (i j : Z) : result (list K) :=
  match depth with
  | O => Raise RecursionError
  | S depth' =>
    if (j <? i)%Z then Ok []
    else
      let* r := root_of root i j in
      let* lt := postorder_from_root depth' root keys i (r - 1) in
      let* rt := postorder_from_root depth' root keys (r + 1) j in
      let* k := index keys (r - 1) in
      Ok (lt ++ rt ++ [k])
  end.
End Traversals.

Section Script.
Context {F : Type} {A : Arith F} {S : Summation F}.

(** ** validate_probabilities *)

Definition validate_probabilities (p q : list F) : result unit :=
  if negb (length q =? length p + 1) then Raise (ValueError MsgQLength)
  else if existsb (fun x => fltb x (lit 0)) (p ++ q) then
    Raise (ValueError MsgNegative)
  else
    let s := fadd (sum p) (sum q) in
    if fltb (lit (1 # 1000000)) (fabs (fsub s (lit 1))) then
      Raise (ValueError MsgSum)
    else Ok tt.

(** ** optimal_bst *)

(** Body of [for i in range(1, n+2)]. *)
Definition base_case (q : list F) (i : nat) (st : tables F)
  : result (tables F) :=
  let* x := item q (i - 1) in
  let* e1 := tset (e st) i (i - 1) x in
  let* y := item q (i - 1) in
  let* w1 := tset (w st) i (i - 1) y in
  Ok (Tables e1 w1 (root st)).

(** Body of [for r in range(i, j+1)]; the loop state [melhor] is the pair
    [(melhor_r, melhor_custo)]. *)
Definition try_root (e w : table F) (i j r : nat)
    (melhor : option nat * F) : result (option nat * F) :=
  let* a := tget e i (r - 1) in
  let* b := tget e (r + 1) j in
  let* c := tget w i j in
  let custo := fadd (fadd a b) c in
  if fltb custo (snd melhor) then Ok (Some r, custo) else Ok melhor.

(** Body of [for i in range(1, n-L+2)]. *)
Definition fill_cell (p q : list F) (L i : nat) (st : tables F)
  : result (tables F) :=
  let j := i + L - 1 in
  let* e1 := tset (e st) i j inf in
  let* wprev := tget (w st) i (j - 1) in
  let* pj := item p (j - 1) in
  let* qj := item q j in
  let* w1 := tset (w st) i j (fadd (fadd wprev pj) qj) in
  let* melhor :=
    for_each (range i (j + 1)) (try_root e1 w1 i j) (None, inf) in
  let* e2 := tset e1 i j (snd melhor) in
  let* root1 := tset (root st) i j (Z.of_nat <$> fst melhor) in
  Ok (Tables e2 w1 root1).

(** Body of [for L in range(1, n+1)]. *)
Definition fill_length (p q : list F) (n L : nat) (st : tables F)
  : result (tables F) :=
  for_each (range 1 (n - L + 2)) (fill_cell p q L) st.

Definition optimal_bst {K} (p q : list F) (keys : list K)
  : result (tables F) :=
  let n := length p in
  if negb (length keys =? n) then Raise (ValueError MsgKeysLength)
  else
    let st0 := Tables (new_table (n + 2) (lit 0))
                      (new_table (n + 2) (lit 0))
                      (new_table (n + 2) (Some 0%Z)) in
    let* st1 := for_each (range 1 (n + 2)) (base_case q) st0 in
    for_each (range 1 (n + 1)) (fill_length p q n) st1.

End Script.

(** ** main

    [run] is the body of [main] with the example data as parameters; what it
    prints is returned as a [report]. *)

Section Main.
Context {F : Type} {A : Arith F} {S : Summation F} {K : Type}.

(** The rescaling of [p] and [q] to a sum of 1. *)
Definition normalise (p q : list F) : result (list F * list F) :=
  let total := fadd (sum p) (sum q) in
  if fltb (lit (1 # 1000000000)) (fabs (fsub total (lit 1))) then
    let* esc := fdiv (lit 1) total in
    Ok (map (fun x => fround (fmul x esc) 10) p,
        map (fun x => fround (fmul x esc) 10) q)
  else Ok (p, q).

(** One line of the list of chosen roots: interval, [keys[i-1:j]] and
    [keys[r-1]]. *)
Definition chosen_line (root : table (option Z)) (keys : list K)
    (L i : nat) (acc : list (nat * nat * list K * K))
  : result (list (nat * nat * list K * K)) :=
  let j := i + L - 1 in
  let* r := root_of root (Z.of_nat i) (Z.of_nat j) in
  let* k := index keys (r - 1) in
  Ok (acc ++ [(i, j, slice keys (i - 1) j, k)]).

Definition run (depth : nat) (keys : list K) (p q : list F)
  : result (report F K) :=
  let* pq := normalise p q in
  let p := fst pq in
  let q := snd pq in
  let* _ := validate_probabilities p q in
  let* st := optimal_bst p q keys in
  let n := length keys in
  let* cost := tget (e st) 1 n in
  let* lines :=
    for_each (range 1 (n + 1))
      (fun L => for_each (range 1 (n - L + 2))
                  (chosen_line (root st) keys L)) [] in
  let nz := Z.of_nat n in
  let* pre := preorder_from_root depth (root st) keys 1 nz in
  let* ino := inorder_from_root depth (root st) keys 1 nz in
  let* post := postorder_from_root depth (root st) keys 1 nz in
  Ok (Report cost lines pre ino post).
End Main.

(** The example of [main], as the decimals written in the script. *)
Definition example_keys : list string :=
  ["Ana"; "Bruno"; "Carla"; "Diego"]%string.
Definition example_p : list Q := [35 # 100; 25 # 100; 25 # 100; 15 # 100]%Q.
Definition example_q : list Q :=
  [2 # 100; 2 # 100; 2 # 100; 2 # 100; 2 # 100]%Q.

(** The interpreter's default recursion limit. *)
Definition recursion_limit : nat := 1000.

Definition main {F : Type} {A : Arith F} {S : Summation F}
  : result (report F string) :=
  run recursion_limit example_keys (map lit example_p) (map lit example_q).

(** * Vocabulary of the properties *)

(** A square table of side [m]. *)
Definition square {A} (m : nat) (t : table A) : Prop :=
  length t = m /\ Forall (fun row => length row = m) t.

(** [t'] is [t] except, possibly, at cell [i][j]. *)
Definition unchanged_off {A} (t t' : table A) (i j : nat) : Prop :=
  forall a b, a <> i \/ b <> j -> tget t' a b = tget t a b.

(** ** Order of the floats

    What the properties of the root choice use of [<] and [+]: they hold
    of [binary64] and of [exact] ([binary64_lawful], [exact_lawful]). *)

Record lawful {F : Type} (A : Arith F) : Prop := Lawful {
  lt_irrefl : forall a, fltb a a = false;
  lt_trans : forall a b c,
    fltb a b = true -> fltb b c = true -> fltb a c = true;
  (* whatever is below something is below [inf] *)
  lt_inf : forall a b, fltb a b = true -> fltb a inf = true;
  (* the numbers below [inf] are totally ordered *)
  lt_total : forall a b c,
    fltb a inf = true -> fltb a b = false -> fltb c b = true ->
    fltb c a = true;
  (* a sum below [inf] has both terms below [inf] *)
  add_lt_inf : forall a b,
    fltb (fadd a b) inf = true -> fltb a inf = true /\ fltb b inf = true
}.

(** The place of a double in the order of [<]: the class (from [-inf] to
    [inf]), then exponent and mantissa; [nan] has none. *)
Definition rank (x : spec_float) : option (Z * Z * Z) :=
  match x with
  | S754_nan => None
  | S754_infinity true => Some (-2, 0, 0)%Z
  | S754_finite true m e => Some (-1, - e, Zneg m)%Z
  | S754_zero _ => Some (0, 0, 0)%Z
  | S754_finite false m e => Some (1, e, Zpos m)%Z
  | S754_infinity false => Some (2, 0, 0)%Z
  end.

Definition rank_lt (a b : Z * Z * Z) : Prop :=
  (a.1.1 < b.1.1 \/
   (a.1.1 = b.1.1 /\
    (a.1.2 < b.1.2 \/ (a.1.2 = b.1.2 /\ a.2 < b.2))))%Z.

(** ** What the tables hold, for probabilities [p] and [q] *)

Section Cells.
Context {F : Type} {A : Arith F}.
Variables p q : list F.

Local Abbreviation n := (length p).

(** The three tables are [(n+2) x (n+2)]. *)
Definition squares (st : tables F) : Prop :=
  square (n + 2) (e st) /\ square (n + 2) (w st) /\
  square (n + 2) (root st).

(** Cell [i][i-1] holds the gap probability [q[i-1]]. *)
Definition base_ok (st : tables F) (i : nat) : Prop :=
  tget (e st) i (i - 1) = Ok (nth (i - 1) q (lit 0)) /\
  tget (w st) i (i - 1) = Ok (nth (i - 1) q (lit 0)).

(** Cell [i][j] holds what one pass of the loop body computes from the
    tables as they are now. *)
Definition cell_ok (st : tables F) (i j : nat) : Prop :=
  exists wprev best,
    tget (w st) i (j - 1) = Ok wprev /\
    tget (w st) i j =
      Ok (fadd (fadd wprev (nth (j - 1) p (lit 0))) (nth j q (lit 0))) /\
    for_each (range i (j + 1)) (try_root (e st) (w st) i j) (None, inf)
      = Ok best /\
    tget (e st) i j = Ok (snd best) /\
    tget (root st) i j = Ok (Z.of_nat <$> fst best).

(** State of the two nested loops: every interval shorter than [L], and
    every interval of length [L] that starts before [i0], is filled. *)
Definition filled (L i0 : nat) (st : tables F) : Prop :=
  squares st /\
  (forall i, 1 <= i <= n + 1 -> base_ok st i) /\
  (forall a b, 1 <= a -> a <= b -> b <= n ->
     b + 1 - a < L \/ (b + 1 - a = L /\ a < i0) -> cell_ok st a b).

(** What [optimal_bst] returns. *)
Definition solved (st : tables F) : Prop :=
  squares st /\
  (forall i, 1 <= i <= n + 1 -> base_ok st i) /\
  (forall i j, 1 <= i -> i <= j -> j <= n -> cell_ok st i j).

End Cells.

(** ** Cells and candidates as floats *)

Section Floats.
Context {F : Type} {A : Arith F}.

(** The content of a cell ([0.0] off the table). *)
Definition cell (t : table F) (i j : nat) : F :=
  match tget t i j with Ok x => x | Raise _ => lit 0 end.

(** The cost [e[i][r-1] + e[r+1][j] + w[i][j]] of root [r], as the
    script computes it. *)
Definition custo (st : tables F) (i j r : nat) : F :=
  fadd (fadd (cell (e st) i (r - 1)) (cell (e st) (r + 1) j))
       (cell (w st) i j).

(** [x < inf]: neither [inf] nor [nan]. *)
Definition below_inf (x : F) : Prop := fltb x inf = true.

(** The interval [i..j] is empty or its cost [e[i][j]] is below [inf]. *)
Definition costed (st : tables F) (i j : nat) : Prop :=
  j < i \/ below_inf (cell (e st) i j).

(** One pass of the inner loop over a cost function. *)
Definition pick (c : nat -> F) (best : option nat * F) (r : nat)
  : option nat * F :=
  if fltb (c r) (snd best) then (Some r, c r) else best.

(** The weight recurrence unrolled: [q[i-1]], then [+ p[k-1] + q[k]] for
    [k = i..j], added in this order. *)
Definition running_weight (p q : list F) (i j : nat) : F :=
  fold_left (fun acc k => fadd (fadd acc (nth (k - 1) p (lit 0)))
                               (nth k q (lit 0)))
            (seq i (j + 1 - i)) (nth (i - 1) q (lit 0)).

End Floats.

(** Every non-empty interval of [1..n] has its root inside it. *)
Definition roots_in_range (root : table (option Z)) (n : nat) : Prop :=
  forall i j, 1 <= i -> i <= j -> j <= n ->
    exists r, i <= r <= j /\ tget root i j = Ok (Some (Z.of_nat r)).

(** ** Cells read as rationals *)

(** The finite value of a cell, and the cost of interval [i..j] with [r] at
    its root, in exact arithmetic. *)
Definition cost_at (st : tables exact) (i j : nat) : Q :=
  match tget (e st) i j with Ok (Fin x) => x | _ => 0%Q end.

Definition weight_at (st : tables exact) (i j : nat) : Q :=
  match tget (w st) i j with Ok (Fin x) => x | _ => 0%Q end.

Definition candidate (st : tables exact) (i j r : nat) : Q :=
  (cost_at st i (r - 1) + cost_at st (r + 1) j + weight_at st i j)%Q.

(** [sum(l)] of rationals. *)
Definition Qsum (l : list Q) : Q := fold_left Qplus l 0%Q.

(** The closed form of a weight: the probabilities of the keys
    [i..j], held in [p[i-1:j]], plus those of the gaps [i-1..j], held in
    [q[i-1:j+1]]. *)
Definition interval_weight (p q : list Q) (i j : nat) : Q :=
  (Qsum (slice p (i - 1) j) + Qsum (slice q (i - 1) (j + 1)))%Q.

(** ** Search trees

    The script builds no tree; these definitions state what the cost table
    is the minimum of.  A tree over the keys [i..j] has a key at each node
    and a gap at each leaf: the leaf of an empty interval [i..i-1] is gap
    [i-1]. *)

Inductive tree :=
  | Gap
  | Key (lt : tree) (k : nat) (rt : tree).

(** [t] is a binary search tree on exactly the keys [i..j]. *)
Fixpoint bst (i j : nat) (t : tree) : Prop :=
  match t with
  | Gap => j + 1 = i
  | Key lt k rt => i <= k <= j /\ bst i (k - 1) lt /\ bst (k + 1) j rt
  end.

(** A depth as a rational. *)
Definition level (d : nat) : Q := inject_Z (Z.of_nat d).

(** Expected cost of a tree whose root is at depth [d] and whose leftmost
    key is [i]: a key at depth [d] costs [p * (d + 1)], a gap at depth [d]
    costs [q * (d + gap_extra)]. *)
Fixpoint search_cost (gap_extra : Q) (p q : list Q) (d i : nat) (t : tree)
  : Q :=
  match t with
  | Gap => (nth (i - 1) q 0 * (level d + gap_extra))%Q
  | Key lt k rt =>
      (nth (k - 1) p 0 * (level d + 1)
       + search_cost gap_extra p q (S d) i lt
       + search_cost gap_extra p q (S d) (k + 1) rt)%Q
  end.

(** [v] is the least cost of a search tree on the keys [i..j]. *)
Definition least_cost (cost : tree -> Q) (i j : nat) (v : Q) : Prop :=
  (exists t, bst i j t /\ (cost t == v)%Q) /\
  (forall t, bst i j t -> (v <= cost t)%Q).

(** The tree that a root table describes on the keys [i..j], followed to
    a depth of [depth]; where the table holds no root the tree stops. *)
Fixpoint tree_of (depth : nat) (root : table (option Z)) (i j : nat) : tree :=
  match depth with
  | O => Gap
  | S depth' =>
    if j <? i then Gap
    else
      match tget root i j with
      | Ok (Some r) =>
          Key (tree_of depth' root i (Z.to_nat r - 1)) (Z.to_nat r)
              (tree_of depth' root (Z.to_nat r + 1) j)
      | _ => Gap
      end
  end.

(** The cost of a tree on the keys [i..j] as the recurrence of the script
    adds it up, in the floats of the script: a gap costs [q[i-1]], a node
    the costs of its two sides plus the running weight of its interval. *)
Fixpoint tree_custo {F} {A : Arith F} (p q : list F) (i j : nat) (t : tree)
  : F :=
  match t with
  | Gap => nth (i - 1) q (lit 0)
  | Key lt k rt =>
      fadd (fadd (tree_custo p q i (k - 1) lt) (tree_custo p q (k + 1) j rt))
           (running_weight p q i j)
  end.

(** The key numbers of a tree in the three orders. *)
Fixpoint preorder (t : tree) : list nat :=
  match t with
  | Gap => []
  | Key lt k rt => [k] ++ preorder lt ++ preorder rt
  end.

Fixpoint inorder (t : tree) : list nat :=
  match t with
  | Gap => []
  | Key lt k rt => inorder lt ++ [k] ++ inorder rt
  end.

Fixpoint postorder (t : tree) : list nat :=
  match t with
  | Gap => []
  | Key lt k rt => postorder lt ++ postorder rt ++ [k]
  end.

(** The keys numbered [ks] (key [k] is [keys[k-1]]). *)
Definition keys_of {K} (keys : list K) (ks : list nat) : list K :=
  omap (fun k => keys !! (k - 1)) ks.

(** ** What main reports *)

(** The non-empty intervals of [1..n] in the order of the two nested loops:
    by increasing length, then by increasing start. *)
Definition intervals (n : nat) : list (nat * nat) :=
  flat_map (fun L => map (fun i => (i, i + L - 1)) (range 1 (n - L + 2)))
           (range 1 (n + 1)).

(** The interval of a line of the list of chosen roots. *)
Definition interval_of {K} (line : nat * nat * list K * K) : nat * nat :=
  (fst (fst (fst line)), snd (fst (fst line))).

(** A line carries the keys of its interval, [keys[i-1:j]], and one of
    them as the root. *)
Definition line_ok {K} (keys : list K) (line : nat * nat * list K * K)
  : Prop :=
  snd (fst line)
    = slice keys (fst (interval_of line) - 1) (snd (interval_of line)) /\
  In (snd line) (snd (fst line)).

(** The root table of [optimal_bst] has, at every non-empty interval, no
    root or a root of the interval. *)
Definition rooted_or_none (root0 : table (option Z)) (n : nat) : Prop :=
  forall i j, 1 <= i -> i <= j -> j <= n ->
    tget root0 i j = Ok None \/
    exists r, i <= r <= j /\ tget root0 i j = Ok (Some (Z.of_nat r)).

(** [root[i][j]] is [None] at some non-empty interval of [1..n]. *)
Definition some_none (root0 : table (option Z)) (n : nat) : Prop :=
  exists i j, 1 <= i /\ i <= j /\ j <= n /\ tget root0 i j = Ok None.

(** The part of [run] that follows the call of [optimal_bst]. *)
Definition report_tables {F K} (depth : nat) (keys : list K) (st : tables F)
  : result (report F K) :=
  let n := length keys in
  let* cost := tget (e st) 1 n in
  let* lines :=
    for_each (range 1 (n + 1))
      (fun L => for_each (range 1 (n - L + 2))
                  (chosen_line (root st) keys L)) [] in
  let nz := Z.of_nat n in
  let* pre := preorder_from_root depth (root st) keys 1 nz in
  let* ino := inorder_from_root depth (root st) keys 1 nz in
  let* post := postorder_from_root depth (root st) keys 1 nz in
  Ok (Report cost lines pre ino post).

(** * Properties *)

(** ** Lists and tables *)

Lemma item_Ok {A} (l : list A) k x : item l k = Ok x <-> l !! k = Some x.
Proof.
  unfold item. destruct (l !! k); split; intros H; congruence.
Qed.

Lemma item_lt {A} (l : list A) k :
  k < length l -> exists x, item l k = Ok x /\ l !! k = Some x.
Proof.
  intros H. destruct (lookup_lt_is_Some_2 l k H) as [x Hx].
  exists x. split; [by apply item_Ok | done].
Qed.

Lemma item_nth {A} (l : list A) k d :
  k < length l -> item l k = Ok (nth k l d).
Proof.
  intros H. destruct (item_lt l k H) as (x & Hx & Hl). rewrite Hx.
  f_equal. symmetry. by apply nth_lookup_Some with (d := d) in Hl.
Qed.

Lemma index_of_nat {A} (l : list A) (k : nat) :
  index l (Z.of_nat k) = item l k.
Proof.
  unfold index. destruct (Z.leb_spec 0 (Z.of_nat k)); [|lia].
  by rewrite Nat2Z.id.
Qed.

Lemma square_new {A} m (x : A) : square m (new_table m x).
Proof.
  split; [apply length_replicate|].
  apply Forall_forall. intros row Hrow.
  apply elem_of_replicate in Hrow as [-> _]. apply length_replicate.
Qed.

Lemma square_row {A} m (t : table A) i :
  square m t -> i < m -> exists row, t !! i = Some row /\ length row = m.
Proof.
  intros [Hl Hf] Hi. rewrite <- Hl in Hi.
  destruct (lookup_lt_is_Some_2 t i Hi) as [row Hrow].
  exists row. split; [done|].
  eapply Forall_lookup_1 in Hf; eauto.
Qed.

Lemma tget_square {A} m (t : table A) i j :
  square m t -> i < m -> j < m -> exists v, tget t i j = Ok v.
Proof.
  intros Ht Hi Hj. destruct (square_row m t i Ht Hi) as (row & Hrow & Hlen).
  unfold tget. apply item_Ok in Hrow. rewrite Hrow. simpl.
  rewrite <- Hlen in Hj. destruct (item_lt row j Hj) as (v & Hv & _). eauto.
Qed.

Lemma tset_square {A} m (t : table A) i j v :
  square m t -> i < m -> j < m ->
  exists t', tset t i j v = Ok t' /\ square m t' /\ tget t' i j = Ok v /\
    forall a b, a <> i \/ b <> j -> tget t' a b = tget t a b.
Proof.
  intros Ht Hi Hj. destruct (square_row m t i Ht Hi) as (row & Hrow & Hlen).
  unfold tset. pose proof Hrow as Hitem. apply item_Ok in Hitem.
  rewrite Hitem. simpl.
  destruct (Nat.ltb_spec j (length row)) as [_|]; [|lia].
  eexists. split; [reflexivity|].
  destruct Ht as [Hl Hf]. split; [|split].
  - split; [by rewrite length_insert|].
    apply Forall_insert; [done|]. simpl. by rewrite length_insert.
  - unfold tget, item. rewrite list_lookup_insert_eq by lia. simpl.
    rewrite list_lookup_insert_eq by lia. done.
  - intros a b Hab. unfold tget, item.
    destruct (decide (a = i)) as [->|Hne].
    + rewrite list_lookup_insert_eq by lia. rewrite Hrow. simpl.
      rewrite list_lookup_insert_ne by (intros ->; tauto). done.
    + rewrite list_lookup_insert_ne by done. done.
Qed.

Lemma for_each_ext {X S} (xs : list X) (f g : X -> S -> result S) s :
  (forall x s, In x xs -> f x s = g x s) ->
  for_each xs f s = for_each xs g s.
Proof.
  revert s. induction xs as [|x xs IH]; intros s H; simpl; [done|].
  rewrite H by (by left). destruct (g x s); simpl; [|done].
  apply IH. intros; apply H; by right.
Qed.

(** A loop over [seq a len] that keeps an invariant indexed by the counter
    runs to the end without raising. *)
Lemma for_each_seq {St} (I : nat -> St -> Prop)
    (body : nat -> St -> result St)
    len a s :
  I a s ->
  (forall k s, a <= k < a + len -> I k s ->
     exists s', body k s = Ok s' /\ I (k + 1) s') ->
  exists s', for_each (seq a len) body s = Ok s' /\ I (a + len) s'.
Proof.
  revert a s. induction len as [|len IH]; intros a s Ha Hstep; simpl.
  - exists s. by rewrite Nat.add_0_r.
  - destruct (Hstep a s) as (s1 & Hb & H1); [lia | done |].
    rewrite Hb. simpl. rewrite Nat.add_1_r in H1.
    destruct (IH (S a) s1 H1) as (s' & Hs' & HI).
    + intros k s2 Hk. apply Hstep. lia.
    + exists s'. split; [done|]. by rewrite <- Nat.add_succ_comm.
Qed.

(** ** The table builder fills every cell by the recurrence *)

Section Builder.
Context {F : Type} {A : Arith F}.
Variables p q : list F.
Hypothesis Hq : length q = length p + 1.

Local Abbreviation n := (length p).

Lemma scan_frame e1 e2 w1 w2 ci cj a b best :
  unchanged_off e1 e2 ci cj -> tget w2 a b = tget w1 a b ->
  b + 1 - a <= cj + 1 - ci -> 1 <= a -> a <= b -> ci <= cj ->
  for_each (range a (b + 1)) (try_root e2 w2 a b) best =
  for_each (range a (b + 1)) (try_root e1 w1 a b) best.
Proof.
  intros He Hw Hlen Ha Hab Hc. apply for_each_ext.
  intros r s Hr. apply in_seq in Hr. unfold try_root.
  rewrite Hw, !He by lia. reflexivity.
Qed.

Lemma scan_total {m} e0 w0 i j xs best :
  square m e0 -> square m w0 -> i < m -> j < m ->
  (forall r, In r xs -> r + 1 < m) ->
  exists best', for_each xs (try_root e0 w0 i j) best = Ok best'.
Proof.
  intros He Hw Hi Hj. revert best.
  induction xs as [|r xs IH]; intros best Hxs; simpl; [eauto|].
  assert (r + 1 < m) as Hr by (apply Hxs; by left).
  unfold try_root at 1.
  destruct (tget_square m e0 i (r - 1) He) as [a ->]; [lia..|].
  destruct (tget_square m e0 (r + 1) j He) as [b ->]; [lia..|].
  destruct (tget_square m w0 i j Hw) as [c ->]; [lia..|].
  cbn [bind].
  destruct (fltb _ _); cbn [bind]; apply IH; intros; apply Hxs; by right.
Qed.

Lemma cell_ok_frame st st' ci cj a b :
  unchanged_off (e st) (e st') ci cj ->
  unchanged_off (w st) (w st') ci cj ->
  unchanged_off (root st) (root st') ci cj ->
  1 <= a -> a <= b -> ci <= cj ->
  b + 1 - a < cj + 1 - ci \/ (b + 1 - a = cj + 1 - ci /\ a <> ci) ->
  cell_ok p q st a b -> cell_ok p q st' a b.
Proof.
  intros He Hw Hr Ha Hab Hc Hlen (wprev & best & H1 & H2 & H3 & H4 & H5).
  exists wprev, best.
  rewrite !Hw, He, Hr by lia. repeat split; try done.
  rewrite <- H3. apply scan_frame with (ci := ci) (cj := cj);
    [done | apply Hw | ..]; lia.
Qed.

Lemma base_case_step k st :
  1 <= k <= n + 1 ->
  squares p st /\ (forall i, 1 <= i < k -> base_ok q st i) ->
  exists st', base_case q k st = Ok st' /\
    squares p st' /\ (forall i, 1 <= i < k + 1 -> base_ok q st' i).
Proof.
  intros Hk [(He & Hw & Hr) Hbase]. unfold base_case.
  rewrite !(item_nth q (k - 1) (lit 0)) by lia. cbn [bind].
  destruct (tset_square (n + 2) (e st) k (k - 1) (nth (k - 1) q (lit 0)) He)
    as (e1 & -> & He1 & Hget_e & Hoff_e); [lia..|].
  destruct (tset_square (n + 2) (w st) k (k - 1) (nth (k - 1) q (lit 0)) Hw)
    as (w1 & -> & Hw1 & Hget_w & Hoff_w); [lia..|].
  cbn [bind]. eexists. split; [reflexivity|]. split; [by split; [|split]|].
  intros i Hi. unfold base_ok. cbn [e w].
  destruct (decide (i = k)) as [->|Hne]; [done|].
  rewrite Hoff_e, Hoff_w by lia. apply Hbase. lia.
Qed.

Lemma fill_cell_step L i j st :
  j = i + L - 1 -> 1 <= L -> 1 <= i -> j <= n ->
  filled p q L i st ->
  exists st', fill_cell p q L i st = Ok st' /\ filled p q L (i + 1) st'.
Proof.
  intros Hj HL Hi Hjn ((He & Hw & Hr) & Hbase & Hcells).
  unfold fill_cell. cbv zeta. rewrite <- Hj.
  destruct (tset_square (n + 2) (e st) i j inf He)
    as (e1 & -> & He1 & _ & Hoff_e1); [lia..|].
  destruct (tget_square (n + 2) (w st) i (j - 1) Hw) as [wprev Hwprev];
    [lia..|].
  rewrite Hwprev, (item_nth p (j - 1) (lit 0)), (item_nth q j (lit 0)) by lia.
  cbn [bind].
  destruct (tset_square (n + 2) (w st) i j
              (fadd (fadd wprev (nth (j - 1) p (lit 0))) (nth j q (lit 0)))
              Hw) as (w1 & -> & Hw1 & Hget_w1 & Hoff_w1); [lia..|].
  cbn [bind].
  destruct (scan_total e1 w1 i j (range i (j + 1)) (None, inf) He1 Hw1)
    as [best Hbest]; [lia | lia | |].
  { intros r Hr0. apply in_seq in Hr0. lia. }
  rewrite Hbest. cbn [bind].
  destruct (tset_square (n + 2) e1 i j (snd best) He1)
    as (e2 & -> & He2 & Hget_e2 & Hoff_e2); [lia..|].
  destruct (tset_square (n + 2) (root st) i j (Z.of_nat <$> fst best) Hr)
    as (r1 & -> & Hr1 & Hget_r1 & Hoff_r1); [lia..|].
  cbn [bind]. eexists. split; [reflexivity|].
  assert (unchanged_off (e st) e2 i j) as Hoff_e.
  { intros a b Hab. by rewrite Hoff_e2, Hoff_e1. }
  split; [by split; [|split]|]. split.
  - intros a Ha. unfold base_ok. cbn [e w].
    rewrite Hoff_e, Hoff_w1 by lia. by apply Hbase.
  - intros a b Ha Hab Hb Hlen.
    destruct (decide (a = i /\ b = j)) as [[-> ->]|Hne].
    + exists wprev, best. cbn [e w root].
      rewrite Hoff_w1 by lia. repeat split; try done.
      rewrite <- Hbest.
      apply scan_frame with (ci := i) (cj := j); [done | done | lia..].
    + apply cell_ok_frame with (st := st) (ci := i) (cj := j);
        [done | done | done | lia..| ].
      apply Hcells; lia.
Qed.

Lemma fill_length_step L st :
  1 <= L <= n -> filled p q L 1 st ->
  exists st', fill_length p q n L st = Ok st' /\ filled p q (L + 1) 1 st'.
Proof.
  intros HL Hst. unfold fill_length, range.
  destruct (for_each_seq (filled p q L) (fill_cell p q L) (n - L + 2 - 1) 1
              st Hst)
    as (st' & Hrun & Hst').
  - intros k s Hk Hs. apply fill_cell_step with (j := k + L - 1); [lia..|done].
  - exists st'. split; [done|].
    destruct Hst' as (Hsq & Hbase & Hcells). split; [done|]. split; [done|].
    intros a b Ha Hab Hb Hlen. apply Hcells; lia.
Qed.

Lemma optimal_bst_solved {K} (keys : list K) :
  length keys = n ->
  exists st, optimal_bst p q keys = Ok st /\ solved p q st.
Proof.
  intros Hk. unfold optimal_bst, range. cbv zeta.
  rewrite Hk, Nat.eqb_refl. cbn [negb].
  set (st0 := Tables _ _ _).
  destruct (for_each_seq
              (fun k st =>
                 squares p st /\ forall i, 1 <= i < k -> base_ok q st i)
              (base_case q) (n + 2 - 1) 1 st0) as (st1 & -> & Hsq1 & Hbase1).
  { split; [|intros; lia]. repeat split; cbn; try apply length_replicate;
      apply (square_new (n + 2)). }
  { intros k s Hk1 Hs. apply base_case_step; [lia | done]. }
  cbn [bind].
  destruct (for_each_seq (fun L => filled p q L 1) (fill_length p q n)
              (n + 1 - 1) 1 st1) as (st & Hrun & Hsq & Hbase & Hcells).
  - split; [done|]. split; [intros; apply Hbase1; lia | intros; lia].
  - intros L s HL Hs. apply fill_length_step; [lia | done].
  - exists st. split; [done|]. split; [done|]. split; [done|].
    intros i j Hi Hij Hj. apply Hcells; lia.
Qed.
End Builder.

(** ** The doubles of the interpreter *)

(** Literals, [round] and the two builtin sums on values known from the
    interpreter: [0.35], [0.02], [1e-6], [1e-9] and [1.1];
    [round(2.675, 2) == 2.67] and [round(2.5) == 2]; [sum([0.1] * 10)] is
    [0.9999999999999999] up to CPython 3.11 and [1.0] from 3.12 on. *)
Lemma binary64_examples :
  map Binary64.lit
      [35 # 100; 2 # 100; 1 # 1000000; 1 # 1000000000; 11 # 10]%Q
    = [0x1.6666666666666p-2; 0x1.47ae147ae147bp-6; 0x1.0c6f7a0b5ed8dp-20;
       0x1.12e0be826d695p-30; 0x1.199999999999ap+0]%float /\
  Binary64.round (Binary64.lit (2675 # 1000)) 2
    = 0x1.55c28f5c28f5cp+1%float /\
  Binary64.round 2.5 0 = 2%float /\
  Binary64.sum_left (repeat (Binary64.lit (1 # 10)) 10)
    = 0x1.fffffffffffffp-1%float /\
  Binary64.sum_compensated (repeat (Binary64.lit (1 # 10)) 10) = 1%float.
Proof. repeat (split; [vm_compute; reflexivity|]). vm_compute. reflexivity. Qed.

(** ** The order of the doubles *)

Local Ltac rank_no :=
  split; [discriminate |
          let a := fresh in let b := fresh in
          let Ha := fresh in let Hb := fresh in let H := fresh in
          intros (a & b & Ha & Hb & H);
          try discriminate;
          injection Ha as <-; injection Hb as <-; cbn in H; lia].

Local Ltac rank_yes :=
  split; [intros _; eexists _, _; split; [reflexivity|];
          split; [reflexivity|]; cbn; lia | reflexivity].

Lemma SFltb_rank x y :
  SFltb x y = true <->
  exists a b, rank x = Some a /\ rank y = Some b /\ rank_lt a b.
Proof.
  unfold SFltb, SFcompare, rank_lt.
  destruct x as [sx|sx| |sx mx ex], y as [sy|sy| |sy my ey];
    try destruct sx; try destruct sy; cbn [rank];
    try rank_no; try rank_yes.
  - change (Pos.compare_cont Eq mx my) with (mx ?= my)%positive.
    destruct (Z.compare_spec ex ey) as [->|Hlt|Hgt];
      [destruct (Pos.compare_spec mx my) as [->|Hlt|Hgt]; cbn [CompOpp]|..];
      try rank_no; try rank_yes.
  - change (Pos.compare_cont Eq mx my) with (mx ?= my)%positive.
    destruct (Z.compare_spec ex ey) as [->|Hlt|Hgt];
      [destruct (Pos.compare_spec mx my) as [->|Hlt|Hgt]|..];
      try rank_no; try rank_yes.
Qed.

Lemma rank_top x a : rank x = Some a -> a = (2, 0, 0)%Z \/ (a.1.1 < 2)%Z.
Proof.
  destruct x as [s|s| |s m ex]; try destruct s; cbn [rank];
    intros H; try discriminate; injection H as <-; cbn; auto; lia.
Qed.

Lemma binary64_lawful : lawful binary64.
Proof.
  split; cbn [fltb fadd inf binary64].
  - intros a. rewrite ltb_spec. destruct (SFltb _ _) eqn:E; [|done].
    apply SFltb_rank in E as (x & y & Hx & Hy & H).
    rewrite Hx in Hy. injection Hy as <-. unfold rank_lt in H. lia.
  - intros a b c. rewrite !ltb_spec, !SFltb_rank.
    intros (x & y & Hx & Hy & H) (y' & z & Hy' & Hz & H').
    rewrite Hy in Hy'. injection Hy' as <-.
    exists x, z. unfold rank_lt in *. repeat split; try done. lia.
  - intros a b. rewrite !ltb_spec, !SFltb_rank.
    intros (x & y & Hx & Hy & H). exists x, (2, 0, 0)%Z.
    split; [done|]. split; [reflexivity|].
    destruct (rank_top _ _ Hy) as [->|Hlt]; [done|].
    unfold rank_lt in *. cbn. lia.
  - intros a b c. rewrite !ltb_spec. intros Ha Hab Hcb.
    apply SFltb_rank in Ha as (x & t & Hx & _ & _).
    apply SFltb_rank in Hcb as (z & y & Hz & Hy & H).
    apply SFltb_rank. exists z, x. repeat split; try done.
    destruct (SFltb (Prim2SF a) (Prim2SF b)) eqn:E; [done|].
    assert (~ rank_lt x y) as Hn.
    { intros Hlt. assert (SFltb (Prim2SF a) (Prim2SF b) = true) as E';
        [|congruence].
      apply SFltb_rank. by exists x, y. }
    unfold rank_lt in *. lia.
  - intros a b. rewrite !ltb_spec, add_spec. unfold SF64add.
    change (Prim2SF infinity) with (S754_infinity false).
    destruct (Prim2SF a) as [sa|sa| |sa ma ea],
             (Prim2SF b) as [sb|sb| |sb mb eb];
      try destruct sa; try destruct sb; cbn [SFadd]; intros H;
      try discriminate; (split; reflexivity || exact H).
Qed.

(** ** The order of the exact numbers *)

Lemma Qltb_lt x y : Qltb x y = true <-> (x < y)%Q.
Proof.
  unfold Qltb. rewrite negb_true_iff. split.
  - intros H. apply Qnot_le_lt. intros Hle.
    apply Qle_bool_iff in Hle. congruence.
  - intros H. destruct (Qle_bool y x) eqn:E; [|done].
    apply Qle_bool_iff in E. lra.
Qed.

Lemma Qltb_ge x y : Qltb x y = false <-> (y <= x)%Q.
Proof.
  split; intros H.
  - apply Qnot_lt_le. intros Hlt. apply Qltb_lt in Hlt. congruence.
  - destruct (Qltb x y) eqn:E; [|done]. apply Qltb_lt in E. lra.
Qed.

Lemma exact_lawful : lawful exact_arith.
Proof.
  split; cbn [fltb fadd inf exact_arith].
  - intros [x| | |]; cbn [Exact.ltb]; try done. apply Qltb_ge. lra.
  - intros [x| | |] [y| | |] [z| | |]; cbn [Exact.ltb]; try done.
    rewrite !Qltb_lt. lra.
  - intros [x| | |] [y| | |]; cbn [Exact.ltb]; done.
  - intros [x| | |] [y| | |] [z| | |]; cbn [Exact.ltb]; try done.
    rewrite Qltb_ge, !Qltb_lt. lra.
  - intros [x| | |] [y| | |]; cbn [Exact.ltb Exact.add]; done.
Qed.

(** ** The scan of the candidate roots *)

Section Scan.
Context {F : Type} {A : Arith F}.
Hypothesis HA : lawful A.

(** The scan leaves [(None, inf)] when no candidate is below [inf];
    otherwise it leaves a candidate [r] that none is strictly below and
    that is strictly below every earlier one that is below [inf]. *)
Lemma pick_fold (c : nat -> F) a len :
  (fold_left (pick c) (seq a len) (None, inf) = (None, inf) /\
   forall r, a <= r < a + len -> fltb (c r) inf = false) \/
  (exists r, a <= r < a + len /\
     fold_left (pick c) (seq a len) (None, inf) = (Some r, c r) /\
     fltb (c r) inf = true /\
     (forall r', a <= r' < a + len -> fltb (c r') (c r) = false) /\
     (forall r', a <= r' < r ->
        fltb (c r) (c r') = true \/ fltb (c r') inf = false)).
Proof.
  induction len as [|len IH].
  - left. split; [done | lia].
  - rewrite seq_S, fold_left_app. cbn [fold_left].
    destruct IH as [[-> Hnone]|(r & Hr & -> & Hlt & Hmin & Hleft)];
      unfold pick; cbn [snd].
    + destruct (fltb (c (a + len)) inf) eqn:E.
      * right. exists (a + len). split; [lia|]. split; [done|].
        split; [done|]. split.
        -- intros r' Hr'. destruct (decide (r' = a + len)) as [->|Hne];
             [apply (lt_irrefl A HA)|].
           destruct (fltb (c r') (c (a + len))) eqn:E'; [|done].
           apply (lt_inf A HA) in E'. rewrite Hnone in E' by lia. done.
        -- intros r' Hr'. right. apply Hnone. lia.
      * left. split; [done|]. intros r Hr.
        destruct (decide (r = a + len)) as [->|Hne]; [done|].
        apply Hnone. lia.
    + destruct (fltb (c (a + len)) (c r)) eqn:E.
      * right. exists (a + len). split; [lia|]. split; [done|].
        split; [by apply (lt_inf A HA) in E|]. split.
        -- intros r' Hr'. destruct (decide (r' = a + len)) as [->|Hne];
             [apply (lt_irrefl A HA)|].
           destruct (fltb (c r') (c (a + len))) eqn:E'; [|done].
           pose proof (lt_trans A HA _ _ _ E' E) as Hc.
           rewrite Hmin in Hc by lia. done.
        -- intros r' Hr'.
           destruct (fltb (c r') inf) eqn:Er'; [left | by right].
           destruct (decide (r' < r)) as [Hlt'|Hge].
           ++ destruct (Hleft r') as [H|H]; [lia | | congruence].
              by apply (lt_trans A HA) with (b := c r).
           ++ apply (lt_total A HA) with (b := c r); [done | | done].
              apply Hmin. lia.
      * right. exists r. split; [lia|]. split; [done|]. split; [done|].
        split; [|done]. intros r' Hr'.
        destruct (decide (r' = a + len)) as [->|Hne]; [done|].
        apply Hmin. lia.
Qed.
End Scan.

(** ** The cells of the returned tables, in any arithmetic *)

Section Solved.
Context {F : Type} {A : Arith F}.
Variables p q : list F.
Variable st : tables F.
Hypothesis Hst : solved p q st.

Local Abbreviation n := (length p).

Lemma tget_cell_e i j :
  i < n + 2 -> j < n + 2 -> tget (e st) i j = Ok (cell (e st) i j).
Proof.
  intros Hi Hj. destruct Hst as ((He & _ & _) & _).
  destruct (tget_square _ _ i j He Hi Hj) as [v Hv].
  unfold cell. by rewrite Hv.
Qed.

Lemma tget_cell_w i j :
  i < n + 2 -> j < n + 2 -> tget (w st) i j = Ok (cell (w st) i j).
Proof.
  intros Hi Hj. destruct Hst as ((_ & Hw & _) & _).
  destruct (tget_square _ _ i j Hw Hi Hj) as [v Hv].
  unfold cell. by rewrite Hv.
Qed.

Lemma cell_base i :
  1 <= i <= n + 1 ->
  cell (e st) i (i - 1) = nth (i - 1) q (lit 0) /\
  cell (w st) i (i - 1) = nth (i - 1) q (lit 0).
Proof.
  intros Hi. destruct Hst as (_ & Hbase & _).
  destruct (Hbase i Hi) as [He Hw]. unfold cell. by rewrite He, Hw.
Qed.

Lemma cell_weight_step i j :
  1 <= i -> i <= j -> j <= n ->
  cell (w st) i j =
    fadd (fadd (cell (w st) i (j - 1)) (nth (j - 1) p (lit 0)))
         (nth j q (lit 0)).
Proof.
  intros Hi Hij Hj. destruct Hst as (_ & _ & Hcells).
  destruct (Hcells i j) as (wprev & best & H1 & H2 & _); [lia..|].
  unfold cell. by rewrite H1, H2.
Qed.

(** The inner loop is a fold of [pick] over the candidates. *)
Lemma scan_custo i j xs best :
  1 <= i -> j <= n -> (forall r, In r xs -> i <= r <= j) ->
  for_each xs (try_root (e st) (w st) i j) best
    = Ok (fold_left (pick (custo st i j)) xs best).
Proof.
  intros Hi Hj. revert best.
  induction xs as [|r xs IH]; intros best H; simpl; [done|].
  assert (i <= r <= j) as Hr by (apply H; by left).
  unfold try_root at 1.
  rewrite !tget_cell_e, tget_cell_w by lia. cbn [bind].
  unfold pick at 2. fold (custo st i j r).
  destruct (fltb _ _); cbn [bind]; apply IH; intros; apply H; by right.
Qed.

(** What a filled cell holds: nothing, when no candidate is below [inf];
    otherwise a root of its interval and that root's cost. *)
Lemma chosen_cell (HA : lawful A) i j :
  1 <= i -> i <= j -> j <= n ->
  (tget (root st) i j = Ok None /\ cell (e st) i j = inf /\
   forall r, i <= r <= j -> fltb (custo st i j r) inf = false) \/
  (exists r, i <= r <= j /\
     tget (root st) i j = Ok (Some (Z.of_nat r)) /\
     cell (e st) i j = custo st i j r /\
     fltb (custo st i j r) inf = true /\
     (forall r', i <= r' <= j ->
        fltb (custo st i j r') (custo st i j r) = false) /\
     (forall r', i <= r' < r ->
        fltb (custo st i j r) (custo st i j r') = true \/
        fltb (custo st i j r') inf = false)).
Proof.
  intros Hi Hij Hj. pose proof Hst as (_ & _ & Hcells).
  destruct (Hcells i j) as (wprev & best & _ & _ & H3 & H4 & H5); [lia..|].
  rewrite scan_custo in H3; [|lia | lia |].
  2: { intros r Hr. apply in_seq in Hr. lia. }
  injection H3 as H3. unfold range in H3.
  destruct (pick_fold HA (custo st i j) i (j + 1 - i))
    as [[Hf Hnone]|(r & Hr & Hf & Hlt & Hmin & Hleft)];
    rewrite Hf in H3; subst best; cbn [fst snd fmap option_fmap option_map]
      in H4, H5.
  - left. split; [done|]. split; [unfold cell; by rewrite H4|].
    intros r Hr. apply Hnone. lia.
  - right. exists r. split; [lia|]. split; [done|].
    split; [unfold cell at 1; by rewrite H4|]. split; [done|].
    split; [|done]. intros r' Hr'. apply Hmin. lia.
Qed.

(** A cost below [inf] has a root, and the costs of both sides of that
    root are below [inf]. *)
Lemma below_inf_root (HA : lawful A) i j :
  1 <= i -> i <= j -> j <= n -> below_inf (cell (e st) i j) ->
  exists r, i <= r <= j /\
    tget (root st) i j = Ok (Some (Z.of_nat r)) /\
    below_inf (cell (e st) i (r - 1)) /\ below_inf (cell (e st) (r + 1) j).
Proof.
  intros Hi Hij Hj Hlt. unfold below_inf in *.
  destruct (chosen_cell HA i j) as [(_ & He & _)|(r & Hr & Hget & He & _)];
    [lia.. | |].
  - rewrite He, (lt_irrefl A HA) in Hlt. done.
  - exists r. split; [done|]. split; [done|].
    rewrite He in Hlt. unfold custo in Hlt.
    apply (add_lt_inf A HA) in Hlt as [Hlt _].
    by apply (add_lt_inf A HA) in Hlt.
Qed.

(** A cost that is not below [inf] has no root. *)
Lemma no_root (HA : lawful A) i j :
  1 <= i -> i <= j -> j <= n -> fltb (cell (e st) i j) inf = false ->
  tget (root st) i j = Ok None.
Proof.
  intros Hi Hij Hj Hlt.
  destruct (chosen_cell HA i j) as [(Hget & _)|(r & Hr & _ & He & Hlt' & _)];
    [lia.. | done |].
  rewrite He in Hlt. congruence.
Qed.

(** The weight of an interval is the running sum of its gaps and keys. *)
Lemma cell_weight_running len : forall i j,
  1 <= i -> j + 1 = i + len -> j <= n ->
  cell (w st) i j = running_weight p q i j.
Proof.
  induction len as [|len IH]; intros i j Hi Hlen Hj.
  - replace j with (i - 1) by lia.
    destruct (cell_base i) as [_ ->]; [lia|].
    unfold running_weight. by replace (i - 1 + 1 - i) with 0 by lia.
  - rewrite cell_weight_step, (IH i (j - 1)) by lia.
    unfold running_weight.
    replace (j + 1 - i) with (S (j - 1 + 1 - i)) by lia.
    rewrite seq_S, fold_left_app. cbn [fold_left].
    by replace (i + (j - 1 + 1 - i)) with j by lia.
Qed.
End Solved.

(** ** The recurrence in exact arithmetic *)

Lemma scan_pick e0 w0 i j c xs best :
  (forall r, In r xs ->
     exists a b wv, tget e0 i (r - 1) = Ok (Fin a) /\
       tget e0 (r + 1) j = Ok (Fin b) /\ tget w0 i j = Ok (Fin wv) /\
       c r = (a + b + wv)%Q) ->
  for_each xs (try_root e0 w0 i j) best = Ok (fold_left (pick (fun r => Fin (c r))) xs best).
Proof.
  revert best. induction xs as [|r xs IH]; intros best H; simpl; [done|].
  destruct (H r) as (a & b & wv & Ha & Hb & Hw & Hc); [by left|].
  unfold try_root at 1. rewrite Ha, Hb, Hw.
  cbn [bind fadd exact_arith Exact.add].
  unfold pick at 2. rewrite Hc.
  destruct (fltb _ _); cbn [bind]; apply IH; intros; apply H; by right.
Qed.

(** The strict comparison keeps the leftmost of the cheapest roots. *)
Lemma pick_seq c a len :
  0 < len ->
  exists r, a <= r < a + len /\
    fold_left (pick (fun r => Fin (c r))) (seq a len) (None, Inf)
      = (Some r, Fin (c r)) /\
    (forall r', a <= r' < a + len -> (c r <= c r')%Q) /\
    (forall r', a <= r' < r -> (c r < c r')%Q).
Proof.
  induction len as [|len IH]; [lia|]. intros _.
  destruct len as [|len].
  - exists a. simpl. repeat split; try lia.
    + intros r' Hr'. replace r' with a by lia. lra.
  - destruct IH as (r & Hr & Hfold & Hmin & Hleft); [lia|].
    rewrite seq_S, fold_left_app, Hfold. simpl. unfold pick. simpl.
    destruct (Qltb (c (a + S len)) (c r)) eqn:E.
    + apply Qltb_lt in E. exists (a + S len). repeat split; try lia.
      * intros r' Hr'. destruct (decide (r' = a + S len)) as [->|]; [lra|].
        specialize (Hmin r'). lapply Hmin; [lra | lia].
      * intros r' Hr'. specialize (Hmin r'). lapply Hmin; [lra | lia].
    + apply Qltb_ge in E. exists r. repeat split; try lia; try done.
      intros r' Hr'. destruct (decide (r' = a + S len)) as [->|]; [lra|].
      apply Hmin. lia.
Qed.

Lemma nth_rationals (l : list Q) k :
  nth k (rationals l) (lit 0) = Fin (nth k l 0%Q).
Proof. apply (map_nth Fin). Qed.

Lemma length_rationals (l : list Q) : length (rationals l) = length l.
Proof. apply length_map. Qed.

Section Recurrence.
Variables p q : list Q.
Variable st : tables exact.
Hypothesis Hst : solved (rationals p) (rationals q) st.

Local Abbreviation n := (length p).

Lemma exact_base i :
  1 <= i <= n + 1 ->
  tget (e st) i (i - 1) = Ok (Fin (nth (i - 1) q 0%Q)) /\
  tget (w st) i (i - 1) = Ok (Fin (nth (i - 1) q 0%Q)).
Proof.
  intros Hi. destruct Hst as (_ & Hbase & _).
  rewrite length_rationals in Hbase.
  destruct (Hbase i Hi) as [He Hw]. by rewrite nth_rationals in He, Hw.
Qed.

Lemma exact_cell i j :
  1 <= i -> i <= j -> j <= n ->
  exists wprev best,
    tget (w st) i (j - 1) = Ok wprev /\
    tget (w st) i j =
      Ok (Exact.add (Exact.add wprev (Fin (nth (j - 1) p 0%Q)))
                    (Fin (nth j q 0%Q))) /\
    for_each (range i (j + 1)) (try_root (e st) (w st) i j) (None, Inf)
      = Ok best /\
    tget (e st) i j = Ok (snd best) /\
    tget (root st) i j = Ok (Z.of_nat <$> fst best).
Proof.
  intros Hi Hij Hj. destruct Hst as (_ & _ & Hcells).
  rewrite length_rationals in Hcells.
  destruct (Hcells i j Hi Hij Hj) as (wprev & best & H1 & H2 & H3).
  exists wprev, best. by rewrite !nth_rationals in H2.
Qed.

Lemma cells_finite len : forall i j,
  1 <= i -> j + 1 = i + len -> j <= n ->
  (exists x, tget (e st) i j = Ok (Fin x)) /\
  (exists y, tget (w st) i j = Ok (Fin y)).
Proof.
  induction len as [len IH] using lt_wf_ind. intros i j Hi Hlen Hj.
  pose proof exact_base as Hbase. pose proof exact_cell as Hcells.
  destruct (decide (len = 0)) as [->|Hne].
  - destruct (Hbase i) as [He Hw]; [lia|].
    replace j with (i - 1) by lia. eauto.
  - destruct (Hcells i j) as (wprev & best & H1 & H2 & H3 & H4 & H5);
      [lia..|].
    destruct (IH (len - 1)) with (i := i) (j := j - 1) as [_ [y Hy]];
      [lia..|].
    rewrite Hy in H1. injection H1 as <-. cbn [Exact.add] in H2.
    split; [|eauto].
    rewrite scan_pick with (c := candidate st i j) in H3.
    + destruct (pick_seq (candidate st i j) i (j + 1 - i)) as (r & _ & Hf & _);
        [lia|].
      unfold range in H3. rewrite Hf in H3. injection H3 as <-.
      rewrite H4. simpl. eauto.
    + intros r Hr. apply in_seq in Hr.
      destruct (IH (r - i)) with (i := i) (j := r - 1) as [[a Ha] _];
        [lia..|].
      destruct (IH (j - r)) with (i := r + 1) (j := j) as [[b Hb] _];
        [lia..|].
      exists a, b. eexists. repeat split; try done.
      unfold candidate, cost_at, weight_at. by rewrite Ha, Hb, H2.
Qed.

Lemma cost_at_get i j :
  1 <= i -> i <= j + 1 -> j <= n ->
  tget (e st) i j = Ok (Fin (cost_at st i j)).
Proof.
  intros Hi Hij Hj.
  destruct (cells_finite (j + 1 - i) i j) as [[x Hx] _]; [lia..|].
  unfold cost_at. by rewrite Hx.
Qed.

Lemma weight_at_get i j :
  1 <= i -> i <= j + 1 -> j <= n ->
  tget (w st) i j = Ok (Fin (weight_at st i j)).
Proof.
  intros Hi Hij Hj.
  destruct (cells_finite (j + 1 - i) i j) as [_ [x Hx]]; [lia..|].
  unfold weight_at. by rewrite Hx.
Qed.

Lemma cost_at_base i :
  1 <= i <= n + 1 -> cost_at st i (i - 1) = nth (i - 1) q 0%Q.
Proof.
  intros Hi.
  destruct (exact_base i Hi) as [He _]. unfold cost_at. by rewrite He.
Qed.

Lemma weight_at_base i :
  1 <= i <= n + 1 -> weight_at st i (i - 1) = nth (i - 1) q 0%Q.
Proof.
  intros Hi.
  destruct (exact_base i Hi) as [_ Hw]. unfold weight_at. by rewrite Hw.
Qed.

Lemma weight_at_step i j :
  1 <= i -> i <= j -> j <= n ->
  weight_at st i j =
    (weight_at st i (j - 1) + nth (j - 1) p 0 + nth j q 0)%Q.
Proof.
  intros Hi Hij Hj.
  destruct (exact_cell i j) as (wprev & best & H1 & H2 & _); [lia..|].
  rewrite weight_at_get in H1 by lia. injection H1 as <-.
  unfold weight_at at 1. by rewrite H2.
Qed.

(** The chosen root is the leftmost cheapest candidate, and the cost cell
    holds its cost. *)
Lemma chosen_root i j :
  1 <= i -> i <= j -> j <= n ->
  exists r, i <= r <= j /\
    tget (root st) i j = Ok (Some (Z.of_nat r)) /\
    cost_at st i j = candidate st i j r /\
    (forall r', i <= r' <= j ->
       (candidate st i j r <= candidate st i j r')%Q) /\
    (forall r', i <= r' < r -> (candidate st i j r < candidate st i j r')%Q).
Proof.
  intros Hi Hij Hj.
  destruct (exact_cell i j) as (wprev & best & _ & _ & H3 & H4 & H5); [lia..|].
  rewrite scan_pick with (c := candidate st i j) in H3.
  - destruct (pick_seq (candidate st i j) i (j + 1 - i))
      as (r & Hr & Hf & Hmin & Hleft); [lia|].
    unfold range in H3. rewrite Hf in H3. injection H3 as <-.
    exists r. simpl in H4, H5. split; [lia|]. split; [done|].
    split; [unfold cost_at at 1; by rewrite H4|].
    split; [|done]. intros r' Hr'. apply Hmin. lia.
  - intros r Hr. apply in_seq in Hr.
    exists (cost_at st i (r - 1)), (cost_at st (r + 1) j), (weight_at st i j).
    rewrite !cost_at_get, weight_at_get by lia. done.
Qed.
End Recurrence.

(** ** Traversals of a root table whose roots lie in their intervals *)

Lemma slice_middle {A} (l : list A) a r b k :
  a <= r -> r < b -> l !! r = Some k ->
  slice l a r ++ [k] ++ slice l (r + 1) b = slice l a b.
Proof.
  intros Har Hrb Hk. unfold slice.
  assert (drop a l !! (r - a) = Some k) as Hk'.
  { rewrite lookup_drop. by replace (a + (r - a)) with r by lia. }
  pose proof (lookup_lt_Some _ _ _ Hk') as Hlen.
  rewrite <- (take_drop_middle (drop a l) (r - a) k Hk') at 2.
  rewrite take_app, take_take, length_take, drop_drop.
  replace ((b - a) `min` (r - a)) with (r - a) by lia.
  replace (b - a - (r - a) `min` length (drop a l)) with (S (b - (r + 1)))
    by lia.
  replace (a + S (r - a)) with (r + 1) by lia. done.
Qed.

Lemma root_of_tget root0 i j r :
  tget root0 i j = Ok (Some (Z.of_nat r)) ->
  root_of root0 (Z.of_nat i) (Z.of_nat j) = Ok (Z.of_nat r).
Proof.
  unfold tget, root_of. rewrite index_of_nat.
  destruct (item root0 i) as [row|]; cbn [bind]; [|done].
  rewrite index_of_nat. by intros ->.
Qed.

Section WalkGood.
Context {K : Type}.
Variables (root0 : table (option Z)) (keys : list K).
Variable good : nat -> nat -> Prop.
Hypothesis Hroots :
  forall i j, 1 <= i -> i <= j -> j <= length keys -> good i j ->
    exists r, i <= r <= j /\ tget root0 i j = Ok (Some (Z.of_nat r)) /\
      good i (r - 1) /\ good (r + 1) j.

(** Entering a non-empty interval: the root is read, it lies inside, and
    its key exists. *)
Lemma enter_good i j :
  1 <= i -> i <= j -> j <= length keys -> good i j ->
  exists r k, i <= r <= j /\ good i (r - 1) /\ good (r + 1) j /\
    root_of root0 (Z.of_nat i) (Z.of_nat j) = Ok (Z.of_nat r) /\
    (Z.of_nat r - 1 = Z.of_nat (r - 1))%Z /\
    (Z.of_nat r + 1 = Z.of_nat (r + 1))%Z /\
    keys !! (r - 1) = Some k /\
    index keys (Z.of_nat (r - 1)) = Ok k.
Proof.
  intros Hi Hij Hj Hg.
  destruct (Hroots i j Hi Hij Hj Hg) as (r & Hr & Hget & Hgl & Hgr).
  destruct (item_lt keys (r - 1)) as (k & Hk & Hl); [lia|].
  exists r, k. rewrite index_of_nat.
  repeat split; try lia; try done. by apply root_of_tget.
Qed.

Lemma inorder_good depth : forall i j,
  1 <= i -> i <= j + 1 -> j <= length keys -> j + 1 - i < depth ->
  good i j ->
  inorder_from_root depth root0 keys (Z.of_nat i) (Z.of_nat j)
    = Ok (slice keys (i - 1) j).
Proof.
  induction depth as [|depth IH]; intros i j Hi Hij Hj Hd Hg; [lia|].
  cbn [inorder_from_root].
  destruct (Z.ltb_spec (Z.of_nat j) (Z.of_nat i)) as [Hlt|Hge].
  - unfold slice. by replace (j - (i - 1)) with 0 by lia.
  - destruct (enter_good i j)
      as (r & k & Hr & Hgl & Hgr & -> & Hm & Hp & Hk & Hidx); [lia..|done|].
    cbn [bind]. rewrite Hm, Hp, !IH by (lia || done). cbn [bind]. rewrite Hidx.
    cbn [bind].
    f_equal. replace (r + 1 - 1) with (r - 1 + 1) by lia.
    apply slice_middle; [lia | lia | done].
Qed.


End WalkGood.

Section Walk.
Context {K : Type}.
Variables (root0 : table (option Z)) (keys : list K).
Hypothesis Hroots : roots_in_range root0 (length keys).

Lemma roots_good i j :
  1 <= i -> i <= j -> j <= length keys -> True ->
  exists r, i <= r <= j /\ tget root0 i j = Ok (Some (Z.of_nat r)) /\
    True /\ True.
Proof.
  intros Hi Hij Hj _. destruct (Hroots i j Hi Hij Hj) as (r & Hr & Hget).
  by exists r.
Qed.

(** Entering a non-empty interval: the root is read, it lies inside, and
    its key exists. *)
Lemma enter i j :
  1 <= i -> i <= j -> j <= length keys ->
  exists r k, i <= r <= j /\
    root_of root0 (Z.of_nat i) (Z.of_nat j) = Ok (Z.of_nat r) /\
    (Z.of_nat r - 1 = Z.of_nat (r - 1))%Z /\
    (Z.of_nat r + 1 = Z.of_nat (r + 1))%Z /\
    keys !! (r - 1) = Some k /\
    index keys (Z.of_nat (r - 1)) = Ok k.
Proof.
  intros Hi Hij Hj.
  destruct (enter_good root0 keys (fun _ _ => True) roots_good i j)
    as (r & k & Hr & _ & _ & H); [done..|].
  by exists r, k.
Qed.

Lemma inorder_slice depth i j :
  1 <= i -> i <= j + 1 -> j <= length keys -> j + 1 - i < depth ->
  inorder_from_root depth root0 keys (Z.of_nat i) (Z.of_nat j)
    = Ok (slice keys (i - 1) j).
Proof.
  intros. by apply (inorder_good root0 keys (fun _ _ => True) roots_good).
Qed.


End Walk.

Lemma solved_roots p q st :
  solved (rationals p) (rationals q) st ->
  roots_in_range (root st) (length p).
Proof.
  intros Hst i j Hi Hij Hj.
  destruct (chosen_root p q st Hst i j) as (r & Hr & Hget & _); [lia..|].
  eauto.
Qed.

(** ** Traversals of the returned root table *)

Lemma optimal_bst_exact {K} (p q : list Q) (keys : list K) :
  length q = length p + 1 -> length keys = length p ->
  exists st, optimal_bst (rationals p) (rationals q) keys = Ok st /\
    solved (rationals p) (rationals q) st.
Proof.
  intros Hq Hk. apply optimal_bst_solved; by rewrite !length_rationals.
Qed.

Lemma root_of_none (root0 : table (option Z)) i j :
  tget root0 i j = Ok None ->
  root_of root0 (Z.of_nat i) (Z.of_nat j) = Raise TypeError.
Proof.
  unfold tget, root_of. rewrite index_of_nat.
  destruct (item root0 i) as [row|]; cbn [bind]; [|done].
  rewrite index_of_nat. by intros ->.
Qed.

(** With no root to read, a traversal raises [TypeError] at once. *)
Lemma traversals_type_error {K} (root0 : table (option Z)) (keys : list K)
    depth i j :
  i <= j -> tget root0 i j = Ok None ->
  preorder_from_root (S depth) root0 keys (Z.of_nat i) (Z.of_nat j)
    = Raise TypeError /\
  inorder_from_root (S depth) root0 keys (Z.of_nat i) (Z.of_nat j)
    = Raise TypeError /\
  postorder_from_root (S depth) root0 keys (Z.of_nat i) (Z.of_nat j)
    = Raise TypeError.
Proof.
  intros Hij Hget. apply root_of_none in Hget.
  cbn [preorder_from_root inorder_from_root postorder_from_root].
  destruct (Z.ltb_spec (Z.of_nat j) (Z.of_nat i)) as [Hlt|Hge]; [lia|].
  rewrite Hget. done.
Qed.

Section Costed.
Context {F : Type} {A : Arith F} {K : Type}.
Hypothesis HA : lawful A.
Variables p q : list F.
Variable st : tables F.
Variable keys : list K.
Hypothesis Hst : solved p q st.
Hypothesis Hk : length keys = length p.

(** A costed interval has a root, with costed intervals on both sides. *)
Lemma costed_root i j :
  1 <= i -> i <= j -> j <= length keys -> costed st i j ->
  exists r, i <= r <= j /\ tget (root st) i j = Ok (Some (Z.of_nat r)) /\
    costed st i (r - 1) /\ costed st (r + 1) j.
Proof.
  intros Hi Hij Hj [Hlt|Hc]; [lia|]. rewrite Hk in Hj.
  destruct (below_inf_root p q st Hst HA i j Hi Hij Hj Hc)
    as (r & Hr & Hget & Hl & Hrt).
  exists r. split; [done|]. split; [done|]. split; by right.
Qed.

(** An interval that is not costed has no root. *)
Lemma uncosted_root i j :
  1 <= i -> j <= length keys -> ~ costed st i j ->
  i <= j /\ tget (root st) i j = Ok None.
Proof.
  intros Hi Hj Hc. rewrite Hk in Hj.
  assert (i <= j) as Hij.
  { destruct (Nat.le_gt_cases i j); [done|]. exfalso. apply Hc. by left. }
  split; [done|]. apply (no_root p q st Hst HA); [done..|].
  destruct (fltb (cell (e st) i j) inf) eqn:E; [|done].
  exfalso. apply Hc. by right.
Qed.

Lemma costed_inorder depth i j :
  1 <= i -> i <= j + 1 -> j <= length keys -> j + 1 - i < depth ->
  costed st i j ->
  inorder_from_root depth (root st) keys (Z.of_nat i) (Z.of_nat j)
    = Ok (slice keys (i - 1) j).
Proof. apply (inorder_good (root st) keys (costed st) costed_root). Qed.


End Costed.

Lemma slice_all {A} (l : list A) : slice l 0 (length l) = l.
Proof. unfold slice. rewrite drop_0, Nat.sub_0_r. by apply take_ge. Qed.

(** ** The tree behind the traversals *)

Section TreeGood.
Context {K : Type}.
Variables (root0 : table (option Z)) (keys : list K).
Variable good : nat -> nat -> Prop.
Hypothesis Hroots :
  forall i j, 1 <= i -> i <= j -> j <= length keys -> good i j ->
    exists r, i <= r <= j /\ tget root0 i j = Ok (Some (Z.of_nat r)) /\
      good i (r - 1) /\ good (r + 1) j.

Lemma tree_of_bst_good depth : forall i j,
  1 <= i -> i <= j + 1 -> j <= length keys -> j + 1 - i < depth ->
  good i j ->
  bst i j (tree_of depth root0 i j).
Proof.
  induction depth as [|depth IH]; intros i j Hi Hij Hj Hd Hg; [lia|].
  cbn [tree_of]. destruct (Nat.ltb_spec j i) as [Hlt|Hge]; [simpl; lia|].
  destruct (Hroots i j) as (r & Hr & -> & Hgl & Hgr); [lia..|done|].
  rewrite Nat2Z.id.
  cbn [bst]. split; [lia|]. split; apply IH; (done || lia).
Qed.

Lemma tree_of_walk_good depth : forall i j,
  1 <= i -> i <= j + 1 -> j <= length keys -> j + 1 - i < depth ->
  good i j ->
  preorder_from_root depth root0 keys (Z.of_nat i) (Z.of_nat j)
    = Ok (keys_of keys (preorder (tree_of depth root0 i j))) /\
  inorder_from_root depth root0 keys (Z.of_nat i) (Z.of_nat j)
    = Ok (keys_of keys (inorder (tree_of depth root0 i j))) /\
  postorder_from_root depth root0 keys (Z.of_nat i) (Z.of_nat j)
    = Ok (keys_of keys (postorder (tree_of depth root0 i j))).
Proof.
  induction depth as [|depth IH]; intros i j Hi Hij Hj Hd Hg; [lia|].
  cbn [tree_of preorder_from_root inorder_from_root postorder_from_root].
  destruct (Nat.ltb_spec j i) as [Hlt|Hge].
  { destruct (Z.ltb_spec (Z.of_nat j) (Z.of_nat i)); [done | lia]. }
  destruct (Z.ltb_spec (Z.of_nat j) (Z.of_nat i)); [lia|].
  destruct (Hroots i j) as (r & Hr & Hget & Hgl & Hgr); [lia..|done|].
  rewrite (root_of_tget _ _ _ _ Hget), Hget, Nat2Z.id. cbn [bind].
  destruct (item_lt keys (r - 1)) as (k & Hitem & Hk); [lia|].
  replace (Z.of_nat r - 1)%Z with (Z.of_nat (r - 1)) by lia.
  replace (Z.of_nat r + 1)%Z with (Z.of_nat (r + 1)) by lia.
  rewrite index_of_nat, Hitem.
  destruct (IH i (r - 1)) as (-> & -> & ->); [lia..|done|].
  destruct (IH (r + 1) j) as (-> & -> & ->); [lia..|done|].
  cbn [bind preorder inorder postorder]. unfold keys_of.
  rewrite !omap_app. simpl. rewrite Hk. done.
Qed.
End TreeGood.

Section TreeWalk.
Context {K : Type}.
Variables (root0 : table (option Z)) (keys : list K).
Hypothesis Hroots : roots_in_range root0 (length keys).

Lemma tree_of_bst depth i j :
  1 <= i -> i <= j + 1 -> j <= length keys -> j + 1 - i < depth ->
  bst i j (tree_of depth root0 i j).
Proof.
  intros. by apply (tree_of_bst_good root0 keys (fun _ _ => True)
                      (roots_good root0 keys Hroots)).
Qed.

Lemma tree_of_walk depth i j :
  1 <= i -> i <= j + 1 -> j <= length keys -> j + 1 - i < depth ->
  preorder_from_root depth root0 keys (Z.of_nat i) (Z.of_nat j)
    = Ok (keys_of keys (preorder (tree_of depth root0 i j))) /\
  inorder_from_root depth root0 keys (Z.of_nat i) (Z.of_nat j)
    = Ok (keys_of keys (inorder (tree_of depth root0 i j))) /\
  postorder_from_root depth root0 keys (Z.of_nat i) (Z.of_nat j)
    = Ok (keys_of keys (postorder (tree_of depth root0 i j))).
Proof.
  intros. by apply (tree_of_walk_good root0 keys (fun _ _ => True)
                      (roots_good root0 keys Hroots)).
Qed.
End TreeWalk.

Section CostedTree.
Context {F : Type} {A : Arith F} {K : Type}.
Hypothesis HA : lawful A.
Variables p q : list F.
Variable st : tables F.
Variable keys : list K.
Hypothesis Hst : solved p q st.
Hypothesis Hk : length keys = length p.

(** On a costed interval the root table describes a search tree, and the
    traversals return its keys. *)
Lemma costed_tree depth i j :
  1 <= i -> i <= j + 1 -> j <= length keys -> j + 1 - i < depth ->
  costed st i j ->
  bst i j (tree_of depth (root st) i j) /\
  preorder_from_root depth (root st) keys (Z.of_nat i) (Z.of_nat j)
    = Ok (keys_of keys (preorder (tree_of depth (root st) i j))) /\
  inorder_from_root depth (root st) keys (Z.of_nat i) (Z.of_nat j)
    = Ok (keys_of keys (inorder (tree_of depth (root st) i j))) /\
  postorder_from_root depth (root st) keys (Z.of_nat i) (Z.of_nat j)
    = Ok (keys_of keys (postorder (tree_of depth (root st) i j))).
Proof.
  intros Hi Hij Hj Hd Hc. split.
  - by apply (tree_of_bst_good (root st) keys (costed st)
                (costed_root HA p q st keys Hst Hk)).
  - by apply (tree_of_walk_good (root st) keys (costed st)
                (costed_root HA p q st keys Hst Hk)).
Qed.

(** The cost cell of a costed interval holds the cost of that tree, added
    up as the recurrence does. *)
Lemma costed_tree_custo depth : forall i j,
  1 <= i -> i <= j + 1 -> j <= length p -> j + 1 - i < depth ->
  costed st i j ->
  cell (e st) i j = tree_custo p q i j (tree_of depth (root st) i j).
Proof.
  induction depth as [|depth IH]; intros i j Hi Hij Hj Hd Hc; [lia|].
  cbn [tree_of]. destruct (Nat.ltb_spec j i) as [Hlt|Hge].
  - cbn [tree_custo]. replace j with (i - 1) by lia.
    apply (cell_base p q st Hst). lia.
  - destruct Hc as [Hc|Hc]; [lia|].
    destruct (chosen_cell p q st Hst HA i j)
      as [(_ & He & _)|(r & Hr & Hget & He & Hlt & _)]; [lia..| |].
    { unfold below_inf in Hc. rewrite He, (lt_irrefl A HA) in Hc. done. }
    rewrite Hget, Nat2Z.id. cbn [tree_custo]. rewrite He. unfold custo.
    unfold custo in Hlt.
    apply (add_lt_inf A HA) in Hlt as [Hlt _].
    apply (add_lt_inf A HA) in Hlt as [Hl Hr'].
    rewrite (IH i (r - 1)), (IH (r + 1) j) by (lia || by right).
    by rewrite (cell_weight_running p q st Hst (j + 1 - i)) by lia.
Qed.
End CostedTree.

(** * The claims *)

(** ** Base case *)

(** C7.  With no keys ([p] and [keys] empty, [q] of length 1) [optimal_bst]
    returns tables whose cell [e[1][0]] (and [w[1][0]]) is [q[0]], and each
    of the three traversals called with [i = 1], [j = 0] returns the empty
    list, whatever the root table and the keys.  This holds in any
    arithmetic: no float operation is involved. *)
Theorem no_keys {F} {A : Arith F} {K} (q0 : F) (depth : nat)
    (root0 : table (option Z)) (keys : list K) :
  (exists st, optimal_bst [] [q0] (@nil K) = Ok st /\
     tget (e st) 1 0 = Ok q0 /\ tget (w st) 1 0 = Ok q0 /\
     preorder_from_root (S depth) (root st) (@nil K) 1 0 = Ok [] /\
     inorder_from_root (S depth) (root st) (@nil K) 1 0 = Ok [] /\
     postorder_from_root (S depth) (root st) (@nil K) 1 0 = Ok []) /\
  preorder_from_root (S depth) root0 keys 1 0 = Ok [] /\
  inorder_from_root (S depth) root0 keys 1 0 = Ok [] /\
  postorder_from_root (S depth) root0 keys 1 0 = Ok [].
Proof.
  split; [|by repeat split].
  eexists. split; [reflexivity|]. by repeat split.
Qed.

(** ** Roots and traversals *)






(** C3 (as amended).  On an input of the right shape, in binary64, the
    in-order traversal of the root table returned by [optimal_bst], started
    on [1..n] with a recursion depth of at least [n + 1], returns exactly
    [keys] when there is no key or the cost [e[1][n]] is below [inf];
    otherwise [root[1][n]] is [None] and the traversal raises [TypeError].
    In exact arithmetic, on rational inputs, it always returns [keys]. *)
Theorem inorder_round_trip {K} (keys : list K) (depth : nat) :
  (forall p q : list float,
     length q = length p + 1 -> length keys = length p -> length p < depth ->
     exists st, optimal_bst p q keys = Ok st /\
       tget (e st) 1 (length p) = Ok (cell (e st) 1 (length p)) /\
       (costed st 1 (length p) ->
        inorder_from_root depth (root st) keys 1 (Z.of_nat (length p))
          = Ok keys) /\
       (~ costed st 1 (length p) ->
        tget (root st) 1 (length p) = Ok None /\
        inorder_from_root depth (root st) keys 1 (Z.of_nat (length p))
          = Raise TypeError)) /\
  (forall p q : list Q,
     length q = length p + 1 -> length keys = length p -> length p < depth ->
     exists st, optimal_bst (rationals p) (rationals q) keys = Ok st /\
       inorder_from_root depth (root st) keys 1 (Z.of_nat (length p))
         = Ok keys).
Proof.
  split.
  - intros p q Hq Hk Hd.
    destruct (optimal_bst_solved p q Hq keys Hk) as (st & Hrun & Hst).
    exists st. split; [done|]. split; [|split].
    + apply (tget_cell_e p q st Hst); lia.
    + intros Hc. change 1%Z with (Z.of_nat 1).
      rewrite (costed_inorder binary64_lawful p q st keys Hst Hk)
        by (done || lia).
      rewrite <- Hk. change (1 - 1) with 0. by rewrite slice_all.
    + intros Hc.
      destruct (uncosted_root binary64_lawful p q st keys Hst Hk 1 (length p))
        as [Hn Hget]; [lia | lia | done |].
      split; [done|]. destruct depth as [|d]; [lia|].
      change 1%Z with (Z.of_nat 1).
      by apply traversals_type_error.
  - intros p q Hq Hk Hd.
    destruct (optimal_bst_exact p q keys Hq Hk) as (st & Hrun & Hst).
    pose proof (solved_roots p q st Hst) as Hroots. rewrite <- Hk in Hroots.
    exists st. split; [done|].
    change 1%Z with (Z.of_nat 1).
    rewrite inorder_slice by (done || lia).
    rewrite <- Hk. change (1 - 1) with 0. by rewrite slice_all.
Qed.

Lemma inorder_round_trip_witness :
  exists st,
    optimal_bst (map Binary64.lit example_p) (map Binary64.lit example_q)
      example_keys = Ok st /\
    inorder_from_root recursion_limit (root st) example_keys 1 4
      = Ok example_keys.
Proof.
  destruct (inorder_round_trip example_keys recursion_limit) as [H64 _].
  destruct (H64 (map Binary64.lit example_p) (map Binary64.lit example_q))
    as (st & Hrun & _ & Hin & _);
    [reflexivity | reflexivity | apply Nat.ltb_lt; reflexivity |].
  exists st. split; [exact Hrun|]. apply Hin.
  right. vm_compute in Hrun. injection Hrun as <-. vm_compute. reflexivity.
Defined.

(** C3 as stated fails: on the two probabilities [2^1023] with gaps of
    probability 0 (an input of the right shape with no negative entry),
    [optimal_bst] returns a root table whose in-order traversal raises
    [TypeError] instead of returning the keys. *)
Lemma inorder_fails_on_overflow :
  existsb (fun x => x <? 0)%float ([0x1p1023; 0x1p1023] ++ [0; 0; 0])%float
    = false /\
  exists st,
    optimal_bst [0x1p1023; 0x1p1023]%float [0; 0; 0]%float [1; 2] = Ok st /\
    cell (e st) 1 2 = infinity /\
    inorder_from_root recursion_limit (root st) [1; 2] 1 2
      = Raise TypeError.
Proof.
  split; [reflexivity|].
  pose (st := match optimal_bst [0x1p1023; 0x1p1023]%float [0; 0; 0]%float
                      [1; 2] with
              | Ok st => st
              | Raise _ => Tables [] [] []
              end).
  exists st. repeat (split; [vm_compute; reflexivity|]).
  vm_compute; reflexivity.
Qed.

(** ** Tie-break *)

(** The choice of the roots in an arithmetic with the order laws. *)
Lemma lawful_choice {F} {A : Arith F} {K} (HA : lawful A) (p q : list F)
    (keys : list K) :
  length q = length p + 1 -> length keys = length p ->
  exists st, optimal_bst p q keys = Ok st /\
    forall i j, 1 <= i -> i <= j -> j <= length p ->
      (forall r, i <= r <= j ->
         tget (e st) i (r - 1) = Ok (cell (e st) i (r - 1)) /\
         tget (e st) (r + 1) j = Ok (cell (e st) (r + 1) j) /\
         tget (w st) i j = Ok (cell (w st) i j)) /\
      ((tget (root st) i j = Ok None /\
        tget (e st) i j = Ok inf /\
        forall r, i <= r <= j -> fltb (custo st i j r) inf = false) \/
       (exists r, tget (root st) i j = Ok (Some (Z.of_nat r)) /\
          i <= r <= j /\
          tget (e st) i j = Ok (custo st i j r) /\
          fltb (custo st i j r) inf = true /\
          (forall r', i <= r' <= j ->
             fltb (custo st i j r') (custo st i j r) = false) /\
          (forall r', i <= r' < r ->
             fltb (custo st i j r) (custo st i j r') = true \/
             fltb (custo st i j r') inf = false))).
Proof.
  intros Hq Hk.
  destruct (optimal_bst_solved p q Hq keys Hk) as (st & Hrun & Hst).
  exists st. split; [done|]. intros i j Hi Hij Hj. split.
  - intros r Hr.
    rewrite !(tget_cell_e p q st Hst), (tget_cell_w p q st Hst) by lia.
    done.
  - destruct (chosen_cell p q st Hst HA i j Hi Hij Hj)
      as [(Hget & He & Hnone)|(r & Hr & Hget & He & Hlt & Hmin & Hleft)].
    + left. split; [done|]. split; [|done].
      rewrite (tget_cell_e p q st Hst) by lia. by rewrite He.
    + right. exists r. split; [done|]. split; [done|]. split; [|done].
      rewrite (tget_cell_e p q st Hst) by lia. by rewrite He.
Qed.

(** The choice of the roots in exact arithmetic. *)
Lemma exact_choice {K} (p q : list Q) (keys : list K) :
  length q = length p + 1 -> length keys = length p ->
  exists st, optimal_bst (rationals p) (rationals q) keys = Ok st /\
    forall i j, 1 <= i -> i <= j -> j <= length p ->
      (forall r, i <= r <= j ->
         tget (e st) i (r - 1) = Ok (Fin (cost_at st i (r - 1))) /\
         tget (e st) (r + 1) j = Ok (Fin (cost_at st (r + 1) j)) /\
         tget (w st) i j = Ok (Fin (weight_at st i j))) /\
      exists r, tget (root st) i j = Ok (Some (Z.of_nat r)) /\
        i <= r <= j /\
        (forall r', i <= r' <= j ->
           (candidate st i j r <= candidate st i j r')%Q) /\
        (forall r', i <= r' <= j ->
           (forall r'', i <= r'' <= j ->
              (candidate st i j r' <= candidate st i j r'')%Q) ->
           r <= r').
Proof.
  intros Hq Hk.
  destruct (optimal_bst_exact p q keys Hq Hk) as (st & Hrun & Hst).
  exists st. split; [done|]. intros i j Hi Hij Hj. split.
  + intros r Hr.
    rewrite !(cost_at_get p q st Hst), (weight_at_get p q st Hst) by lia.
    done.
  + destruct (chosen_root p q st Hst i j)
      as (r & Hr & Hget & _ & Hmin & Hleft);
      [lia..|].
    exists r. repeat split; try lia; try done.
    intros r' Hr' Hmin'. destruct (Nat.le_gt_cases r r') as [|Hlt]; [done|].
    specialize (Hleft r'). lapply Hleft; [|lia]. intros Hlt'.
    specialize (Hmin' r). lapply Hmin'; [lra | lia].
Qed.

(** C4 (as amended).  On an input of the right shape, in binary64, write
    [custo r] for the float [e[i][r-1] + e[r+1][j] + w[i][j]] that the
    script computes for the root [r] of a non-empty interval [i..j].  If no
    [custo r] is below [inf] then [root[i][j]] is [None] (and [e[i][j]] is
    [inf]).  Otherwise [root[i][j]] is a root [r] of [i..j] whose [custo] no
    candidate is strictly below, and strictly below the [custo] of every
    candidate to its left that is below [inf]: the leftmost of the
    cheapest, for the float comparison of the rounded sums.  For
    [p = [0.5, 0.5]] and [q = [0, 0, 0]] both candidates of [1..2] cost
    [1.5] and [root[1][2]] is 1.  In exact arithmetic, on rational inputs,
    [root[i][j]] is a candidate of least cost at or left of every other
    candidate of least cost. *)
Theorem leftmost_cheapest_root {K} (keys : list K) (k1 k2 : K) :
  (forall p q : list float,
     length q = length p + 1 -> length keys = length p ->
     exists st, optimal_bst p q keys = Ok st /\
       forall i j, 1 <= i -> i <= j -> j <= length p ->
         (forall r, i <= r <= j ->
            tget (e st) i (r - 1) = Ok (cell (e st) i (r - 1)) /\
            tget (e st) (r + 1) j = Ok (cell (e st) (r + 1) j) /\
            tget (w st) i j = Ok (cell (w st) i j)) /\
         ((tget (root st) i j = Ok None /\
           tget (e st) i j = Ok infinity /\
           forall r, i <= r <= j ->
             (custo st i j r <? infinity)%float = false) \/
          (exists r, tget (root st) i j = Ok (Some (Z.of_nat r)) /\
             i <= r <= j /\
             tget (e st) i j = Ok (custo st i j r) /\
             (custo st i j r <? infinity)%float = true /\
             (forall r', i <= r' <= j ->
                (custo st i j r' <? custo st i j r)%float = false) /\
             (forall r', i <= r' < r ->
                (custo st i j r <? custo st i j r')%float = true \/
                (custo st i j r' <? infinity)%float = false)))) /\
  (exists st,
     optimal_bst [0.5; 0.5]%float [0; 0; 0]%float [k1; k2] = Ok st /\
     custo st 1 2 1 = 1.5%float /\ custo st 1 2 2 = 1.5%float /\
     tget (root st) 1 2 = Ok (Some 1%Z)) /\
  (forall p q : list Q,
     length q = length p + 1 -> length keys = length p ->
     exists st, optimal_bst (rationals p) (rationals q) keys = Ok st /\
       forall i j, 1 <= i -> i <= j -> j <= length p ->
         (forall r, i <= r <= j ->
            tget (e st) i (r - 1) = Ok (Fin (cost_at st i (r - 1))) /\
            tget (e st) (r + 1) j = Ok (Fin (cost_at st (r + 1) j)) /\
            tget (w st) i j = Ok (Fin (weight_at st i j))) /\
         exists r, tget (root st) i j = Ok (Some (Z.of_nat r)) /\
           i <= r <= j /\
           (forall r', i <= r' <= j ->
              (candidate st i j r <= candidate st i j r')%Q) /\
           (forall r', i <= r' <= j ->
              (forall r'', i <= r'' <= j ->
                 (candidate st i j r' <= candidate st i j r'')%Q) ->
              r <= r')) /\
  (exists st,
     optimal_bst (rationals [1 # 2; 1 # 2]%Q) (rationals [0; 0; 0]%Q)
       [k1; k2] = Ok st /\
     (candidate st 1 2 1 == candidate st 1 2 2)%Q /\
     tget (root st) 1 2 = Ok (Some 1%Z)).
Proof.
  split; [|split; [|split]].
  - intros p q. apply (lawful_choice binary64_lawful).
  - eexists. split; [reflexivity|]. repeat split; reflexivity.
  - intros p q. apply exact_choice.
  - eexists. split; [reflexivity|]. split; reflexivity.
Qed.

Lemma leftmost_cheapest_root_witness :
  exists st,
    optimal_bst (map Binary64.lit example_p) (map Binary64.lit example_q)
      example_keys = Ok st /\
    tget (w st) 2 3 = Ok (cell (w st) 2 3) /\
    exists st',
      optimal_bst (rationals example_p) (rationals example_q) example_keys
        = Ok st' /\
      exists r, tget (root st') 2 3 = Ok (Some (Z.of_nat r)) /\
        (candidate st' 2 3 r <= candidate st' 2 3 2)%Q /\
        (candidate st' 2 3 r <= candidate st' 2 3 3)%Q.
Proof.
  destruct (leftmost_cheapest_root example_keys "Ana"%string "Bruno"%string)
    as (H64 & _ & Hex & _).
  destruct (H64 (map Binary64.lit example_p) (map Binary64.lit example_q))
    as (st & Hrun & Hcells); [reflexivity | reflexivity |].
  exists st. split; [exact Hrun|]. split.
  - destruct (Hcells 2 3) as [Hget _]; [simpl; lia..|].
    apply (Hget 2). lia.
  - destruct (Hex example_p example_q) as (st' & Hrun' & Hcells');
      [reflexivity | reflexivity |].
    exists st'. split; [exact Hrun'|].
    destruct (Hcells' 2 3) as [_ (r & Hget & _ & Hmin & _)]; [simpl; lia..|].
    exists r. split; [exact Hget|].
    split; apply Hmin; lia.
Defined.

(** C4 as stated fails.  On the two probabilities [2^1023] with gaps of
    probability 0, both candidates of [1..2] cost [inf], so the least cost
    is attained at [r = 1], and [root[1][2]] is [None].  And the least cost
    is that of the rounded sums: on [p = [0.25, 0.25]],
    [q = [2^-60, 0.25, 0]] both candidates are computed as [1.5] and
    [root[1][2]] is 1, although on the cells as stored
    [e[1][0] + e[2][2] + w[1][2]] exceeds [e[1][1] + e[3][2] + w[1][2]]
    when added without rounding. *)
Lemma root_not_least_candidate :
  (exists st,
     optimal_bst [0x1p1023; 0x1p1023]%float [0; 0; 0]%float [1; 2] = Ok st /\
     custo st 1 2 1 = infinity /\ custo st 1 2 2 = infinity /\
     tget (root st) 1 2 = Ok None) /\
  (exists st a b c d m,
     optimal_bst [0.25; 0.25]%float [0x1p-60; 0.25; 0]%float [1; 2] = Ok st /\
     custo st 1 2 1 = 1.5%float /\ custo st 1 2 2 = 1.5%float /\
     tget (root st) 1 2 = Ok (Some 1%Z) /\
     Binary64.value (cell (e st) 1 0) = Some a /\
     Binary64.value (cell (e st) 2 2) = Some b /\
     Binary64.value (cell (e st) 1 1) = Some c /\
     Binary64.value (cell (e st) 3 2) = Some d /\
     Binary64.value (cell (w st) 1 2) = Some m /\
     (c + d + m < a + b + m)%Q).
Proof.
  split.
  - pose (st := match optimal_bst [0x1p1023; 0x1p1023]%float
                        [0; 0; 0]%float [1; 2] with
                | Ok st => st
                | Raise _ => Tables [] [] []
                end).
    exists st. repeat (split; [vm_compute; reflexivity|]).
    vm_compute; reflexivity.
  - pose (st := match optimal_bst [0.25; 0.25]%float
                        [0x1p-60; 0.25; 0]%float [1; 2] with
                | Ok st => st
                | Raise _ => Tables [] [] []
                end).
    pose (v := fun x => match Binary64.value x with
                        | Some y => y
                        | None => 0%Q
                        end).
    exists st, (v (cell (e st) 1 0)), (v (cell (e st) 2 2)),
      (v (cell (e st) 1 1)), (v (cell (e st) 3 2)), (v (cell (w st) 1 2)).
    repeat (split; [vm_compute; reflexivity|]).
    vm_compute; reflexivity.
Qed.

(** ** Validation *)

Lemma fold_rationals (l : list Q) a :
  fold_left Exact.add (rationals l) (Fin a) = Fin (fold_left Qplus l a).
Proof.
  revert a. induction l as [|x l IH]; intros a; [done|]. apply IH.
Qed.

Lemma sum_rationals (l : list Q) : sum (rationals l) = Fin (Qsum l).
Proof. apply fold_rationals. Qed.

Lemma existsb_rationals (f : exact -> bool) (l : list Q) :
  existsb f (rationals l) = existsb (fun x => f (Fin x)) l.
Proof.
  induction l as [|x l IH]; [done|]. simpl. by rewrite IH.
Qed.

(** [validate_probabilities] on rationals. *)
Lemma validate_exact (p q : list Q) :
  validate_probabilities (rationals p) (rationals q) =
  if negb (length q =? length p + 1) then Raise (ValueError MsgQLength)
  else if existsb (fun x => Qltb x 0) (p ++ q) then
    Raise (ValueError MsgNegative)
  else if Qltb (1 # 1000000) (Qabs (Qsum p + Qsum q - 1)) then
    Raise (ValueError MsgSum)
  else Ok tt.
Proof.
  unfold validate_probabilities.
  rewrite !length_rationals, !sum_rationals.
  unfold rationals at 1 2. rewrite <- map_app.
  fold (rationals (p ++ q)). rewrite existsb_rationals. reflexivity.
Qed.




(** ** Weights *)

Lemma Qsum_snoc l x : Qsum (l ++ [x]) = (Qsum l + x)%Q.
Proof. unfold Qsum. by rewrite fold_left_app. Qed.

Lemma slice_snoc (l : list Q) a b :
  a <= b -> b < length l -> slice l a (b + 1) = slice l a b ++ [nth b l 0%Q].
Proof.
  intros Hab Hb. unfold slice.
  replace (b + 1 - a) with (S (b - a)) by lia.
  apply take_S_r. rewrite lookup_drop.
  replace (a + (b - a)) with b by lia.
  destruct (lookup_lt_is_Some_2 l b Hb) as [x Hx]. rewrite Hx.
  f_equal. symmetry. by apply nth_lookup_Some.
Qed.

Lemma slice_empty {A} (l : list A) a : slice l a a = [].
Proof. unfold slice. by rewrite Nat.sub_diag. Qed.

Lemma weight_at_closed p q st :
  length q = length p + 1 -> solved (rationals p) (rationals q) st ->
  forall len i j, 1 <= i -> j + 1 = i + len -> j <= length p ->
    (weight_at st i j == interval_weight p q i j)%Q.
Proof.
  intros Hq Hst. induction len as [|len IH]; intros i j Hi Hlen Hj.
  - replace j with (i - 1) by lia.
    rewrite (weight_at_base p q st Hst) by lia. unfold interval_weight.
    rewrite slice_snoc, !slice_empty by lia. unfold Qsum. simpl. lra.
  - rewrite (weight_at_step p q st Hst) by lia.
    rewrite (IH i (j - 1)) by lia. unfold interval_weight.
    replace (j - 1 + 1) with j by lia.
    replace (slice p (i - 1) j) with (slice p (i - 1) (j - 1 + 1))
      by (f_equal; lia).
    rewrite !slice_snoc, !Qsum_snoc by lia. lra.
Qed.

(** The weights in exact arithmetic. *)
Lemma exact_weights {K} (p q : list Q) (keys : list K) :
  length q = length p + 1 -> length keys = length p ->
  exists st, optimal_bst (rationals p) (rationals q) keys = Ok st /\
    forall i j, 1 <= i -> i <= j + 1 -> j <= length p ->
      exists x, tget (w st) i j = Ok (Fin x) /\
        (x == interval_weight p q i j)%Q.
Proof.
  intros Hq Hk.
  destruct (optimal_bst_exact p q keys Hq Hk) as (st & Hrun & Hst).
  exists st. split; [done|]. intros i j Hi Hij Hj.
  exists (weight_at st i j). split.
  - apply (weight_at_get p q st Hst); lia.
  - apply (weight_at_closed p q st Hq Hst (j + 1 - i)); lia.
Qed.

(** The weights in any arithmetic. *)
Lemma running_weights {F} {A : Arith F} {K} (p q : list F) (keys : list K) :
  length q = length p + 1 -> length keys = length p ->
  exists st, optimal_bst p q keys = Ok st /\
    forall i j, 1 <= i -> i <= j + 1 -> j <= length p ->
      tget (w st) i j = Ok (running_weight p q i j).
Proof.
  intros Hq Hk.
  destruct (optimal_bst_solved p q Hq keys Hk) as (st & Hrun & Hst).
  exists st. split; [done|]. intros i j Hi Hij Hj.
  rewrite (tget_cell_w p q st Hst) by lia. f_equal.
  apply (cell_weight_running p q st Hst (j + 1 - i)); lia.
Qed.

(** C5 (as amended).  On an input of the right shape, every weight cell
    [w[i][j]] of an interval of [1..n], empty ([j = i-1]) or not, holds, in
    binary64, the float sum [q[i-1] + p[i-1] + q[i] + ... + p[j-1] + q[j]]
    added from left to right, each addition rounded; in exact arithmetic,
    on rational inputs, it holds a finite number equal to the closed form
    [sum(p[i..j]) + sum(q[i-1..j])] (keys counted from 1, gaps from 0). *)
Theorem weight_closed_form {K} (keys : list K) :
  (forall p q : list float,
     length q = length p + 1 -> length keys = length p ->
     exists st, optimal_bst p q keys = Ok st /\
       forall i j, 1 <= i -> i <= j + 1 -> j <= length p ->
         tget (w st) i j = Ok (running_weight p q i j)) /\
  (forall p q : list Q,
     length q = length p + 1 -> length keys = length p ->
     exists st, optimal_bst (rationals p) (rationals q) keys = Ok st /\
       forall i j, 1 <= i -> i <= j + 1 -> j <= length p ->
         exists x, tget (w st) i j = Ok (Fin x) /\
           (x == interval_weight p q i j)%Q).
Proof.
  split; intros p q; [apply running_weights | apply exact_weights].
Qed.

Lemma weight_closed_form_witness :
  (exists st,
     optimal_bst (map Binary64.lit example_p) (map Binary64.lit example_q)
       example_keys = Ok st /\
     tget (w st) 2 3 =
       Ok (running_weight (map Binary64.lit example_p)
             (map Binary64.lit example_q) 2 3)) /\
  exists st,
    optimal_bst (rationals example_p) (rationals example_q) example_keys
      = Ok st /\
    exists x, tget (w st) 2 3 = Ok (Fin x) /\
      (x == interval_weight example_p example_q 2 3)%Q.
Proof.
  destruct (weight_closed_form example_keys) as [H64 Hex]. split.
  - destruct (H64 (map Binary64.lit example_p) (map Binary64.lit example_q))
      as (st & Hrun & Hw); [reflexivity | reflexivity |].
    exists st. split; [exact Hrun|]. apply Hw; simpl; lia.
  - destruct (Hex example_p example_q) as (st & Hrun & Hw);
      [reflexivity | reflexivity |].
    exists st. split; [exact Hrun|]. apply Hw; simpl; lia.
Defined.

(** C5 as stated fails in floating point: on [p = [1e16, 0]],
    [q = [1, 1, 0]] the recurrence gives [w[1][2] = 1e16] (each [+ 1] is
    rounded away), while [sum(p[0:2]) + sum(q[0:3])] is [1e16 + 2] with
    either builtin [sum]: the two
    differ by 2, not by less than [1e-9]. *)
Lemma weight_off_closed_form :
  exists st,
    optimal_bst [1e16; 0]%float [1; 1; 0]%float [1; 2] = Ok st /\
    tget (w st) 1 2 = Ok 1e16%float /\
    (Binary64.sum_left (slice [1e16; 0] (1 - 1) 2)
     + Binary64.sum_left (slice [1; 1; 0] (1 - 1) (2 + 1))
     = 10000000000000002)%float /\
    (Binary64.sum_compensated (slice [1e16; 0] (1 - 1) 2)
     + Binary64.sum_compensated (slice [1; 1; 0] (1 - 1) (2 + 1))
     = 10000000000000002)%float /\
    (Binary64.lit (1 # 1000000000) <? abs (1e16 - 10000000000000002))%float
      = true.
Proof.
  pose (st := match optimal_bst [1e16; 0]%float [1; 1; 0]%float [1; 2] with
              | Ok st => st
              | Raise _ => Tables [] [] []
              end).
  exists st. repeat (split; [vm_compute; reflexivity|]).
  vm_compute; reflexivity.
Qed.

(** ** Costs dominate weights *)

Lemma cells_nonneg p q st :
  length q = length p + 1 -> solved (rationals p) (rationals q) st ->
  (forall x, In x (p ++ q) -> (0 <= x)%Q) ->
  forall len i j, 1 <= i -> j + 1 = i + len -> j <= length p ->
    (0 <= cost_at st i j)%Q /\ (0 <= weight_at st i j)%Q.
Proof.
  intros Hq Hst Hpos.
  assert (forall k, k < length p -> (0 <= nth k p 0)%Q) as Hp.
  { intros k Hk. apply Hpos, in_or_app. left. by apply nth_In. }
  assert (forall k, k < length q -> (0 <= nth k q 0)%Q) as Hq'.
  { intros k Hk. apply Hpos, in_or_app. right. by apply nth_In. }
  induction len as [len IH] using lt_wf_ind. intros i j Hi Hlen Hj.
  destruct (decide (len = 0)) as [->|Hne].
  - replace j with (i - 1) by lia.
    rewrite (cost_at_base p q st Hst), (weight_at_base p q st Hst) by lia.
    split; apply Hq'; lia.
  - assert (0 <= weight_at st i j)%Q as Hw.
    { rewrite (weight_at_step p q st Hst) by lia.
      destruct (IH (len - 1)) with (i := i) (j := j - 1) as [_ H]; [lia..|].
      specialize (Hp (j - 1)). specialize (Hq' j).
      lapply Hp; [|lia]. lapply Hq'; [|lia]. lra. }
    split; [|done].
    destruct (chosen_root p q st Hst i j) as (r & Hr & _ & -> & _); [lia..|].
    destruct (IH (r - i)) with (i := i) (j := r - 1) as [Ha _]; [lia..|].
    destruct (IH (j - r)) with (i := r + 1) (j := j) as [Hb _]; [lia..|].
    unfold candidate. lra.
Qed.



Lemma example_nonneg x : In x (example_p ++ example_q) -> (0 <= x)%Q.
Proof.
  intros Hx. apply Qle_bool_iff. simpl in Hx.
  repeat (destruct Hx as [<-|Hx]; [reflexivity|]). destruct Hx.
Defined.


(** ** Scaling *)

Lemma nth_scaled c (l : list Q) k :
  k < length l -> nth k (map (Qmult c) l) 0%Q = (c * nth k l 0)%Q.
Proof.
  intros Hk. rewrite nth_indep with (d' := (c * 0)%Q)
    by (by rewrite length_map).
  apply map_nth.
Qed.

Lemma cells_scaled c p q st st' :
  length q = length p + 1 ->
  solved (rationals p) (rationals q) st ->
  solved (rationals (map (Qmult c) p)) (rationals (map (Qmult c) q)) st' ->
  (0 < c)%Q ->
  forall len i j, 1 <= i -> j + 1 = i + len -> j <= length p ->
    (cost_at st' i j == c * cost_at st i j)%Q /\
    (weight_at st' i j == c * weight_at st i j)%Q /\
    (1 <= len -> tget (root st') i j = tget (root st) i j).
Proof.
  intros Hq Hst Hst' Hc.
  assert (length (map (Qmult c) p) = length p) as Hlp by apply length_map.
  induction len as [len IH] using lt_wf_ind. intros i j Hi Hlen Hj.
  destruct (decide (len = 0)) as [->|Hne].
  - replace j with (i - 1) by lia.
    rewrite (cost_at_base _ _ st' Hst'), (weight_at_base _ _ st' Hst')
      by (rewrite Hlp; lia).
    rewrite (cost_at_base p q st Hst), (weight_at_base p q st Hst) by lia.
    rewrite nth_scaled by lia. repeat split; try lra. lia.
  - assert (weight_at st' i j == c * weight_at st i j)%Q as Hw.
    { rewrite (weight_at_step _ _ st' Hst') by (rewrite ?Hlp; lia).
      rewrite (weight_at_step p q st Hst) by lia.
      destruct (IH (len - 1)) with (i := i) (j := j - 1) as (_ & H & _);
        [lia..|].
      rewrite !nth_scaled by lia. rewrite H. ring. }
    assert (forall r, i <= r <= j ->
              (candidate st' i j r == c * candidate st i j r)%Q) as Hcand.
    { intros r Hr. unfold candidate.
      destruct (IH (r - i)) with (i := i) (j := r - 1) as (Ha & _); [lia..|].
      destruct (IH (j - r)) with (i := r + 1) (j := j) as (Hb & _); [lia..|].
      rewrite Ha, Hb, Hw. ring. }
    destruct (chosen_root p q st Hst i j)
      as (r & Hr & Hget & He & Hmin & Hleft); [lia..|].
    destruct (chosen_root _ _ st' Hst' i j)
      as (r' & Hr' & Hget' & He' & Hmin' & Hleft'); [rewrite ?Hlp; lia..|].
    assert (r' = r) as ->.
    { destruct (Nat.lt_trichotomy r' r) as [Hlt|[Heq|Hgt]]; [|done|].
      - specialize (Hleft r'). lapply Hleft; [|lia]. intros H1.
        specialize (Hmin' r). lapply Hmin'; [|lia]. intros H2.
        rewrite !Hcand in H2 by lia. nra.
      - specialize (Hleft' r). lapply Hleft'; [|lia]. intros H1.
        specialize (Hmin r'). lapply Hmin; [|lia]. intros H2.
        rewrite !Hcand in H1 by lia. nra. }
    split; [|split; [done|]].
    + rewrite He, He'. by apply Hcand.
    + intros _. by rewrite Hget, Hget'.
Qed.

Lemma scaled_rationals c (l : list Q) :
  map (fmul (Fin c)) (rationals l) = rationals (map (Qmult c) l).
Proof. unfold rationals. by rewrite !map_map. Qed.

(** C9 (as amended).  In exact arithmetic, on rational inputs of the right
    shape and for every constant [c > 0], [optimal_bst] run on [c*p],
    [c*q] returns a root table with the same entry [root[i][j]] as on [p],
    [q], for every non-empty interval. *)
Theorem roots_scale_invariant {K} (c : Q) (p q : list Q) (keys : list K) :
  length q = length p + 1 -> length keys = length p -> (0 < c)%Q ->
  exists st st',
    optimal_bst (rationals p) (rationals q) keys = Ok st /\
    optimal_bst (map (fmul (Fin c)) (rationals p))
      (map (fmul (Fin c)) (rationals q)) keys = Ok st' /\
    forall i j, 1 <= i -> i <= j -> j <= length p ->
      tget (root st') i j = tget (root st) i j.
Proof.
  intros Hq Hk Hc. rewrite !scaled_rationals.
  destruct (optimal_bst_exact p q keys Hq Hk) as (st & Hrun & Hst).
  destruct (optimal_bst_exact (map (Qmult c) p) (map (Qmult c) q) keys)
    as (st' & Hrun' & Hst').
  { rewrite !length_map. done. }
  { by rewrite length_map. }
  exists st, st'. split; [done|]. split; [done|].
  intros i j Hi Hij Hj.
  apply (cells_scaled c p q st st' Hq Hst Hst' Hc (j + 1 - i) i j); lia.
Qed.

Lemma roots_scale_invariant_witness :
  length example_q = length example_p + 1 /\
  length example_keys = length example_p /\
  (0 < 10 # 11)%Q /\
  exists st st',
    optimal_bst (rationals example_p) (rationals example_q)
      example_keys = Ok st /\
    optimal_bst (map (fmul (Fin (10 # 11))) (rationals example_p))
      (map (fmul (Fin (10 # 11))) (rationals example_q)) example_keys
      = Ok st' /\
    tget (root st') 1 4 = tget (root st) 1 4.
Proof.
  split; [reflexivity|]. split; [reflexivity|]. split; [reflexivity|].
  destruct (roots_scale_invariant (10 # 11) example_p example_q example_keys)
    as (st & st' & Hrun & Hrun' & Hroots);
    [reflexivity | reflexivity | reflexivity |].
  exists st, st'. split; [exact Hrun|]. split; [exact Hrun'|].
  apply Hroots; simpl; lia.
Defined.

(** C9 as stated fails in binary64: [p = [0.3, 0.35]],
    [q = [0.05, 0.3, 0.0]] pass [validate_probabilities] (with either
    builtin [sum]), and
    [optimal_bst] returns [root[1][2] = 2] on them and [root[1][2] = 1] on
    the same lists multiplied by [10.0] (the two candidate costs round to
    a tie only after scaling). *)
Lemma roots_change_with_scale :
  validate_probabilities (S := Binary64.left_to_right)
    (map Binary64.lit [3 # 10; 35 # 100]%Q)
    (map Binary64.lit [5 # 100; 3 # 10; 0]%Q) = Ok tt /\
  validate_probabilities (S := Binary64.compensated)
    (map Binary64.lit [3 # 10; 35 # 100]%Q)
    (map Binary64.lit [5 # 100; 3 # 10; 0]%Q) = Ok tt /\
  exists st st',
    optimal_bst (map Binary64.lit [3 # 10; 35 # 100]%Q)
      (map Binary64.lit [5 # 100; 3 # 10; 0]%Q) [1; 2] = Ok st /\
    optimal_bst
      (map (PrimFloat.mul 10) (map Binary64.lit [3 # 10; 35 # 100]%Q))
      (map (PrimFloat.mul 10) (map Binary64.lit [5 # 100; 3 # 10; 0]%Q))
      [1; 2] = Ok st' /\
    tget (root st) 1 2 = Ok (Some 2%Z) /\
    tget (root st') 1 2 = Ok (Some 1%Z) /\
    map (PrimFloat.mul 10) (map Binary64.lit [3 # 10; 35 # 100]%Q)
      = [3; 3.5]%float /\
    map (PrimFloat.mul 10) (map Binary64.lit [5 # 100; 3 # 10; 0]%Q)
      = [0.5; 3; 0]%float.
Proof.
  split; [vm_compute; reflexivity|]. split; [vm_compute; reflexivity|].
  pose (st := match optimal_bst (map Binary64.lit [3 # 10; 35 # 100]%Q)
                      (map Binary64.lit [5 # 100; 3 # 10; 0]%Q) [1; 2] with
              | Ok st => st
              | Raise _ => Tables [] [] []
              end).
  pose (st' := match optimal_bst
                       (map (PrimFloat.mul 10)
                          (map Binary64.lit [3 # 10; 35 # 100]%Q))
                       (map (PrimFloat.mul 10)
                          (map Binary64.lit [5 # 100; 3 # 10; 0]%Q))
                       [1; 2] with
               | Ok st => st
               | Raise _ => Tables [] [] []
               end).
  exists st, st'. repeat (split; [vm_compute; reflexivity|]).
  vm_compute; reflexivity.
Qed.

(** ** Optimality *)

Lemma level_S d : (level (S d) == level d + 1)%Q.
Proof.
  unfold level. rewrite Nat2Z.inj_succ, <- Z.add_1_r, inject_Z_plus.
  reflexivity.
Qed.

Lemma level_0 : (level 0 == 0)%Q.
Proof. reflexivity. Qed.

Section Optimality.
Variables p q : list Q.
Variable st : tables exact.
Hypothesis Hst : solved (rationals p) (rationals q) st.

Lemma weight_at_split i k : forall len j,
  1 <= i -> i <= k -> j = k + len -> j <= length p ->
  (weight_at st i j ==
     weight_at st i (k - 1) + nth (k - 1) p 0 + weight_at st (k + 1) j)%Q.
Proof.
  induction len as [|len IH]; intros j Hi Hik Hlen Hj.
  - replace j with k by lia.
    rewrite (weight_at_step p q st Hst i k) by lia.
    pose proof (weight_at_base p q st Hst (k + 1)) as Hb.
    replace (k + 1 - 1) with k in Hb by lia. rewrite Hb by lia. lra.
  - rewrite (weight_at_step p q st Hst i j) by lia.
    rewrite (weight_at_step p q st Hst (k + 1) j) by lia.
    rewrite (IH (j - 1)) by lia. lra.
Qed.

(** Sinking a tree by [d] levels adds [d] times the weight of its
    interval. *)
Lemma search_cost_level u t : forall i j d,
  bst i j t -> 1 <= i -> j <= length p ->
  (search_cost u p q d i t ==
     search_cost u p q 0 i t + level d * weight_at st i j)%Q.
Proof.
  induction t as [|lt IHl k rt IHr]; intros i j d Hbst Hi Hj; simpl in *.
  - replace j with (i - 1) by lia.
    rewrite (weight_at_base p q st Hst) by lia. rewrite level_0. ring.
  - destruct Hbst as (Hk & Hl & Hr).
    rewrite (IHl i (k - 1) (S d)), (IHl i (k - 1) 1) by (done || lia).
    rewrite (IHr (k + 1) j (S d)), (IHr (k + 1) j 1) by (done || lia).
    rewrite (weight_at_split i k (j - k) j) by lia.
    rewrite !level_S, level_0. ring.
Qed.

Lemma search_cost_root u lt k rt i j :
  bst i j (Key lt k rt) -> 1 <= i -> j <= length p ->
  (search_cost u p q 0 i (Key lt k rt) ==
     search_cost u p q 0 i lt + search_cost u p q 0 (k + 1) rt
     + weight_at st i j)%Q.
Proof.
  intros (Hk & Hl & Hr) Hi Hj. simpl.
  rewrite (search_cost_level u lt i (k - 1) 1) by (done || lia).
  rewrite (search_cost_level u rt (k + 1) j 1) by (done || lia).
  rewrite (weight_at_split i k (j - k) j) by lia.
  rewrite !level_S, level_0. ring.
Qed.

Lemma cost_at_lower t : forall i j,
  bst i j t -> 1 <= i -> j <= length p ->
  (cost_at st i j <= search_cost 1 p q 0 i t)%Q.
Proof.
  induction t as [|lt IHl k rt IHr]; intros i j Hbst Hi Hj.
  - simpl in *. replace j with (i - 1) by lia.
    rewrite (cost_at_base p q st Hst) by lia. rewrite level_0. lra.
  - rewrite (search_cost_root 1 lt k rt i j) by done.
    destruct Hbst as (Hk & Hl & Hr).
    destruct (chosen_root p q st Hst i j) as (r & _ & _ & -> & Hmin & _);
      [lia..|].
    specialize (Hmin k). lapply Hmin; [|lia]. unfold candidate at 2.
    specialize (IHl i (k - 1)). specialize (IHr (k + 1) j).
    lapply IHl; [|done]. lapply IHr; [|done].
    intros H1 H2 H3. lapply H1; [|lia]. lapply H2; [|lia].
    intros H4 H5. lapply H4; [|lia]. lapply H5; [|lia]. lra.
Qed.

Lemma cost_at_attained len : forall i j,
  1 <= i -> j + 1 = i + len -> j <= length p ->
  exists t, bst i j t /\ (search_cost 1 p q 0 i t == cost_at st i j)%Q.
Proof.
  induction len as [len IH] using lt_wf_ind. intros i j Hi Hlen Hj.
  destruct (decide (len = 0)) as [->|Hne].
  - exists Gap. split; [simpl; lia|]. simpl.
    replace j with (i - 1) by lia.
    rewrite (cost_at_base p q st Hst) by lia. rewrite level_0. ring.
  - destruct (chosen_root p q st Hst i j) as (r & Hr & _ & -> & _); [lia..|].
    destruct (IH (r - i)) with (i := i) (j := r - 1) as (lt & Hl & Hcl);
      [lia..|].
    destruct (IH (j - r)) with (i := r + 1) (j := j) as (rt & Hrt & Hcr);
      [lia..|].
    exists (Key lt r rt).
    assert (bst i j (Key lt r rt)) as Hbst by (simpl; auto).
    split; [done|].
    rewrite (search_cost_root 1 lt r rt i j) by (done || lia).
    rewrite Hcl, Hcr. reflexivity.
Qed.
End Optimality.

(** The cost [e[1][n]] in exact arithmetic. *)
Lemma exact_least_cost {K} (p q : list Q) (keys : list K) :
  length q = length p + 1 -> length keys = length p ->
  exists st v, optimal_bst (rationals p) (rationals q) keys = Ok st /\
    tget (e st) 1 (length p) = Ok (Fin v) /\
    least_cost (search_cost 1 p q 0 1) 1 (length p) v.
Proof.
  intros Hq Hk.
  destruct (optimal_bst_exact p q keys Hq Hk) as (st & Hrun & Hst).
  exists st, (cost_at st 1 (length p)). split; [done|]. split.
  - apply (cost_at_get p q st Hst); lia.
  - split.
    + apply (cost_at_attained p q st Hst (length p)); lia.
    + intros t Ht. apply (cost_at_lower p q st Hst); [done | lia..].
Qed.

(** C1 (as amended).  In exact arithmetic, on rational inputs of the right
    shape, [e[1][n]] is finite and is the least, over the binary search
    trees on the keys [1..n], of the expected cost that charges a key at
    depth [d] with [p * (d + 1)] and a gap at depth [d] with [q * (d + 1)].
    In binary64, on an input of the right shape, [e[1][n]] is below [inf]
    only if the root table describes a search tree on [1..n], and it is then
    the cost of that tree as the recurrence adds it up, each addition
    rounded; this rounded sum need not be the least cost: on
    [p = [0.3, 0.35]], [q = [0.05, 0.3, 0.0]] the float [e[1][2]] is below
    the least cost of the search trees for these doubles. *)
Theorem least_expected_cost {K} (keys : list K) :
  (forall p q : list Q,
     length q = length p + 1 -> length keys = length p ->
     exists st v, optimal_bst (rationals p) (rationals q) keys = Ok st /\
       tget (e st) 1 (length p) = Ok (Fin v) /\
       least_cost (search_cost 1 p q 0 1) 1 (length p) v) /\
  (forall p q : list float,
     length q = length p + 1 -> length keys = length p ->
     exists st, optimal_bst p q keys = Ok st /\
       (costed st 1 (length p) ->
        bst 1 (length p) (tree_of (length p + 1) (root st) 1 (length p)) /\
        tget (e st) 1 (length p) =
          Ok (tree_custo p q 1 (length p)
                (tree_of (length p + 1) (root st) 1 (length p))))) /\
  (exists st pv qv v m,
     optimal_bst (map Binary64.lit [3 # 10; 35 # 100]%Q)
       (map Binary64.lit [5 # 100; 3 # 10; 0]%Q) [1; 2] = Ok st /\
     map Binary64.value (map Binary64.lit [3 # 10; 35 # 100]%Q)
       = map Some pv /\
     map Binary64.value (map Binary64.lit [5 # 100; 3 # 10; 0]%Q)
       = map Some qv /\
     tget (e st) 1 2 = Ok (cell (e st) 1 2) /\
     Binary64.value (cell (e st) 1 2) = Some v /\
     least_cost (search_cost 1 pv qv 0 1) 1 2 m /\
     (v < m)%Q).
Proof.
  split; [intros p q; apply exact_least_cost|]. split.
  { intros p q Hq Hk.
    destruct (optimal_bst_solved p q Hq keys Hk) as (st & Hrun & Hst).
    exists st. split; [done|]. intros Hc. split.
    - apply (costed_tree binary64_lawful p q st keys Hst Hk);
        [lia.. | done].
    - rewrite (tget_cell_e p q st Hst) by lia. f_equal.
      apply (costed_tree_custo binary64_lawful p q st keys Hst Hk);
        [lia.. | done]. }
  pose (st := match optimal_bst (map Binary64.lit [3 # 10; 35 # 100]%Q)
                      (map Binary64.lit [5 # 100; 3 # 10; 0]%Q) [1; 2] with
              | Ok st => st
              | Raise _ => Tables [] [] []
              end).
  pose (val := fun x => match Binary64.value x with
                        | Some y => y
                        | None => 0%Q
                        end).
  pose (pv := map val (map Binary64.lit [3 # 10; 35 # 100]%Q)).
  pose (qv := map val (map Binary64.lit [5 # 100; 3 # 10; 0]%Q)).
  destruct (exact_least_cost pv qv [1; 2]) as (st' & m & Hrun & Hget & Hm);
    [reflexivity | reflexivity |].
  exists st, pv, qv, (val (cell (e st) 1 2)), m.
  do 5 (split; [vm_compute; reflexivity|]).
  split; [exact Hm|].
  vm_compute in Hrun. injection Hrun as <-.
  vm_compute in Hget. injection Hget as <-.
  vm_compute. reflexivity.
Qed.

Lemma least_expected_cost_witness :
  length example_q = length example_p + 1 /\
  length example_keys = length example_p /\
  exists st v,
    optimal_bst (rationals example_p) (rationals example_q) example_keys
      = Ok st /\
    tget (e st) 1 (length example_p) = Ok (Fin v) /\
    least_cost (search_cost 1 example_p example_q 0 1) 1
      (length example_p) v.
Proof.
  split; [reflexivity|]. split; [reflexivity|].
  destruct (least_expected_cost example_keys) as [Hex _].
  apply (Hex example_p example_q); reflexivity.
Defined.

(** C1 as stated fails: with one key of probability 1/2 between two gaps of
    probability 1/4 each (a valid input with no negative entry, and doubles
    that the script adds without rounding), the only tree costs
    [1/2 * 1 + 1/4 * 1 + 1/4 * 1 = 1] when a gap at depth [d] is charged
    [q * d], while [e[1][1]] is [3/2], in exact arithmetic and in
    binary64. *)
Lemma gap_depth_cost_refuted :
  length [1 # 4; 1 # 4]%Q = length [1 # 2]%Q + 1 /\
  (forall x, In x ([1 # 2] ++ [1 # 4; 1 # 4])%Q -> (0 <= x)%Q) /\
  ~ (forall st v,
       optimal_bst (rationals [1 # 2]%Q) (rationals [1 # 4; 1 # 4]%Q) [tt]
         = Ok st ->
       tget (e st) 1 1 = Ok (Fin v) ->
       least_cost (search_cost 0 [1 # 2]%Q [1 # 4; 1 # 4]%Q 0 1) 1 1 v) /\
  (forall t, bst 1 1 t ->
     t = Key Gap 1 Gap /\
     (search_cost 0 [1 # 2]%Q [1 # 4; 1 # 4]%Q 0 1 t == 1)%Q) /\
  (exists st,
     optimal_bst [0.5]%float [0.25; 0.25]%float [tt] = Ok st /\
     tget (e st) 1 1 = Ok 1.5%float /\
     Binary64.value 1.5 = Some (3 # 2)%Q /\
     map Binary64.value ([0.5] ++ [0.25; 0.25])%float
       = map Some ([1 # 2] ++ [1 # 4; 1 # 4])%Q).
Proof.
  split; [reflexivity|]. split; [|split; [|split]].
  - intros x Hx. apply Qle_bool_iff. simpl in Hx.
    repeat (destruct Hx as [<-|Hx]; [reflexivity|]). destruct Hx.
  - intros H.
    destruct (H _ _ eq_refl eq_refl) as [_ Hlow].
    specialize (Hlow (Key Gap 1 Gap)).
    assert (bst 1 1 (Key Gap 1 Gap)) as Hbst by (simpl; lia).
    apply Hlow in Hbst. vm_compute in Hbst. by apply Hbst.
  - intros [|lt k rt]; cbn [bst]; [lia|]. intros (Hk & Hl & Hr).
    assert (k = 1) as -> by lia.
    destruct lt as [|? ? ?]; cbn [bst] in Hl; [|lia].
    destruct rt as [|? ? ?]; cbn [bst] in Hr; [|lia].
    split; reflexivity.
  - eexists. split; [reflexivity|]. repeat split; vm_compute; reflexivity.
Qed.

(** ** The example of main *)

(** C2 (as amended).  The example probabilities sum to 11/10 (in binary64,
    to the double nearest to 1.1), so [main] rescales them by 10/11 and
    rounds to 10 decimals; the run then reports the cost
    [e[1][4] = 2.0363636369] (in binary64, the double nearest to it),
    "Bruno" as the root of [1..4] ([root[1][4] = 2]), and the in-order
    traversal ["Ana", "Bruno", "Carla", "Diego"], in exact arithmetic and
    in binary64 (with either builtin [sum]) alike. *)
Theorem example_run :
  (exists x,
     fadd (sum (rationals example_p)) (sum (rationals example_q)) = Fin x /\
     (x == 11 # 10)%Q) /\
  (exists pq st,
     normalise (rationals example_p) (rationals example_q) = Ok pq /\
     validate_probabilities (fst pq) (snd pq) = Ok tt /\
     optimal_bst (fst pq) (snd pq) example_keys = Ok st /\
     tget (root st) 1 4 = Ok (Some 2%Z) /\
     index example_keys (2 - 1) = Ok "Bruno"%string) /\
  (exists rep x,
     main (F := exact) = Ok rep /\
     cost_dp rep = Fin x /\ (x == 20363636369 # 10000000000)%Q /\
     last (chosen rep) =
       Some (1, 4, example_keys, "Bruno"%string) /\
     pre rep = ["Bruno"; "Ana"; "Carla"; "Diego"]%string /\
     ino rep = example_keys /\
     post rep = ["Ana"; "Diego"; "Carla"; "Bruno"]%string) /\
  (forall S : Summation float,
     In S [Binary64.left_to_right; Binary64.compensated] ->
     (sum (map Binary64.lit example_p) + sum (map Binary64.lit example_q)
      = Binary64.lit (11 # 10))%float /\
     (exists pq st,
        normalise (map Binary64.lit example_p) (map Binary64.lit example_q)
          = Ok pq /\
        validate_probabilities (fst pq) (snd pq) = Ok tt /\
        optimal_bst (fst pq) (snd pq) example_keys = Ok st /\
        tget (root st) 1 4 = Ok (Some 2%Z)) /\
     (exists rep,
        main (F := float) = Ok rep /\
        cost_dp rep = Binary64.lit (20363636369 # 10000000000) /\
        last (chosen rep) =
          Some (1, 4, example_keys, "Bruno"%string) /\
        pre rep = ["Bruno"; "Ana"; "Carla"; "Diego"]%string /\
        ino rep = example_keys /\
        post rep = ["Ana"; "Diego"; "Carla"; "Bruno"]%string)).
Proof.
  split; [|split; [|split]].
  - eexists. split; [vm_compute; reflexivity | reflexivity].
  - pose (pq := match normalise (rationals example_p) (rationals example_q)
                with
                | Ok pq => pq
                | Raise _ => ([], [])
                end).
    pose (st := match optimal_bst (fst pq) (snd pq) example_keys with
                | Ok st => st
                | Raise _ => Tables [] [] []
                end).
    exists pq, st.
    repeat (split; [vm_compute; reflexivity|]). vm_compute; reflexivity.
  - pose (rep := match main (F := exact) with
                 | Ok rep => rep
                 | Raise _ => Report Inf [] [] [] []
                 end).
    pose (x := match cost_dp rep with Fin x => x | _ => 0%Q end).
    exists rep, x.
    repeat (split; [vm_compute; reflexivity|]). vm_compute; reflexivity.
  - intros S HS.
    pose (pq := match normalise (map Binary64.lit example_p)
                        (map Binary64.lit example_q) with
                | Ok pq => pq
                | Raise _ => ([], [])
                end).
    pose (st := match optimal_bst (fst pq) (snd pq) example_keys with
                | Ok st => st
                | Raise _ => Tables [] [] []
                end).
    pose (rep := match main (F := float) with
                 | Ok rep => rep
                 | Raise _ => Report infinity [] [] [] []
                 end).
    destruct HS as [<-|[<-|[]]];
      (split; [vm_compute; reflexivity|]);
      (split; [exists pq, st | exists rep]);
      repeat (split; [vm_compute; reflexivity|]); vm_compute; reflexivity.
Qed.

(** C2 as stated fails: the example does not sum to 1, and the tables
    built from it, rescaled as [main] does or taken as they are, have a cost
    [e[1][4]] further than 1/2 from 1.34 and a root [root[1][4]] other than
    1 ("Ana"), in exact arithmetic and in binary64 (with either builtin
    [sum]) alike. *)
Lemma example_not_as_claimed :
  (forall x,
     fadd (sum (rationals example_p)) (sum (rationals example_q)) = Fin x ->
     ~ (x == 1)%Q) /\
  (forall pq st x,
     normalise (rationals example_p) (rationals example_q) = Ok pq ->
     optimal_bst (fst pq) (snd pq) example_keys = Ok st ->
     tget (e st) 1 4 = Ok (Fin x) ->
     (1 # 2 < Qabs (x - (134 # 100)))%Q /\
     tget (root st) 1 4 <> Ok (Some 1%Z)) /\
  (forall st x,
     optimal_bst (rationals example_p) (rationals example_q) example_keys
       = Ok st ->
     tget (e st) 1 4 = Ok (Fin x) ->
     (1 # 2 < Qabs (x - (134 # 100)))%Q /\
     tget (root st) 1 4 <> Ok (Some 1%Z)) /\
  (forall S : Summation float,
     In S [Binary64.left_to_right; Binary64.compensated] ->
     (sum (map Binary64.lit example_p) + sum (map Binary64.lit example_q)
      =? 1)%float = false /\
     forall pq st x,
       normalise (map Binary64.lit example_p) (map Binary64.lit example_q)
         = Ok pq ->
       optimal_bst (fst pq) (snd pq) example_keys = Ok st ->
       tget (e st) 1 4 = Ok x ->
       (0.5 <? abs (x - Binary64.lit (134 # 100)))%float = true /\
       tget (root st) 1 4 <> Ok (Some 1%Z)) /\
  (forall st x,
     optimal_bst (map Binary64.lit example_p) (map Binary64.lit example_q)
       example_keys = Ok st ->
     tget (e st) 1 4 = Ok x ->
     (0.5 <? abs (x - Binary64.lit (134 # 100)))%float = true /\
     tget (root st) 1 4 <> Ok (Some 1%Z)).
Proof.
  split; [|split; [|split; [|split]]].
  - intros x H. vm_compute in H. injection H as <-.
    intros H. vm_compute in H. discriminate.
  - intros pq st x Hn Hrun Hx.
    vm_compute in Hn. injection Hn as <-.
    vm_compute in Hrun. injection Hrun as <-.
    vm_compute in Hx. injection Hx as <-.
    split; [reflexivity | discriminate].
  - intros st x Hrun Hx.
    vm_compute in Hrun. injection Hrun as <-.
    vm_compute in Hx. injection Hx as <-.
    split; [reflexivity | discriminate].
  - intros S [<-|[<-|[]]]; (split; [vm_compute; reflexivity|]);
      intros pq st x Hn Hrun Hx;
      vm_compute in Hn; injection Hn as <-;
      vm_compute in Hrun; injection Hrun as <-;
      vm_compute in Hx; injection Hx as <-;
      (split; [vm_compute; reflexivity | discriminate]).
  - intros st x Hrun Hx.
    vm_compute in Hrun. injection Hrun as <-.
    vm_compute in Hx. injection Hx as <-.
    split; [vm_compute; reflexivity | discriminate].
Qed.

(** * Further properties of the script *)

(** ** What optimal_bst reads and when it raises *)

Lemma for_each_app {X St} (xs ys : list X) (f : X -> St -> result St) s :
  for_each (xs ++ ys) f s = bind (for_each xs f s) (for_each ys f).
Proof.
  revert s. induction xs as [|x xs IH]; intros s; simpl; [done|].
  destruct (f x s); simpl; [apply IH | done].
Qed.

Lemma item_take {A} (l : list A) m k : k < m -> item (take m l) k = item l k.
Proof.
  intros Hk. unfold item. rewrite lookup_take.
  destruct (decide (k < m)); [done | lia].
Qed.

Lemma nth_take_lt {A} (l : list A) m k d :
  k < m -> nth k (take m l) d = nth k l d.
Proof.
  intros Hk. rewrite <- (firstn_skipn m l) at 2.
  destruct (Nat.lt_ge_cases k (length (take m l))) as [Hlt|Hge].
  - by rewrite app_nth1.
  - rewrite nth_overflow by done. rewrite length_take in Hge.
    rewrite nth_overflow; [done|]. rewrite firstn_skipn. lia.
Qed.

(** The builder reads only [q[0..n]]. *)
Lemma optimal_bst_reads_prefix {F} {A : Arith F} {K} (p q q' : list F) (keys : list K) :
  (forall k, k <= length p -> item q' k = item q k) ->
  optimal_bst p q' keys = optimal_bst p q keys.
Proof.
  intros Hq. unfold optimal_bst. cbv zeta.
  destruct (negb (length keys =? length p)); [done|].
  rewrite (for_each_ext _ (base_case q') (base_case q)).
  2: { intros i s Hi. apply in_seq in Hi. unfold base_case.
       by rewrite Hq by lia. }
  destruct (for_each _ (base_case q) _) as [st1|]; cbn [bind]; [|done].
  apply for_each_ext. intros L s HL. apply in_seq in HL.
  unfold fill_length. apply for_each_ext. intros i s' Hi. apply in_seq in Hi.
  unfold fill_cell. cbv zeta. by rewrite Hq by lia.
Qed.

Lemma tset_inv {A} (t t' : table A) i j v :
  tset t i j v = Ok t' -> unchanged_off t t' i j.
Proof.
  unfold tset, item. destruct (t !! i) as [row|] eqn:Hrow; cbn [bind]; [|done].
  destruct (Nat.ltb_spec j (length row)) as [Hj|]; [|done].
  intros [= <-] a b Hab. unfold tget, item.
  destruct (decide (a = i)) as [->|Hne].
  - rewrite list_lookup_insert_eq by (by eapply lookup_lt_Some).
    rewrite Hrow. cbn [bind].
    rewrite list_lookup_insert_ne by (intros ->; tauto). done.
  - by rewrite list_lookup_insert_ne.
Qed.

Lemma base_case_frame {F} {A : Arith F} (q : list F) k st st' :
  base_case q k st = Ok st' ->
  unchanged_off (e st) (e st') k (k - 1) /\
  unchanged_off (w st) (w st') k (k - 1) /\ root st' = root st.
Proof.
  unfold base_case. destruct (item q (k - 1)) as [x|]; cbn [bind]; [|done].
  destruct (tset (e st) _ _ _) as [e1|] eqn:He; cbn [bind]; [|done].
  destruct (tset (w st) _ _ _) as [w1|] eqn:Hw; cbn [bind]; [|done].
  intros [= <-]. cbn [e w root]. split; [|split]; [by eapply tset_inv..|done].
Qed.

Lemma fill_cell_frame {F} {A : Arith F} (p q : list F) L i st st' :
  fill_cell p q L i st = Ok st' ->
  unchanged_off (e st) (e st') i (i + L - 1) /\
  unchanged_off (w st) (w st') i (i + L - 1) /\
  unchanged_off (root st) (root st') i (i + L - 1).
Proof.
  unfold fill_cell. cbv zeta.
  destruct (tset (e st) _ _ _) as [e1|] eqn:He1; cbn [bind]; [|done].
  destruct (tget (w st) _ _) as [wprev|]; cbn [bind]; [|done].
  destruct (item p _) as [pj|]; cbn [bind]; [|done].
  destruct (item q _) as [qj|]; cbn [bind]; [|done].
  destruct (tset (w st) _ _ _) as [w1|] eqn:Hw1; cbn [bind]; [|done].
  destruct (for_each _ _ _) as [melhor|]; cbn [bind]; [|done].
  destruct (tset e1 _ _ _) as [e2|] eqn:He2; cbn [bind]; [|done].
  destruct (tset (root st) _ _ _) as [r1|] eqn:Hr1; cbn [bind]; [|done].
  intros [= <-]. cbn [e w root].
  apply tset_inv in He1, Hw1, He2, Hr1. split; [|by split].
  intros a b Hab. by rewrite He2, He1.
Qed.

(** A loop keeps what each pass that returns keeps. *)
Lemma for_each_keeps {X St} (P : St -> Prop) (xs : list X)
    (body : X -> St -> result St) s s' :
  (forall x s s', In x xs -> P s -> body x s = Ok s' -> P s') ->
  P s -> for_each xs body s = Ok s' -> P s'.
Proof.
  revert s. induction xs as [|x xs IH]; intros s Hbody Hs; simpl.
  - by intros [= <-].
  - destruct (body x s) as [s1|] eqn:Hx; cbn [bind]; [|done].
    apply IH; [intros; eapply Hbody; eauto; by right|].
    eapply Hbody; eauto. by left.
Qed.

Lemma tget_new_table {A} m (x : A) a b :
  a < m -> b < m -> tget (new_table m x) a b = Ok x.
Proof.
  intros Ha Hb. unfold tget, new_table, item.
  rewrite lookup_replicate_2 by done. cbn [bind].
  by rewrite lookup_replicate_2.
Qed.

Lemma squares_new {F} {A : Arith F} (p : list F) :
  squares p (Tables (new_table (length p + 2) (lit 0))
                    (new_table (length p + 2) (lit 0))
                    (new_table (length p + 2) (Some 0%Z))).
Proof. repeat split; cbn; try apply length_replicate; apply square_new. Qed.

Lemma optimal_bst_mismatch {F} {A : Arith F} {K} (p q : list F) (keys : list K) :
  length keys <> length p ->
  optimal_bst p q keys = Raise (ValueError MsgKeysLength).
Proof.
  intros Hne. unfold optimal_bst. cbv zeta.
  by destruct (Nat.eqb_spec (length keys) (length p)).
Qed.

Lemma optimal_bst_short_q {F} {A : Arith F} {K} (p q : list F) (keys : list K) :
  length keys = length p -> length q <= length p ->
  optimal_bst p q keys = Raise IndexError.
Proof.
  intros Hk Hq. unfold optimal_bst, range. cbv zeta.
  rewrite Hk, Nat.eqb_refl. cbn [negb].
  replace (length p + 2 - 1) with (length q + S (length p - length q)) by lia.
  rewrite seq_app, for_each_app.
  destruct (for_each_seq (fun _ st => squares p st) (base_case q) (length q) 1
              _ (squares_new p)) as (st1 & -> & Hsq).
  - intros k st Hkq (He & Hw & Hr). unfold base_case.
    destruct (item_lt q (k - 1)) as (x & -> & _); [lia|]. cbn [bind].
    destruct (tset_square _ (e st) k (k - 1) x He)
      as (e1 & -> & He1 & _); [lia..|].
    destruct (tset_square _ (w st) k (k - 1) x Hw)
      as (w1 & -> & Hw1 & _); [lia..|].
    cbn [bind]. eexists. split; [done|]. by split.
  - cbn [bind]. simpl. unfold base_case at 1, item at 1.
    replace (S (length q) - 1) with (length q) by lia.
    by rewrite lookup_ge_None_2.
Qed.

Lemma optimal_bst_runs {F} {A : Arith F} {K} (p q : list F) (keys : list K) :
  length keys = length p -> length p + 1 <= length q ->
  exists st, optimal_bst p q keys = Ok st /\
    solved p (take (length p + 1) q) st.
Proof.
  intros Hk Hq.
  destruct (optimal_bst_solved p (take (length p + 1) q)) with (keys := keys)
    as (st & Hrun & Hst); [rewrite length_take; lia | done |].
  exists st. split; [|done]. rewrite <- Hrun. symmetry.
  apply optimal_bst_reads_prefix. intros. apply item_take. lia.
Qed.

Lemma optimal_bst_returned {F} {A : Arith F} {K} (p q : list F) (keys : list K) st :
  optimal_bst p q keys = Ok st ->
  length keys = length p /\ length p + 1 <= length q.
Proof.
  intros Hrun. destruct (decide (length keys = length p)) as [Hk|Hk].
  - split; [done|]. destruct (le_lt_dec (length p + 1) (length q)); [done|].
    rewrite (optimal_bst_short_q p q keys) in Hrun by lia. done.
  - by rewrite (optimal_bst_mismatch p q keys Hk) in Hrun.
Qed.

(** X1.  [optimal_bst] returns tables exactly when [keys] is as long as [p]
    and [q] has at least [len(p) + 1] entries; it raises the [ValueError]
    about the keys exactly when [keys] and [p] differ in length, and an
    [IndexError] exactly when they agree but [q] has at most [len(p)]
    entries. *)
Theorem optimal_bst_outcome {F} {A : Arith F} {K} (p q : list F) (keys : list K) :
  ((exists st, optimal_bst p q keys = Ok st) <->
   length keys = length p /\ length p + 1 <= length q) /\
  (optimal_bst p q keys = Raise (ValueError MsgKeysLength) <->
   length keys <> length p) /\
  (optimal_bst p q keys = Raise IndexError <->
   length keys = length p /\ length q <= length p).
Proof.
  destruct (decide (length keys = length p)) as [Hk|Hk].
  - destruct (le_lt_dec (length p + 1) (length q)) as [Hq|Hq].
    + destruct (optimal_bst_runs p q keys Hk Hq) as (st & -> & _).
      split; [|split]; split.
      * by intros _.
      * intros _. by exists st.
      * discriminate.
      * intros H. contradiction.
      * discriminate.
      * intros [_ H]. lia.
    + rewrite (optimal_bst_short_q p q keys) by lia.
      split; [|split]; split.
      * intros [st H]. discriminate.
      * intros [_ H]. lia.
      * discriminate.
      * intros H. contradiction.
      * intros _. split; [done | lia].
      * by intros _.
  - rewrite (optimal_bst_mismatch p q keys Hk).
    split; [|split]; split.
    + intros [st H]. discriminate.
    + intros [H _]. contradiction.
    + by intros _.
    + by intros _.
    + discriminate.
    + intros [H _]. contradiction.
Qed.

(** X2.  [optimal_bst] reads only the first [len(p) + 1] entries of [q]:
    two gap lists that agree on them give the same result. *)
Theorem optimal_bst_ignores_extra_gaps {F} {A : Arith F} {K} (p q q' : list F) (keys : list K) :
  take (length p + 1) q' = take (length p + 1) q ->
  optimal_bst p q' keys = optimal_bst p q keys.
Proof.
  intros Hq. apply optimal_bst_reads_prefix. intros k Hk.
  rewrite <- (item_take q' (length p + 1)), <- (item_take q (length p + 1))
    by lia.
  by rewrite Hq.
Qed.

Lemma optimal_bst_ignores_extra_gaps_witness :
  take (length example_p + 1) (map Binary64.lit example_q ++ [7%float])
    = take (length example_p + 1) (map Binary64.lit example_q) /\
  optimal_bst (map Binary64.lit example_p)
    (map Binary64.lit example_q ++ [7%float]) example_keys
    = optimal_bst (map Binary64.lit example_p)
                 (map Binary64.lit example_q) example_keys.
Proof.
  split; [reflexivity|].
  apply (optimal_bst_ignores_extra_gaps (map Binary64.lit example_p)
           (map Binary64.lit example_q)
           (map Binary64.lit example_q ++ [7%float]) example_keys).
  reflexivity.
Defined.

(** ** Shape of the returned tables *)

Lemma optimal_bst_untouched {F} {A : Arith F} {K} (p q : list F) (keys : list K) st :
  optimal_bst p q keys = Ok st ->
  forall a b, a <= length p + 1 -> b <= length p + 1 ->
    (~ (1 <= a /\ a <= b + 1 /\ b <= length p) ->
     tget (e st) a b = Ok (lit 0) /\ tget (w st) a b = Ok (lit 0)) /\
    (~ (1 <= a /\ a <= b /\ b <= length p) ->
     tget (root st) a b = Ok (Some 0%Z)).
Proof.
  unfold optimal_bst, range. cbv zeta.
  destruct (negb _); [done|]. set (st0 := Tables _ _ _).
  set (P := fun s : tables F =>
    forall a b,
      (~ (1 <= a /\ a <= b + 1 /\ b <= length p) ->
       tget (e s) a b = tget (e st0) a b /\
       tget (w s) a b = tget (w st0) a b) /\
      (~ (1 <= a /\ a <= b /\ b <= length p) ->
       tget (root s) a b = tget (root st0) a b)).
  destruct (for_each _ (base_case q) st0) as [st1|] eqn:H1; cbn [bind];
    [|done].
  intros H2.
  assert (P st1) as HP1.
  { eapply (for_each_keeps P) in H1; [done| |by intros a b].
    intros k s s' Hk Hs Hbody. apply in_seq in Hk.
    apply base_case_frame in Hbody as (He & Hw & Hr).
    intros a b. destruct (Hs a b) as [Hs1 Hs2]. split.
    - intros Hab. rewrite He, Hw by lia. by apply Hs1.
    - intros Hab. rewrite Hr. by apply Hs2. }
  assert (P st) as HP.
  { eapply (for_each_keeps P) in H2; [done| |done].
    intros L s s' HL Hs Hbody. apply in_seq in HL. unfold fill_length in Hbody.
    eapply (for_each_keeps P) in Hbody; [done| |done].
    intros i s2 s2' Hi Hs2 Hcell. apply in_seq in Hi.
    apply fill_cell_frame in Hcell as (He & Hw & Hr).
    intros a b. destruct (Hs2 a b) as [Ha Hb]. split.
    - intros Hab. rewrite He, Hw by lia. by apply Ha.
    - intros Hab. rewrite Hr by lia. by apply Hb. }
  intros a b Ha Hb. destruct (HP a b) as [HPe HPr]. split.
  - intros Hab. destruct (HPe Hab) as [-> ->]. unfold st0. cbn [e w].
    by rewrite !tget_new_table by lia.
  - intros Hab. rewrite (HPr Hab). unfold st0. cbn [root].
    by rewrite tget_new_table by lia.
Qed.

(** X3.  When [optimal_bst] returns, each of the three tables has
    [len(p) + 2] rows of [len(p) + 2] entries. *)
Theorem tables_are_square {F} {A : Arith F} {K} (p q : list F) (keys : list K) st :
  optimal_bst p q keys = Ok st ->
  (length (e st) = length p + 2 /\
   Forall (fun row => length row = length p + 2) (e st)) /\
  (length (w st) = length p + 2 /\
   Forall (fun row => length row = length p + 2) (w st)) /\
  (length (root st) = length p + 2 /\
   Forall (fun row => length row = length p + 2) (root st)).
Proof.
  intros Hrun.
  destruct (optimal_bst_returned p q keys st Hrun) as (Hk & Hq).
  destruct (optimal_bst_runs p q keys Hk Hq) as (st' & Hrun' & Hsq & _).
  rewrite Hrun in Hrun'. injection Hrun' as <-. exact Hsq.
Qed.

Lemma tables_are_square_witness :
  exists st, optimal_bst (map Binary64.lit example_p)
                 (map Binary64.lit example_q) example_keys = Ok st /\
    length (e st) = 6 /\ length (w st) = 6 /\ length (root st) = 6.
Proof.
  pose (st := match optimal_bst (map Binary64.lit example_p)
                 (map Binary64.lit example_q) example_keys with
              | Ok st => st
              | Raise _ => Tables [] [] []
              end).
  assert (optimal_bst (map Binary64.lit example_p)
                 (map Binary64.lit example_q) example_keys = Ok st) as Hrun
    by (vm_compute; reflexivity).
  exists st. split; [exact Hrun|].
  destruct (tables_are_square (map Binary64.lit example_p)
              (map Binary64.lit example_q) example_keys st Hrun)
    as ((He & _) & (Hw & _) & (Hr & _)).
  split; [exact He|]. split; [exact Hw | exact Hr].
Defined.

(** X4.  When [optimal_bst] returns, the cells it never assigns keep their
    initial value: [e] and [w] are [0.0] outside the intervals [i..j] with
    [1 <= i <= j + 1 <= n + 1], and [root] is [0] outside the non-empty
    intervals, in particular at every empty interval [i..i-1]. *)
Theorem unassigned_cells_keep_zero {F} {A : Arith F} {K} (p q : list F) (keys : list K) st :
  optimal_bst p q keys = Ok st ->
  forall a b, a <= length p + 1 -> b <= length p + 1 ->
    (~ (1 <= a /\ a <= b + 1 /\ b <= length p) ->
     tget (e st) a b = Ok (lit 0) /\ tget (w st) a b = Ok (lit 0)) /\
    (~ (1 <= a /\ a <= b /\ b <= length p) ->
     tget (root st) a b = Ok (Some 0%Z)) /\
    (a = b + 1 -> tget (root st) a b = Ok (Some 0%Z)).
Proof.
  intros Hrun a b Ha Hb.
  destruct (optimal_bst_untouched p q keys st Hrun a b Ha Hb) as [He Hr].
  split; [done|]. split; [done|]. intros ->. apply Hr. lia.
Qed.

Lemma unassigned_cells_keep_zero_witness :
  exists st, optimal_bst (map Binary64.lit example_p)
                 (map Binary64.lit example_q) example_keys = Ok st /\
    tget (e st) 0 3 = Ok 0%float /\ tget (w st) 3 1 = Ok 0%float /\
    tget (root st) 3 2 = Ok (Some 0%Z).
Proof.
  pose (st := match optimal_bst (map Binary64.lit example_p)
                 (map Binary64.lit example_q) example_keys with
              | Ok st => st
              | Raise _ => Tables [] [] []
              end).
  assert (optimal_bst (map Binary64.lit example_p)
                 (map Binary64.lit example_q) example_keys = Ok st) as Hrun
    by (vm_compute; reflexivity).
  exists st. split; [exact Hrun|].
  pose proof (unassigned_cells_keep_zero (map Binary64.lit example_p)
                (map Binary64.lit example_q) example_keys st Hrun) as H.
  destruct (H 0 3) as ((He & _) & _); [simpl; lia..|].
  destruct (H 3 1) as ((_ & Hw) & _); [simpl; lia..|].
  destruct (H 3 2) as (_ & _ & Hr); [simpl; lia..|].
  split; [exact He|]. split; [exact Hw|]. by apply Hr.
Defined.

(** ** The recurrence, cell by cell *)

Lemma solved_take {F} {A : Arith F} (p q : list F) st :
  solved p (take (length p + 1) q) st -> solved p q st.
Proof.
  intros (Hsq & Hbase & Hcells). split; [done|]. split.
  - intros i Hi. destruct (Hbase i Hi) as [He Hw].
    rewrite nth_take_lt in He, Hw by lia. by split.
  - intros i j Hi Hij Hj.
    destruct (Hcells i j Hi Hij Hj) as (wprev & best & H1 & H2 & H3).
    rewrite nth_take_lt in H2 by lia. by exists wprev, best.
Qed.

Lemma optimal_bst_returns_solved {F} {A : Arith F} {K} (p q : list F)
    (keys : list K) st :
  optimal_bst p q keys = Ok st -> solved p q st.
Proof.
  intros Hrun. destruct (optimal_bst_returned p q keys st Hrun) as [Hk Hq].
  destruct (optimal_bst_runs p q keys Hk Hq) as (st' & Hrun' & Hst).
  rewrite Hrun in Hrun'. injection Hrun' as <-. by apply solved_take.
Qed.

(** X5.  When [optimal_bst] returns, in binary64, every non-empty interval
    either has no root, and then [e[i][j]] is [inf] and no candidate
    [e[i][r-1] + e[r+1][j] + w[i][j]] is below [inf]; or its cost cell holds
    the float [e[i][r-1] + e[r+1][j] + w[i][j]] of its root
    [r = root[i][j]], which is below [inf] and which no candidate is
    strictly below.  In exact arithmetic, on rational inputs, the second
    case always holds, with finite cells. *)
Theorem cost_is_cheapest_candidate {K} (keys : list K) :
  (forall (p q : list float) st,
     optimal_bst p q keys = Ok st ->
     forall i j, 1 <= i -> i <= j -> j <= length p ->
       (tget (root st) i j = Ok None /\ tget (e st) i j = Ok infinity /\
        forall r a b c, i <= r <= j ->
          tget (e st) i (r - 1) = Ok a -> tget (e st) (r + 1) j = Ok b ->
          tget (w st) i j = Ok c -> (a + b + c <? infinity)%float = false) \/
       (exists r a b c,
          tget (root st) i j = Ok (Some (Z.of_nat r)) /\ i <= r <= j /\
          tget (e st) i (r - 1) = Ok a /\
          tget (e st) (r + 1) j = Ok b /\
          tget (w st) i j = Ok c /\
          tget (e st) i j = Ok (a + b + c)%float /\
          (a + b + c <? infinity)%float = true /\
          forall r', i <= r' <= j ->
            exists a' b',
              tget (e st) i (r' - 1) = Ok a' /\
              tget (e st) (r' + 1) j = Ok b' /\
              (a' + b' + c <? a + b + c)%float = false)) /\
  (forall (p q : list Q) st,
     optimal_bst (rationals p) (rationals q) keys = Ok st ->
     forall i j, 1 <= i -> i <= j -> j <= length p ->
       exists r a b c,
         tget (root st) i j = Ok (Some (Z.of_nat r)) /\ i <= r <= j /\
         tget (e st) i (r - 1) = Ok (Fin a) /\
         tget (e st) (r + 1) j = Ok (Fin b) /\
         tget (w st) i j = Ok (Fin c) /\
         tget (e st) i j = Ok (Fin (a + b + c)) /\
         forall r', i <= r' <= j ->
           exists a' b',
             tget (e st) i (r' - 1) = Ok (Fin a') /\
             tget (e st) (r' + 1) j = Ok (Fin b') /\
             (a + b + c <= a' + b' + c)%Q).
Proof.
  split.
  - intros p q st Hrun i j Hi Hij Hj.
    pose proof (optimal_bst_returns_solved p q keys st Hrun) as Hst.
    destruct (chosen_cell p q st Hst binary64_lawful i j Hi Hij Hj)
      as [(Hget & He & Hnone)|(r & Hr & Hget & He & Hlt & Hmin & _)].
    + left. split; [done|]. split.
      { rewrite (tget_cell_e p q st Hst) by lia. by rewrite He. }
      intros r a b c Hr Ha Hb Hc. specialize (Hnone r Hr).
      unfold custo, cell in Hnone. by rewrite Ha, Hb, Hc in Hnone.
    + right.
      exists r, (cell (e st) i (r - 1)), (cell (e st) (r + 1) j),
        (cell (w st) i j).
      rewrite !(tget_cell_e p q st Hst), (tget_cell_w p q st Hst) by lia.
      split; [done|]. split; [done|]. do 3 (split; [done|]).
      split; [by rewrite He|]. split; [done|].
      intros r' Hr'.
      exists (cell (e st) i (r' - 1)), (cell (e st) (r' + 1) j).
      rewrite !(tget_cell_e p q st Hst) by lia.
      split; [done|]. split; [done|]. by apply Hmin.
  - intros p q st Hrun i j Hi Hij Hj.
    pose proof (optimal_bst_returns_solved _ _ keys st Hrun) as Hst.
    destruct (chosen_root p q st Hst i j) as (r & Hr & Hget & He & Hmin & _);
      [lia..|].
    exists r, (cost_at st i (r - 1)), (cost_at st (r + 1) j),
      (weight_at st i j).
    rewrite !(cost_at_get p q st Hst), (weight_at_get p q st Hst) by lia.
    repeat split; try lia; try done.
    + f_equal. f_equal. exact He.
    + intros r' Hr'.
      exists (cost_at st i (r' - 1)), (cost_at st (r' + 1) j).
      rewrite !(cost_at_get p q st Hst) by lia. repeat split; try done.
      apply (Hmin r'). lia.
Qed.

Lemma cost_is_cheapest_candidate_witness :
  exists st,
    optimal_bst (map Binary64.lit example_p) (map Binary64.lit example_q)
      example_keys = Ok st /\
    exists r a b c,
      tget (root st) 1 4 = Ok (Some (Z.of_nat r)) /\
      tget (e st) 1 (r - 1) = Ok a /\
      tget (e st) (r + 1) 4 = Ok b /\
      tget (w st) 1 4 = Ok c /\
      tget (e st) 1 4 = Ok (a + b + c)%float.
Proof.
  pose (st := match optimal_bst (map Binary64.lit example_p)
                      (map Binary64.lit example_q) example_keys with
              | Ok st => st
              | Raise _ => Tables [] [] []
              end).
  assert (optimal_bst (map Binary64.lit example_p)
            (map Binary64.lit example_q) example_keys = Ok st) as Hrun
    by (vm_compute; reflexivity).
  exists st. split; [exact Hrun|].
  destruct (cost_is_cheapest_candidate example_keys) as [H64 _].
  destruct (H64 _ _ st Hrun 1 4)
    as [(Hnone & _)|(r & a & b & c & H1 & _ & H2 & H3 & H4 & H5 & _)];
    [simpl; lia.. | |].
  - vm_compute in Hnone. discriminate.
  - exists r, a, b, c. auto.
Defined.

(** X6.  In exact arithmetic, on rational inputs: when [optimal_bst]
    returns, every cost cell [e[i][j]], for an
    empty or non-empty interval of [1..n], is the least expected cost (keys
    and gaps charged at depth + 1) of a search tree on the keys [i..j]. *)
Theorem every_cell_is_optimal {K} (p q : list Q) (keys : list K) st :
  optimal_bst (rationals p) (rationals q) keys = Ok st ->
  forall i j, 1 <= i -> i <= j + 1 -> j <= length p ->
    exists v, tget (e st) i j = Ok (Fin v) /\
      least_cost (search_cost 1 p q 0 i) i j v.
Proof.
  intros Hrun i j Hi Hij Hj.
  pose proof (optimal_bst_returns_solved _ _ keys st Hrun) as Hst.
  exists (cost_at st i j). split; [apply (cost_at_get p q st Hst); lia|].
  split.
  - apply (cost_at_attained p q st Hst (j + 1 - i)); lia.
  - intros t Ht. by apply (cost_at_lower p q st Hst).
Qed.

Lemma every_cell_is_optimal_witness :
  exists st, optimal_bst (rationals example_p) (rationals example_q)
                 example_keys = Ok st /\
    exists v, tget (e st) 2 3 = Ok (Fin v) /\
      least_cost (search_cost 1 example_p example_q 0 2) 2 3 v.
Proof.
  pose (st := match optimal_bst (rationals example_p) (rationals example_q)
                 example_keys with
              | Ok st => st
              | Raise _ => Tables [] [] []
              end).
  assert (optimal_bst (rationals example_p) (rationals example_q)
                 example_keys = Ok st) as Hrun
    by (vm_compute; reflexivity).
  exists st. split; [exact Hrun|].
  apply (every_cell_is_optimal example_p example_q example_keys st Hrun 2 3);
    simpl; lia.
Defined.

(** X7.  In exact arithmetic, on rational inputs: when [optimal_bst]
    returns, weights add up around any key [k] of
    an interval: [w[i][j] = w[i][k-1] + p[k-1] + w[k+1][j]]. *)
Theorem weight_splits_at_key {K} (p q : list Q) (keys : list K) st :
  optimal_bst (rationals p) (rationals q) keys = Ok st ->
  forall i k j, 1 <= i -> i <= k -> k <= j -> j <= length p ->
    exists a b c pk,
      tget (w st) i (k - 1) = Ok (Fin a) /\
      tget (w st) (k + 1) j = Ok (Fin b) /\
      tget (w st) i j = Ok (Fin c) /\
      item p (k - 1) = Ok pk /\
      (c == a + pk + b)%Q.
Proof.
  intros Hrun i k j Hi Hik Hkj Hj.
  pose proof (optimal_bst_returns_solved _ _ keys st Hrun) as Hst.
  exists (weight_at st i (k - 1)), (weight_at st (k + 1) j),
    (weight_at st i j), (nth (k - 1) p 0%Q).
  rewrite !(weight_at_get p q st Hst), (item_nth p (k - 1) 0%Q) by lia.
  repeat split; try done.
  apply (weight_at_split p q st Hst i k (j - k)); lia.
Qed.

Lemma weight_splits_at_key_witness :
  exists st, optimal_bst (rationals example_p) (rationals example_q)
                 example_keys = Ok st /\
    exists a b c pk,
      tget (w st) 1 1 = Ok (Fin a) /\ tget (w st) 3 4 = Ok (Fin b) /\
      tget (w st) 1 4 = Ok (Fin c) /\ item example_p 1 = Ok pk /\
      (c == a + pk + b)%Q.
Proof.
  pose (st := match optimal_bst (rationals example_p) (rationals example_q)
                 example_keys with
              | Ok st => st
              | Raise _ => Tables [] [] []
              end).
  assert (optimal_bst (rationals example_p) (rationals example_q)
                 example_keys = Ok st) as Hrun
    by (vm_compute; reflexivity).
  exists st. split; [exact Hrun|].
  apply (weight_splits_at_key example_p example_q example_keys st Hrun 1 2 4);
    simpl; lia.
Defined.

(** ** Bounds on the cost *)

Lemma cells_upper p q st :
  length q = length p + 1 -> solved (rationals p) (rationals q) st ->
  (forall x, In x (p ++ q) -> (0 <= x)%Q) ->
  forall len i j, 1 <= i -> j + 1 = i + len -> j <= length p ->
    (cost_at st i j <= level (len + 1) * weight_at st i j)%Q.
Proof.
  intros Hq Hst Hpos.
  induction len as [|len IH]; intros i j Hi Hlen Hj.
  - replace j with (i - 1) by lia.
    rewrite (cost_at_base p q st Hst), (weight_at_base p q st Hst) by lia.
    change (level (0 + 1)) with 1%Q. lra.
  - destruct (chosen_root p q st Hst i j) as (r & _ & _ & -> & Hmin & _);
      [lia..|].
    specialize (Hmin i). lapply Hmin; [|lia]. clear Hmin. intros Hmin.
    unfold candidate at 2 in Hmin.
    rewrite (cost_at_base p q st Hst) in Hmin by lia.
    pose proof (weight_at_split p q st Hst i i len j) as Hsplit.
    rewrite (weight_at_base p q st Hst) in Hsplit by lia.
    specialize (IH (i + 1) j). lapply IH; [|lia]. clear IH. intros IH.
    lapply IH; [|lia]. clear IH. intros IH. lapply IH; [|lia]. clear IH.
    intros IH.
    destruct (cells_nonneg p q st Hq Hst Hpos len (i + 1) j) as [_ Hb];
      [lia..|].
    assert (0 <= nth (i - 1) q 0)%Q as Ha.
    { apply Hpos, in_or_app. right. apply nth_In. lia. }
    assert (0 <= nth (i - 1) p 0)%Q as Hp.
    { apply Hpos, in_or_app. left. apply nth_In. lia. }
    lapply Hsplit; [|lia]. clear Hsplit. intros Hsplit.
    lapply Hsplit; [|lia]. clear Hsplit. intros Hsplit.
    lapply Hsplit; [|lia]. clear Hsplit. intros Hsplit.
    lapply Hsplit; [|lia]. clear Hsplit. intros Hsplit.
    assert (level (S len + 1) == level (len + 1) + 1)%Q as HL.
    { replace (S len + 1) with (S (len + 1)) by lia. apply level_S. }
    assert (1 <= level (len + 1))%Q as HL1.
    { unfold level. change 1%Q with (inject_Z 1). rewrite <- Zle_Qle. lia. }
    rewrite HL, Hsplit. nra.
Qed.

(** X8.  In exact arithmetic, on a rational input of the right shape with
    no negative entry, every
    weight cell is non-negative and every cost cell is at most the
    interval's weight times its number of gaps,
    [e[i][j] <= (j - i + 2) * w[i][j]]. *)
Theorem cost_at_most_gaps_times_weight {K} (p q : list Q) (keys : list K) :
  length q = length p + 1 -> length keys = length p ->
  (forall x, In x (p ++ q) -> (0 <= x)%Q) ->
  exists st, optimal_bst (rationals p) (rationals q) keys = Ok st /\
    forall i j, 1 <= i -> i <= j + 1 -> j <= length p ->
      exists x y, tget (e st) i j = Ok (Fin x) /\
        tget (w st) i j = Ok (Fin y) /\
        (0 <= y)%Q /\ (x <= level (j + 2 - i) * y)%Q.
Proof.
  intros Hq Hk Hpos.
  destruct (optimal_bst_exact p q keys Hq Hk) as (st & Hrun & Hst).
  exists st. split; [done|]. intros i j Hi Hij Hj.
  exists (cost_at st i j), (weight_at st i j).
  rewrite (cost_at_get p q st Hst), (weight_at_get p q st Hst) by lia.
  split; [done|]. split; [done|]. split.
  - apply (cells_nonneg p q st Hq Hst Hpos (j + 1 - i)); lia.
  - replace (j + 2 - i) with (j + 1 - i + 1) by lia.
    apply (cells_upper p q st Hq Hst Hpos); lia.
Qed.

Lemma cost_at_most_gaps_times_weight_witness :
  length example_q = length example_p + 1 /\
  length example_keys = length example_p /\
  (forall x, In x (example_p ++ example_q) -> (0 <= x)%Q) /\
  exists st, optimal_bst (rationals example_p) (rationals example_q)
                 example_keys = Ok st /\
    exists x y, tget (e st) 1 4 = Ok (Fin x) /\
      tget (w st) 1 4 = Ok (Fin y) /\
      (0 <= y)%Q /\ (x <= level (4 + 2 - 1) * y)%Q.
Proof.
  split; [reflexivity|]. split; [reflexivity|].
  split; [exact example_nonneg|].
  destruct (cost_at_most_gaps_times_weight example_p example_q example_keys)
    as (st & Hrun & Hcells);
    [reflexivity | reflexivity | exact example_nonneg |].
  exists st. split; [exact Hrun|]. apply Hcells; simpl; lia.
Defined.

(** ** Traversals of any root table *)

Lemma bind_Ok {A B} (m : result A) (k : A -> result B) b :
  bind m k = Ok b -> exists a, m = Ok a /\ k a = Ok b.
Proof. destruct m as [a|x]; simpl; [eauto | discriminate]. Qed.

Section AnyTable.
Context {K : Type}.
Variables (root0 : table (option Z)) (keys : list K).

Lemma preorder_deeper depth : forall depth' i j l,
  depth <= depth' ->
  preorder_from_root depth root0 keys i j = Ok l ->
  preorder_from_root depth' root0 keys i j = Ok l.
Proof.
  induction depth as [|depth IH]; intros depth' i j l Hd H; [done|].
  destruct depth' as [|depth']; [lia|]. simpl in *.
  destruct (j <? i)%Z; [done|].
  destruct (root_of root0 i j) as [r|]; cbn [bind] in *; [|done].
  destruct (index keys (r - 1)) as [k|]; cbn [bind] in *; [|done].
  apply bind_Ok in H as (lt & Hl & H). apply bind_Ok in H as (rt & Hr & H).
  rewrite (IH depth' _ _ lt), (IH depth' _ _ rt) by (done || lia). done.
Qed.

Lemma inorder_deeper depth : forall depth' i j l,
  depth <= depth' ->
  inorder_from_root depth root0 keys i j = Ok l ->
  inorder_from_root depth' root0 keys i j = Ok l.
Proof.
  induction depth as [|depth IH]; intros depth' i j l Hd H; [done|].
  destruct depth' as [|depth']; [lia|]. simpl in *.
  destruct (j <? i)%Z; [done|].
  destruct (root_of root0 i j) as [r|]; cbn [bind] in *; [|done].
  apply bind_Ok in H as (lt & Hl & H).
  rewrite (IH depth' _ _ lt) by (done || lia). cbn [bind].
  destruct (index keys (r - 1)) as [k|]; cbn [bind] in *; [|done].
  apply bind_Ok in H as (rt & Hr & H).
  rewrite (IH depth' _ _ rt) by (done || lia). done.
Qed.

Lemma postorder_deeper depth : forall depth' i j l,
  depth <= depth' ->
  postorder_from_root depth root0 keys i j = Ok l ->
  postorder_from_root depth' root0 keys i j = Ok l.
Proof.
  induction depth as [|depth IH]; intros depth' i j l Hd H; [done|].
  destruct depth' as [|depth']; [lia|]. simpl in *.
  destruct (j <? i)%Z; [done|].
  destruct (root_of root0 i j) as [r|]; cbn [bind] in *; [|done].
  apply bind_Ok in H as (lt & Hl & H). apply bind_Ok in H as (rt & Hr & H).
  rewrite (IH depth' _ _ lt), (IH depth' _ _ rt) by (done || lia). done.
Qed.

(** Where the in-order traversal returns, so do the other two, with the
    same keys. *)
Lemma inorder_others depth : forall i j l,
  inorder_from_root depth root0 keys i j = Ok l ->
  exists l1 l2,
    preorder_from_root depth root0 keys i j = Ok l1 /\
    postorder_from_root depth root0 keys i j = Ok l2 /\
    l1 ≡ₚ l /\ l2 ≡ₚ l.
Proof.
  induction depth as [|depth IH]; intros i j l H; [done|]. simpl in *.
  destruct (j <? i)%Z.
  { injection H as <-. by exists [], []. }
  destruct (root_of root0 i j) as [r|]; cbn [bind] in *; [|done].
  apply bind_Ok in H as (lt & Hl & H).
  destruct (index keys (r - 1)) as [k|]; cbn [bind] in *; [|done].
  apply bind_Ok in H as (rt & Hr & H). injection H as <-.
  destruct (IH _ _ _ Hl) as (l1 & l2 & -> & -> & Hp1 & Hp2).
  destruct (IH _ _ _ Hr) as (r1 & r2 & -> & -> & Hq1 & Hq2).
  cbn [bind]. eexists. eexists. split; [done|]. split; [done|].
  rewrite Hp1, Hp2, Hq1, Hq2. split.
  - simpl. by rewrite Permutation_middle.
  - rewrite (Permutation_app_comm rt [k]). done.
Qed.

Lemma preorder_inorder depth : forall i j l,
  preorder_from_root depth root0 keys i j = Ok l ->
  exists l', inorder_from_root depth root0 keys i j = Ok l'.
Proof.
  induction depth as [|depth IH]; intros i j l H; [done|]. simpl in *.
  destruct (j <? i)%Z; [eauto|].
  destruct (root_of root0 i j) as [r|]; cbn [bind] in *; [|done].
  destruct (index keys (r - 1)) as [k|]; cbn [bind] in *; [|done].
  apply bind_Ok in H as (lt & Hl & H). apply bind_Ok in H as (rt & Hr & H).
  destruct (IH _ _ _ Hl) as [lt' ->]. destruct (IH _ _ _ Hr) as [rt' ->].
  cbn [bind]. eauto.
Qed.

Lemma postorder_inorder depth : forall i j l,
  postorder_from_root depth root0 keys i j = Ok l ->
  exists l', inorder_from_root depth root0 keys i j = Ok l'.
Proof.
  induction depth as [|depth IH]; intros i j l H; [done|]. simpl in *.
  destruct (j <? i)%Z; [eauto|].
  destruct (root_of root0 i j) as [r|]; cbn [bind] in *; [|done].
  apply bind_Ok in H as (lt & Hl & H). apply bind_Ok in H as (rt & Hr & H).
  destruct (index keys (r - 1)) as [k|]; cbn [bind] in *; [|done].
  destruct (IH _ _ _ Hl) as [lt' ->]. destruct (IH _ _ _ Hr) as [rt' ->].
  cbn [bind]. eauto.
Qed.
End AnyTable.

(** X9.  A traversal that returns a list with some recursion depth
    available returns the same list with any larger depth, on any root
    table, key list and interval. *)
Theorem deeper_recursion_same_result {K} (depth depth' : nat)
    (root0 : table (option Z)) (keys : list K) (i j : Z) :
  depth <= depth' ->
  (forall l, preorder_from_root depth root0 keys i j = Ok l ->
             preorder_from_root depth' root0 keys i j = Ok l) /\
  (forall l, inorder_from_root depth root0 keys i j = Ok l ->
             inorder_from_root depth' root0 keys i j = Ok l) /\
  (forall l, postorder_from_root depth root0 keys i j = Ok l ->
             postorder_from_root depth' root0 keys i j = Ok l).
Proof.
  intros Hd. split; [|split]; intros l H.
  - by apply (preorder_deeper root0 keys depth).
  - by apply (inorder_deeper root0 keys depth).
  - by apply (postorder_deeper root0 keys depth).
Qed.

Lemma deeper_recursion_same_result_witness :
  2 <= recursion_limit /\
  (inorder_from_root 2 [[Some 0%Z; Some 0%Z]; [Some 0%Z; Some 1%Z]]
     ["Ana"%string] 1 1 = Ok ["Ana"%string] ->
   inorder_from_root recursion_limit
     [[Some 0%Z; Some 0%Z]; [Some 0%Z; Some 1%Z]]
     ["Ana"%string] 1 1 = Ok ["Ana"%string]).
Proof.
  assert (2 <= recursion_limit) as Hd by (apply Nat.leb_le; reflexivity).
  split; [exact Hd|].
  destruct (deeper_recursion_same_result 2 recursion_limit
              [[Some 0%Z; Some 0%Z]; [Some 0%Z; Some 1%Z]]
              ["Ana"%string] 1 1 Hd) as (_ & Hin & _).
  apply Hin.
Defined.

(** X10.  On any root table, key list, interval and depth, the three
    traversals return together or raise together, and when they return
    their lists hold the same keys, each as often (they are permutations
    of one another). *)
Theorem traversals_return_together {K} (depth : nat)
    (root0 : table (option Z)) (keys : list K) (i j : Z) :
  ((exists l, preorder_from_root depth root0 keys i j = Ok l) <->
   (exists l, inorder_from_root depth root0 keys i j = Ok l)) /\
  ((exists l, postorder_from_root depth root0 keys i j = Ok l) <->
   (exists l, inorder_from_root depth root0 keys i j = Ok l)) /\
  (forall l1 l2 l3,
     preorder_from_root depth root0 keys i j = Ok l1 ->
     inorder_from_root depth root0 keys i j = Ok l2 ->
     postorder_from_root depth root0 keys i j = Ok l3 ->
     l1 ≡ₚ l2 /\ l3 ≡ₚ l2).
Proof.
  split; [|split].
  - split.
    + intros [l H]. by apply (preorder_inorder root0 keys depth i j l).
    + intros [l H].
      destruct (inorder_others root0 keys depth i j l H) as (l1 & _ & H1 & _).
      eauto.
  - split.
    + intros [l H]. by apply (postorder_inorder root0 keys depth i j l).
    + intros [l H].
      destruct (inorder_others root0 keys depth i j l H)
        as (_ & l2 & _ & H2 & _).
      eauto.
  - intros l1 l2 l3 H1 H2 H3.
    destruct (inorder_others root0 keys depth i j l2 H2)
      as (l1' & l3' & H1' & H3' & Hp1 & Hp3).
    rewrite H1 in H1'. rewrite H3 in H3'.
    injection H1' as <-. injection H3' as <-. done.
Qed.

(** ** Traversals of the tables optimal_bst returns *)

Lemma returned_roots {K} (p q : list Q) (keys : list K) st :
  optimal_bst (rationals p) (rationals q) keys = Ok st ->
  length keys = length p /\ roots_in_range (root st) (length keys).
Proof.
  intros Hrun. destruct (optimal_bst_returned _ _ keys st Hrun) as [Hk _].
  rewrite length_rationals in Hk.
  split; [done|]. rewrite Hk.
  apply (solved_roots p q). by apply (optimal_bst_returns_solved _ _ keys).
Qed.

(** X11.  When [optimal_bst] returns, in binary64, on every interval
    [i..j] of [1..n] that is empty or whose cost [e[i][j]] is below [inf],
    and with a recursion depth above its length, the in-order traversal
    returns the slice [keys[i-1:j]] and the pre-order and post-order
    traversals return permutations of that slice; on the other intervals the
    three traversals raise [TypeError].  In exact arithmetic, on rational
    inputs, they return on every interval. *)
Theorem traversals_of_any_interval {K} (keys : list K) :
  (forall (p q : list float) st,
     optimal_bst p q keys = Ok st ->
     forall depth i j,
       1 <= i -> i <= j + 1 -> j <= length p -> j + 1 - i < depth ->
       (costed st i j ->
        inorder_from_root depth (root st) keys (Z.of_nat i) (Z.of_nat j)
          = Ok (slice keys (i - 1) j) /\
        exists l1 l2,
          preorder_from_root depth (root st) keys (Z.of_nat i) (Z.of_nat j)
            = Ok l1 /\
          postorder_from_root depth (root st) keys (Z.of_nat i) (Z.of_nat j)
            = Ok l2 /\
          l1 ≡ₚ slice keys (i - 1) j /\ l2 ≡ₚ slice keys (i - 1) j) /\
       (~ costed st i j ->
        preorder_from_root depth (root st) keys (Z.of_nat i) (Z.of_nat j)
          = Raise TypeError /\
        inorder_from_root depth (root st) keys (Z.of_nat i) (Z.of_nat j)
          = Raise TypeError /\
        postorder_from_root depth (root st) keys (Z.of_nat i) (Z.of_nat j)
          = Raise TypeError)) /\
  (forall (p q : list Q) st,
     optimal_bst (rationals p) (rationals q) keys = Ok st ->
     forall depth i j,
       1 <= i -> i <= j + 1 -> j <= length p -> j + 1 - i < depth ->
       inorder_from_root depth (root st) keys (Z.of_nat i) (Z.of_nat j)
         = Ok (slice keys (i - 1) j) /\
       exists l1 l2,
         preorder_from_root depth (root st) keys (Z.of_nat i) (Z.of_nat j)
           = Ok l1 /\
         postorder_from_root depth (root st) keys (Z.of_nat i) (Z.of_nat j)
           = Ok l2 /\
         l1 ≡ₚ slice keys (i - 1) j /\ l2 ≡ₚ slice keys (i - 1) j).
Proof.
  split.
  - intros p q st Hrun depth i j Hi Hij Hj Hd.
    destruct (optimal_bst_returned p q keys st Hrun) as [Hk _].
    pose proof (optimal_bst_returns_solved p q keys st Hrun) as Hst.
    split.
    + intros Hc.
      assert (inorder_from_root depth (root st) keys (Z.of_nat i)
                (Z.of_nat j) = Ok (slice keys (i - 1) j)) as Hin.
      { apply (costed_inorder binary64_lawful p q st keys Hst Hk);
          (done || lia). }
      split; [done|]. by apply inorder_others.
    + intros Hc.
      destruct (uncosted_root binary64_lawful p q st keys Hst Hk i j)
        as [Hn Hget]; [lia | lia | done |].
      destruct depth as [|d]; [lia|]. by apply traversals_type_error.
  - intros p q st Hrun depth i j Hi Hij Hj Hd.
    destruct (returned_roots p q keys st Hrun) as [Hk Hroots].
    assert (inorder_from_root depth (root st) keys (Z.of_nat i) (Z.of_nat j)
              = Ok (slice keys (i - 1) j)) as Hin
      by (apply inorder_slice; (done || lia)).
    split; [done|]. by apply inorder_others.
Qed.

Lemma traversals_of_any_interval_witness :
  exists st,
    optimal_bst (map Binary64.lit example_p) (map Binary64.lit example_q)
      example_keys = Ok st /\
    inorder_from_root 3 (root st) example_keys (Z.of_nat 2) (Z.of_nat 3)
      = Ok (slice example_keys (2 - 1) 3).
Proof.
  pose (st := match optimal_bst (map Binary64.lit example_p)
                      (map Binary64.lit example_q) example_keys with
              | Ok st => st
              | Raise _ => Tables [] [] []
              end).
  assert (optimal_bst (map Binary64.lit example_p)
            (map Binary64.lit example_q) example_keys = Ok st) as Hrun
    by (vm_compute; reflexivity).
  exists st. split; [exact Hrun|].
  destruct (traversals_of_any_interval example_keys) as [H64 _].
  destruct (H64 _ _ st Hrun 3 2 3) as [Hin _]; [simpl; lia..|].
  apply Hin. right. vm_compute. reflexivity.
Defined.

(** ** The tree that the traversals walk *)

Lemma tree_of_cost p q st :
  solved (rationals p) (rationals q) st ->
  forall depth i j,
    1 <= i -> i <= j + 1 -> j <= length p -> j + 1 - i < depth ->
    (search_cost 1 p q 0 i (tree_of depth (root st) i j) == cost_at st i j)%Q.
Proof.
  intros Hst. pose proof (solved_roots p q st Hst) as Hroots.
  induction depth as [|depth IH]; intros i j Hi Hij Hj Hd; [lia|].
  pose proof (tree_of_bst (root st) (replicate (length p) tt)) as Hbst.
  rewrite length_replicate in Hbst.
  specialize (Hbst Hroots (S depth) i j Hi Hij Hj Hd).
  cbn [tree_of] in *. destruct (Nat.ltb_spec j i) as [Hlt|Hge].
  - simpl. replace j with (i - 1) by lia.
    rewrite (cost_at_base p q st Hst) by lia. rewrite level_0. ring.
  - destruct (chosen_root p q st Hst i j) as (r & Hr & Hget & -> & _);
      [lia..|].
    rewrite Hget, Nat2Z.id in *.
    rewrite (search_cost_root p q st Hst 1 _ r _ i j) by (done || lia).
    rewrite !IH by lia. reflexivity.
Qed.

(** X12.  When [optimal_bst] returns, in binary64, and [e[1][n]] is below
    [inf] (or there is no key), the root table describes a binary search
    tree on the keys [1..n], [e[1][n]] is the cost of that tree as the
    recurrence adds it up, and the three traversals return that tree's keys
    in pre-order, in-order and post-order.  In exact arithmetic, on
    rational inputs, this always holds, and the expected cost of the tree
    (keys and gaps charged at depth + 1) is [e[1][n]], the least
    possible. *)
Theorem traversals_walk_the_optimal_tree {K} (keys : list K) (depth : nat) :
  (forall (p q : list float) st,
     optimal_bst p q keys = Ok st -> length p < depth ->
     costed st 1 (length p) ->
     let n := length p in
     let t := tree_of depth (root st) 1 n in
     bst 1 n t /\
     tget (e st) 1 n = Ok (tree_custo p q 1 n t) /\
     preorder_from_root depth (root st) keys 1 (Z.of_nat n)
       = Ok (keys_of keys (preorder t)) /\
     inorder_from_root depth (root st) keys 1 (Z.of_nat n)
       = Ok (keys_of keys (inorder t)) /\
     postorder_from_root depth (root st) keys 1 (Z.of_nat n)
       = Ok (keys_of keys (postorder t))) /\
  (forall (p q : list Q) st,
     optimal_bst (rationals p) (rationals q) keys = Ok st ->
     length p < depth ->
     let n := length p in
     let t := tree_of depth (root st) 1 n in
     bst 1 n t /\
     (exists v, tget (e st) 1 n = Ok (Fin v) /\
        (search_cost 1 p q 0 1 t == v)%Q /\
        least_cost (search_cost 1 p q 0 1) 1 n v) /\
     preorder_from_root depth (root st) keys 1 (Z.of_nat n)
       = Ok (keys_of keys (preorder t)) /\
     inorder_from_root depth (root st) keys 1 (Z.of_nat n)
       = Ok (keys_of keys (inorder t)) /\
     postorder_from_root depth (root st) keys 1 (Z.of_nat n)
       = Ok (keys_of keys (postorder t))).
Proof.
  split.
  - intros p q st Hrun Hd Hc n t.
    destruct (optimal_bst_returned p q keys st Hrun) as [Hk _].
    pose proof (optimal_bst_returns_solved p q keys st Hrun) as Hst.
    destruct (costed_tree binary64_lawful p q st keys Hst Hk depth 1 n)
      as (Hbst & Hwalk); [lia.. | done |].
    split; [done|]. split; [|done].
    rewrite (tget_cell_e p q st Hst) by lia. f_equal.
    apply (costed_tree_custo binary64_lawful p q st keys Hst Hk);
      [lia.. | done].
  - intros p q st Hrun Hd n t.
    destruct (returned_roots p q keys st Hrun) as [Hk Hroots].
    pose proof (optimal_bst_returns_solved _ _ keys st Hrun) as Hst.
    split; [|split].
    + apply (tree_of_bst (root st) keys Hroots); lia.
    + exists (cost_at st 1 n). split; [apply (cost_at_get p q st Hst); lia|].
      split; [apply (tree_of_cost p q st Hst); lia|]. split.
      * apply (cost_at_attained p q st Hst n); lia.
      * intros t' Ht'. apply (cost_at_lower p q st Hst); [done | lia..].
    + change 1%Z with (Z.of_nat 1).
      apply (tree_of_walk (root st) keys Hroots); lia.
Qed.

Lemma traversals_walk_the_optimal_tree_witness :
  exists st,
    optimal_bst (map Binary64.lit example_p) (map Binary64.lit example_q)
      example_keys = Ok st /\
    bst 1 4 (tree_of 5 (root st) 1 4) /\
    preorder_from_root 5 (root st) example_keys 1 4
      = Ok (keys_of example_keys (preorder (tree_of 5 (root st) 1 4))).
Proof.
  pose (st := match optimal_bst (map Binary64.lit example_p)
                      (map Binary64.lit example_q) example_keys with
              | Ok st => st
              | Raise _ => Tables [] [] []
              end).
  assert (optimal_bst (map Binary64.lit example_p)
            (map Binary64.lit example_q) example_keys = Ok st) as Hrun
    by (vm_compute; reflexivity).
  assert (length (map Binary64.lit example_p) < 5) as Hd by (simpl; lia).
  assert (costed st 1 (length (map Binary64.lit example_p))) as Hc
    by (right; vm_compute; reflexivity).
  exists st. split; [exact Hrun|].
  destruct (traversals_walk_the_optimal_tree example_keys 5) as [H64 _].
  destruct (H64 _ _ st Hrun Hd Hc) as (Hbst & _ & Hpre & _).
  split; [exact Hbst | exact Hpre].
Defined.

(** ** Which check of validate_probabilities fires *)

Lemma existsb_negative l :
  existsb (fun x => Qltb x 0) l = true <->
  exists x, In x l /\ (x < 0)%Q.
Proof.
  rewrite existsb_exists. split; intros (x & Hin & Hx); exists x;
    (split; [done|]); by apply Qltb_lt.
Qed.

Lemma existsb_nonneg l :
  existsb (fun x => Qltb x 0) l = false <->
  forall x, In x l -> (0 <= x)%Q.
Proof.
  split.
  - intros H x Hin. apply Qnot_lt_le. intros Hx.
    assert (existsb (fun x => Qltb x 0) l = true) as Ht
      by (apply existsb_negative; eauto).
    congruence.
  - intros H. destruct (existsb _ l) eqn:E; [|done].
    apply existsb_negative in E as (x & Hin & Hx).
    specialize (H x Hin). lra.
Qed.

Lemma existsb_false {A} (f : A -> bool) l :
  existsb f l = false <-> forall x, In x l -> f x = false.
Proof.
  split.
  - intros H x Hin. destruct (f x) eqn:E; [|done].
    assert (existsb f l = true) as Ht by (apply existsb_exists; eauto).
    congruence.
  - intros H. destruct (existsb f l) eqn:E; [|done].
    apply existsb_exists in E as (x & Hin & Hx).
    rewrite (H x Hin) in Hx. done.
Qed.

(** The order of the three checks, in any arithmetic. *)
Lemma validate_message {F} {A : Arith F} {S : Summation F} (p q : list F) :
  (validate_probabilities p q = Raise (ValueError MsgQLength) <->
   length q <> length p + 1) /\
  (validate_probabilities p q = Raise (ValueError MsgNegative) <->
   length q = length p + 1 /\
   exists x, In x (p ++ q) /\ fltb x (lit 0) = true) /\
  (validate_probabilities p q = Raise (ValueError MsgSum) <->
   length q = length p + 1 /\
   (forall x, In x (p ++ q) -> fltb x (lit 0) = false) /\
   fltb (lit (1 # 1000000))
        (fabs (fsub (fadd (sum p) (sum q)) (lit 1))) = true).
Proof.
  unfold validate_probabilities.
  destruct (Nat.eqb_spec (length q) (length p + 1)) as [Hlen|Hlen];
    cbn [negb].
  2: { split; [|split]; split; try done; intros [H _]; contradiction. }
  destruct (existsb _ (p ++ q)) eqn:Hneg.
  - pose proof (proj1 (existsb_exists _ _) Hneg) as (x & Hin & Hx).
    split; [|split]; split; try done.
    + intros _. eauto.
    + intros (_ & Hpos & _). specialize (Hpos x Hin). congruence.
  - pose proof (proj1 (existsb_false _ _) Hneg) as Hpos. cbv zeta.
    destruct (fltb (lit (1 # 1000000)) _) eqn:Hsum.
    + split; [|split]; split; try done.
      intros (_ & x & Hin & Hx). specialize (Hpos x Hin). cbv beta in Hpos.
      congruence.
    + split; [|split]; split; try done.
      * intros (_ & x & Hin & Hx). specialize (Hpos x Hin).
        cbv beta in Hpos. congruence.
      * intros (_ & _ & H). congruence.
Qed.

(** X13.  The checks of [validate_probabilities] are tried in order: the
    length message is raised whenever [len(q) != len(p) + 1]; the
    negativity message exactly when the lengths fit and some entry [x] has
    [x < 0]; the sum message exactly when the lengths fit, no entry has
    [x < 0] and [abs(s - 1.0) > 1e-6] holds of the float
    [s = sum(p) + sum(q)], whichever way the builtin [sum] adds.  In exact
    arithmetic, on rational inputs, the last condition is that the sum is
    further than [1/1000000] from 1. *)
Theorem validate_probabilities_message :
  (forall (S : Summation float) (p q : list float),
     (validate_probabilities p q = Raise (ValueError MsgQLength) <->
      length q <> length p + 1) /\
     (validate_probabilities p q = Raise (ValueError MsgNegative) <->
      length q = length p + 1 /\
      exists x, In x (p ++ q) /\ (x <? 0)%float = true) /\
     (validate_probabilities p q = Raise (ValueError MsgSum) <->
      length q = length p + 1 /\
      (forall x, In x (p ++ q) -> (x <? 0)%float = false) /\
      (0x1.0c6f7a0b5ed8dp-20 <? abs (sum p + sum q - 1))%float = true)) /\
  (forall p q : list Q,
     (validate_probabilities (rationals p) (rationals q)
      = Raise (ValueError MsgQLength) <->
      length q <> length p + 1) /\
     (validate_probabilities (rationals p) (rationals q)
      = Raise (ValueError MsgNegative) <->
      length q = length p + 1 /\ exists x, In x (p ++ q) /\ (x < 0)%Q) /\
     (validate_probabilities (rationals p) (rationals q)
      = Raise (ValueError MsgSum) <->
      length q = length p + 1 /\ (forall x, In x (p ++ q) -> (0 <= x)%Q) /\
      (1 # 1000000 < Qabs (Qsum p + Qsum q - 1))%Q)).
Proof.
  split; [intros S p q; exact (validate_message p q)|].
  intros p q. rewrite validate_exact.
  destruct (Nat.eqb_spec (length q) (length p + 1)) as [Hlen|Hlen];
    cbn [negb].
  2: { split; [|split]; split; try done; intros [H _]; contradiction. }
  destruct (existsb _ (p ++ q)) eqn:Hneg.
  - pose proof (proj1 (existsb_negative _) Hneg) as (x & Hin & Hx).
    split; [|split]; split; try done.
    + intros _. eauto.
    + intros (_ & Hpos & _). specialize (Hpos x Hin). lra.
  - pose proof (proj1 (existsb_nonneg _) Hneg) as Hpos.
    destruct (Qltb (1 # 1000000) (Qabs (Qsum p + Qsum q - 1))) eqn:Hsum.
    + apply Qltb_lt in Hsum. split; [|split]; split; try done.
      intros (_ & x & Hin & Hx). specialize (Hpos x Hin). lra.
    + apply Qltb_ge in Hsum. split; [|split]; split; try done.
      * intros (_ & x & Hin & Hx). specialize (Hpos x Hin). lra.
      * intros (_ & _ & H). lra.
Qed.

(** ** Validated input *)

Lemma validate_lengths {F} {A : Arith F} {S : Summation F} (p q : list F) :
  validate_probabilities p q = Ok tt -> length q = length p + 1.
Proof.
  unfold validate_probabilities.
  by destruct (Nat.eqb_spec (length q) (length p + 1)).
Qed.

Lemma validate_Ok p q :
  validate_probabilities (rationals p) (rationals q) = Ok tt ->
  length q = length p + 1 /\ (forall x, In x (p ++ q) -> (0 <= x)%Q) /\
  (Qabs (Qsum p + Qsum q - 1) <= 1 # 1000000)%Q.
Proof.
  rewrite validate_exact.
  destruct (Nat.eqb_spec (length q) (length p + 1)) as [Hlen|Hlen];
    cbn [negb]; [|done].
  destruct (existsb _ (p ++ q)) eqn:Hneg; [done|].
  destruct (Qltb _ _) eqn:Hsum; [done|]. intros _.
  split; [done|]. split; [by apply existsb_nonneg | by apply Qltb_ge].
Qed.

(** X14.  If [validate_probabilities] accepts [p] and [q] and [keys] is as
    long as [p], then [optimal_bst] returns, in binary64 (whichever way the
    builtin [sum] adds) with [w[1][n]] the running sum of all the
    probabilities.  Validation lets [nan] through
    (no comparison with [nan] holds), and then there is no root:
    [p = [nan]], [q = [0.0, 0.0]] is accepted and gives [root[1][1]] equal to
    [None].  In exact arithmetic, on rational inputs, the weight [w[1][n]] is
    [sum(p) + sum(q)], within [1e-6] of 1, and the cost [e[1][n]] is at
    least that weight and at most [n + 1] times it. *)
Theorem validated_input_runs {K} (keys : list K) (k : K) :
  (forall (S : Summation float) (p q : list float),
     validate_probabilities p q = Ok tt -> length keys = length p ->
     exists st, optimal_bst p q keys = Ok st /\
       tget (w st) 1 (length p) = Ok (running_weight p q 1 (length p))) /\
  (validate_probabilities (S := Binary64.left_to_right)
     [PrimFloat.nan] [0; 0]%float = Ok tt /\
   validate_probabilities (S := Binary64.compensated)
     [PrimFloat.nan] [0; 0]%float = Ok tt /\
   exists st, optimal_bst [PrimFloat.nan] [0; 0]%float [k] = Ok st /\
     tget (root st) 1 1 = Ok None) /\
  (forall p q : list Q,
     validate_probabilities (rationals p) (rationals q) = Ok tt ->
     length keys = length p ->
     exists st x y,
       optimal_bst (rationals p) (rationals q) keys = Ok st /\
       tget (w st) 1 (length p) = Ok (Fin y) /\
       (y == Qsum p + Qsum q)%Q /\ (Qabs (y - 1) <= 1 # 1000000)%Q /\
       tget (e st) 1 (length p) = Ok (Fin x) /\
       (y <= x)%Q /\ (x <= level (length p + 1) * y)%Q).
Proof.
  split; [|split].
  - intros S p q Hval Hk. pose proof (validate_lengths p q Hval) as Hq.
    destruct (running_weights p q keys Hq Hk) as (st & Hrun & Hw).
    exists st. split; [done|]. apply Hw; lia.
  - split; [reflexivity|]. split; [reflexivity|].
    eexists. split; reflexivity.
  - intros p q Hval Hk. destruct (validate_Ok p q Hval) as (Hq & Hpos & Hsum).
    destruct (optimal_bst_exact p q keys Hq Hk) as (st & Hrun & Hst).
    exists st, (cost_at st 1 (length p)), (weight_at st 1 (length p)).
    rewrite (cost_at_get p q st Hst), (weight_at_get p q st Hst) by lia.
    assert (weight_at st 1 (length p) == Qsum p + Qsum q)%Q as Hw.
    { rewrite (weight_at_closed p q st Hq Hst (length p)) by lia.
      unfold interval_weight. change (1 - 1) with 0.
      rewrite slice_all. rewrite <- Hq, slice_all. reflexivity. }
    split; [done|]. split; [done|]. split; [done|].
    split; [by rewrite Hw|]. split; [done|]. split.
    + destruct (decide (length p = 0)) as [H0|H0].
      * rewrite H0 in *.
        pose proof (cost_at_base p q st Hst 1) as Hc.
        pose proof (weight_at_base p q st Hst 1) as Hw1.
        change (1 - 1) with 0 in Hc, Hw1. rewrite Hc, Hw1 by lia. lra.
      * destruct (chosen_root p q st Hst 1 (length p))
          as (r & Hr & _ & -> & _); [lia..|].
        destruct (cells_nonneg p q st Hq Hst Hpos (r - 1) 1 (r - 1))
          as [Ha _]; [lia..|].
        destruct (cells_nonneg p q st Hq Hst Hpos (length p - r) (r + 1)
                    (length p)) as [Hb _]; [lia..|].
        unfold candidate. lra.
    + apply (cells_upper p q st Hq Hst Hpos); lia.
Qed.

Lemma validated_input_runs_witness :
  (exists st,
     optimal_bst [0.5; 0.25]%float [0.125; 0.0625; 0.0625]%float
       ["Ana"; "Bruno"]%string = Ok st /\
     tget (w st) 1 2 =
       Ok (running_weight [0.5; 0.25]%float [0.125; 0.0625; 0.0625]%float
             1 2)) /\
  exists st x y,
    optimal_bst (rationals [1 # 2; 1 # 4]%Q)
      (rationals [1 # 8; 1 # 16; 1 # 16]%Q) ["Ana"; "Bruno"]%string
      = Ok st /\
    tget (w st) 1 2 = Ok (Fin y) /\
    (Qabs (y - 1) <= 1 # 1000000)%Q /\
    tget (e st) 1 2 = Ok (Fin x) /\ (y <= x)%Q.
Proof.
  destruct (validated_input_runs ["Ana"; "Bruno"]%string "Ana"%string)
    as (H64 & _ & Hex).
  split.
  - apply (H64 Binary64.compensated [0.5; 0.25]%float
             [0.125; 0.0625; 0.0625]%float); reflexivity.
  - destruct (Hex [1 # 2; 1 # 4]%Q [1 # 8; 1 # 16; 1 # 16]%Q)
      as (st & x & y & H1 & H2 & _ & H3 & H4 & H5 & _);
      [reflexivity | reflexivity |].
    exists st, x, y. auto.
Defined.

(** ** The rescaling done by main *)

Lemma round_half_even_near y :
  (inject_Z (round_half_even y) - y <= 1 # 2)%Q /\
  (y - inject_Z (round_half_even y) <= 1 # 2)%Q.
Proof.
  unfold round_half_even.
  pose proof (Qfloor_le y) as Hlo. pose proof (Qlt_floor y) as Hhi.
  rewrite inject_Z_plus in Hhi. change (inject_Z 1) with 1%Q in Hhi.
  destruct (y - inject_Z (Qfloor y) ?= 1 # 2)%Q eqn:Hc.
  - apply Qeq_alt in Hc. destruct (Z.even (Qfloor y));
      rewrite ?inject_Z_plus; change (inject_Z 1) with 1%Q; split; lra.
  - apply Qlt_alt in Hc. split; lra.
  - apply Qgt_alt in Hc. rewrite inject_Z_plus.
    change (inject_Z 1) with 1%Q. split; lra.
Qed.

Lemma round_half_even_nonneg y : (0 <= y)%Q -> (0 <= round_half_even y)%Z.
Proof.
  intros Hy. unfold round_half_even.
  assert (0 <= Qfloor y)%Z as Hf.
  { change 0%Z with (Qfloor 0). by apply Qfloor_resp_le. }
  destruct (_ ?= _)%Q; [destruct (Z.even _)|..]; lia.
Qed.

Lemma scale_pos nd : (0 < inject_Z (10 ^ Z.of_nat nd))%Q.
Proof.
  change 0%Q with (inject_Z 0). rewrite <- Zlt_Qlt.
  apply Z.pow_pos_nonneg; lia.
Qed.

Lemma round_near x nd :
  (Qabs (round_to x nd - x) <= (1 # 2) / inject_Z (10 ^ Z.of_nat nd))%Q.
Proof.
  unfold round_to. cbv zeta. pose proof (scale_pos nd) as HS.
  set (S := inject_Z (10 ^ Z.of_nat nd)) in *.
  destruct (round_half_even_near (x * S)) as [H1 H2].
  set (r := inject_Z (round_half_even (x * S))) in *.
  assert (r / S - x == (r - x * S) / S)%Q as -> by (field; lra).
  apply Qabs_Qle_condition. split.
  - apply Qle_shift_div_l; [done|].
    assert (- ((1 # 2) / S) * S == - (1 # 2))%Q as -> by (field; lra). lra.
  - apply Qle_shift_div_r; [done|].
    assert ((1 # 2) / S * S == 1 # 2)%Q as -> by (field; lra). lra.
Qed.

Lemma round_nonneg x nd : (0 <= x)%Q -> (0 <= round_to x nd)%Q.
Proof.
  intros Hx. unfold round_to. cbv zeta. pose proof (scale_pos nd) as HS.
  apply Qle_shift_div_l; [done|]. rewrite Qmult_0_l.
  change 0%Q with (inject_Z 0). rewrite <- Zle_Qle.
  apply round_half_even_nonneg. apply Qmult_le_0_compat; lra.
Qed.

Lemma Qsum_nonneg l :
  (forall x, In x l -> (0 <= x)%Q) -> (0 <= Qsum l)%Q.
Proof.
  induction l as [|x l IH] using rev_ind; intros H; [by compute|].
  rewrite Qsum_snoc.
  assert (0 <= Qsum l)%Q by (apply IH; intros; apply H, in_or_app; by left).
  assert (0 <= x)%Q by (apply H, in_or_app; right; by left). lra.
Qed.

(** Rounding each rescaled entry moves the sum by at most half a unit of
    the last decimal per entry. *)
Lemma sum_rounded esc l :
  (Qabs (Qsum (map (fun x => round_to (x * esc) 10) l) - esc * Qsum l)
   <= inject_Z (Z.of_nat (length l)) * (1 # 20000000000))%Q.
Proof.
  induction l as [|x l IH] using rev_ind.
  - apply Qabs_Qle_condition. unfold Qsum. cbn [map fold_left length].
    change (inject_Z (Z.of_nat 0)) with 0%Q. split; lra.
  - rewrite map_app, !Qsum_snoc, length_app. simpl length.
    rewrite Nat2Z.inj_add, inject_Z_plus. simpl map. rewrite Qsum_snoc.
    pose proof (round_near (x * esc) 10) as Hx.
    change ((1 # 2) / inject_Z (10 ^ Z.of_nat 10))%Q
      with (1 # 20000000000)%Q in Hx.
    apply Qabs_Qle_condition in IH, Hx. apply Qabs_Qle_condition.
    change (inject_Z (Z.of_nat 1)) with 1%Q.
    destruct IH, Hx. split; lra.
Qed.

(** [normalise] on rationals. *)
Lemma normalise_exact (p q : list Q) :
  normalise (rationals p) (rationals q) =
  if Qltb (1 # 1000000000) (Qabs (Qsum p + Qsum q - 1)) then
    if Qeq_bool (Qsum p + Qsum q) 0 then Raise ZeroDivisionError
    else Ok (rationals
               (map (fun x => round_to (x * (1 * / (Qsum p + Qsum q))) 10)
                    p),
             rationals
               (map (fun x => round_to (x * (1 * / (Qsum p + Qsum q))) 10)
                    q))
  else Ok (rationals p, rationals q).
Proof.
  unfold normalise. rewrite !sum_rationals.
  cbn [fadd fsub fabs fltb lit fdiv exact_arith Exact.add Exact.sub
       Exact.opp Exact.abs Exact.ltb Exact.div].
  change (Qsum p + Qsum q + - 1)%Q with (Qsum p + Qsum q - 1)%Q.
  destruct (Qltb _ _); [|done].
  destruct (Qeq_bool _ _); [done|]. cbn [bind Exact.mul].
  unfold rationals. by rewrite !map_map.
Qed.

Lemma normalise_zero p q :
  (Qsum p + Qsum q == 0)%Q ->
  normalise (rationals p) (rationals q) = Raise ZeroDivisionError.
Proof.
  intros H0. rewrite normalise_exact.
  assert (Qltb (1 # 1000000000) (Qabs (Qsum p + Qsum q - 1)) = true) as ->.
  { apply Qltb_lt. rewrite H0. by compute. }
  by rewrite (proj2 (Qeq_bool_iff (Qsum p + Qsum q) 0) H0).
Qed.

Lemma normalise_nonzero p q :
  ~ (Qsum p + Qsum q == 0)%Q ->
  exists p' q',
    normalise (rationals p) (rationals q) = Ok (rationals p', rationals q') /\
    length p' = length p /\ length q' = length q /\
    (Qabs (Qsum p' + Qsum q' - 1) <=
       (1 # 1000000000) +
       inject_Z (Z.of_nat (length p + length q)) * (1 # 20000000000))%Q /\
    ((forall x, In x (p ++ q) -> (0 <= x)%Q) ->
     forall x, In x (p' ++ q') -> (0 <= x)%Q).
Proof.
  intros Hne. rewrite normalise_exact.
  assert (0 <= inject_Z (Z.of_nat (length p + length q)))%Q as Hlen.
  { change 0%Q with (inject_Z 0). rewrite <- Zle_Qle. lia. }
  destruct (Qltb _ _) eqn:Hfar.
  - destruct (Qeq_bool (Qsum p + Qsum q) 0) eqn:E;
      [by apply Qeq_bool_iff in E|].
    eexists. eexists. split; [done|].
    rewrite !length_map. split; [done|]. split; [done|]. split.
    + pose proof (sum_rounded (1 * / (Qsum p + Qsum q)) p) as Hp.
      pose proof (sum_rounded (1 * / (Qsum p + Qsum q)) q) as Hq.
      apply Qabs_Qle_condition in Hp, Hq. apply Qabs_Qle_condition.
      rewrite Nat2Z.inj_add, inject_Z_plus.
      assert (1 * / (Qsum p + Qsum q) * Qsum p
              + 1 * / (Qsum p + Qsum q) * Qsum q == 1)%Q
        as Hone by (field; done).
      destruct Hp, Hq. split; lra.
    + intros Hpos x Hx.
      assert (0 <= Qsum p + Qsum q)%Q as Hs.
      { pose proof (Qsum_nonneg p) as H1. pose proof (Qsum_nonneg q) as H2.
        lapply H1; [|intros; apply Hpos, in_or_app; by left].
        lapply H2; [|intros; apply Hpos, in_or_app; by right]. lra. }
      assert (0 < / (Qsum p + Qsum q))%Q as Hesc
        by (apply Qinv_lt_0_compat; lra).
      rewrite <- map_app in Hx. apply in_map_iff in Hx as (y & <- & Hy).
      apply round_nonneg. specialize (Hpos y Hy). nra.
  - apply Qltb_ge in Hfar. exists p, q. repeat split; try done.
    assert (0 <= inject_Z (Z.of_nat (length p + length q))
                 * (1 # 20000000000))%Q by nra.
    lra.
Qed.

(** A zero sum is further than [1e-9] from 1. *)
Lemma zero_far (t : float) :
  (t =? 0)%float = true ->
  (Binary64.lit (1 # 1000000000) <? abs (t - 1))%float = true.
Proof.
  rewrite FloatAxioms.eqb_spec. intros H.
  assert (exists s, Prim2SF t = S754_zero s) as [s Hs].
  { change (Prim2SF 0) with (S754_zero false) in H.
    destruct (Prim2SF t) as [s|s| |s m ex]; try destruct s; try done;
      eauto. }
  rewrite <- (SF2Prim_Prim2SF t), Hs. by destruct s.
Qed.

(** The rescaling in binary64. *)
Lemma normalise_binary64 {S : Summation float} (p q : list float) :
  normalise p q =
  if (Binary64.lit (1 # 1000000000) <? abs (sum p + sum q - 1))%float then
    if (sum p + sum q =? 0)%float then Raise ZeroDivisionError
    else Ok (map (fun x => Binary64.round (x * (1 / (sum p + sum q))) 10) p,
             map (fun x => Binary64.round (x * (1 / (sum p + sum q))) 10) q)
  else Ok (p, q).
Proof.
  unfold normalise.
  cbn [fadd fsub fabs fltb fdiv fmul fround binary64]. unfold Binary64.div.
  change (@lit float binary64 1) with 1%float.
  change (@lit float binary64 (1 # 1000000000))
    with (Binary64.lit (1 # 1000000000)).
  destruct (_ <? _)%float; [|done]. by destruct (_ =? _)%float.
Qed.

Lemma normalise_raises {S : Summation float} (p q : list float) x :
  normalise p q = Raise x ->
  x = ZeroDivisionError /\ (sum p + sum q =? 0)%float = true.
Proof.
  rewrite normalise_binary64. destruct (_ <? _)%float; [|done].
  destruct (_ =? _)%float; [|done]. by intros [= <-].
Qed.

(** X15.  The rescaling of [main] raises [ZeroDivisionError] exactly when
    the float [sum(p) + sum(q)] equals 0 (whichever way the builtin [sum]
    adds), and raises nothing else.
    Otherwise it returns lists as long as [p] and [q]: [p] and [q]
    themselves when [abs(total - 1.0) > 1e-9] does not hold, and else every
    entry [x] replaced by [round(x * (1.0 / total), 10)].  In binary64 these
    entries can be [inf] or [nan], as for [p = [2^-1040]],
    [q = [0.0, 0.0]].  In exact arithmetic, on rational inputs, the sum of
    the lists returned is within [1e-9 + (len(p) + len(q)) * 0.5e-10] of 1,
    and they have no negative entry if [p] and [q] had none. *)
Theorem normalise_outcome :
  (forall (S : Summation float) (p q : list float),
     (normalise p q = Raise ZeroDivisionError <->
      (sum p + sum q =? 0)%float = true) /\
     (forall x, normalise p q = Raise x -> x = ZeroDivisionError) /\
     (forall p' q', normalise p q = Ok (p', q') ->
        length p' = length p /\ length q' = length q) /\
     ((Binary64.lit (1 # 1000000000) <? abs (sum p + sum q - 1))%float
      = false -> normalise p q = Ok (p, q)) /\
     ((Binary64.lit (1 # 1000000000) <? abs (sum p + sum q - 1))%float
      = true -> (sum p + sum q =? 0)%float = false ->
      normalise p q =
        Ok (map (fun x => Binary64.round (x * (1 / (sum p + sum q))) 10) p,
            map (fun x => Binary64.round (x * (1 / (sum p + sum q))) 10)
                q))) /\
  normalise (S := Binary64.left_to_right) [0x1p-1040]%float [0; 0]%float
    = Ok ([infinity], [PrimFloat.nan; PrimFloat.nan]) /\
  normalise (S := Binary64.compensated) [0x1p-1040]%float [0; 0]%float
    = Ok ([infinity], [PrimFloat.nan; PrimFloat.nan]) /\
  (forall p q : list Q,
     (normalise (rationals p) (rationals q) = Raise ZeroDivisionError <->
      (Qsum p + Qsum q == 0)%Q) /\
     (forall x, normalise (rationals p) (rationals q) = Raise x ->
        x = ZeroDivisionError) /\
     (forall P' Q', normalise (rationals p) (rationals q) = Ok (P', Q') ->
        exists p' q', P' = rationals p' /\ Q' = rationals q' /\
          length p' = length p /\ length q' = length q /\
          (Qabs (Qsum p' + Qsum q' - 1) <=
             (1 # 1000000000) +
             inject_Z (Z.of_nat (length p + length q))
             * (1 # 20000000000))%Q /\
          ((forall x, In x (p ++ q) -> (0 <= x)%Q) ->
           forall x, In x (p' ++ q') -> (0 <= x)%Q)) /\
     ((Qabs (Qsum p + Qsum q - 1) <= 1 # 1000000000)%Q ->
      normalise (rationals p) (rationals q) = Ok (rationals p, rationals q))).
Proof.
  split; [|split; [|split]].
  - intros S p q. rewrite normalise_binary64.
    destruct (_ <? _)%float eqn:Hfar.
    + destruct (_ =? _)%float eqn:H0.
      * split; [done|]. split; [by intros x [= <-]|].
        split; [discriminate|]. split; discriminate.
      * split; [split; discriminate|]. split; [discriminate|]. split.
        { intros p' q' [= <- <-]. by rewrite !length_map. }
        split; [discriminate | done].
    + split.
      { split; [discriminate|]. intros H0. apply zero_far in H0.
        congruence. }
      split; [discriminate|]. split; [by intros p' q' [= <- <-]|].
      split; [done | discriminate].
  - vm_compute. reflexivity.
  - vm_compute. reflexivity.
  - intros p q. destruct (Qeq_dec (Qsum p + Qsum q) 0) as [H0|Hne].
    + rewrite (normalise_zero p q H0). split; [|split; [|split]].
      * by split.
      * by intros x [= <-].
      * discriminate.
      * intros Hnear. rewrite H0 in Hnear. by compute in Hnear.
    + destruct (normalise_nonzero p q Hne) as (p' & q' & Hn & Hrest).
      rewrite Hn. split; [|split; [|split]].
      * split; [discriminate | done].
      * discriminate.
      * intros P' Q' [= <- <-]. by exists p', q'.
      * intros Hnear. rewrite normalise_exact in Hn.
        apply Qltb_ge in Hnear. rewrite Hnear in Hn. by rewrite <- Hn.
Qed.

(** ** The run of main *)

Lemma run_unfold {F} {A : Arith F} {S : Summation F} {K} depth
    (keys : list K) (p q : list F) :
  run depth keys p q =
  bind (normalise p q) (fun pq =>
  bind (validate_probabilities (fst pq) (snd pq)) (fun _ =>
  bind (optimal_bst (fst pq) (snd pq) keys) (report_tables depth keys))).
Proof. reflexivity. Qed.

Lemma validate_accepts p q :
  length q = length p + 1 -> (forall x, In x (p ++ q) -> (0 <= x)%Q) ->
  (Qabs (Qsum p + Qsum q - 1) <= 1 # 1000000)%Q ->
  validate_probabilities (rationals p) (rationals q) = Ok tt.
Proof.
  intros Hlen Hpos Hsum. rewrite validate_exact.
  rewrite Hlen, Nat.eqb_refl. cbn [negb].
  rewrite (proj2 (existsb_nonneg _) Hpos).
  by rewrite (proj2 (Qltb_ge _ _) Hsum).
Qed.

Lemma validate_raises_value {F} {A : Arith F} {S : Summation F}
    (p q : list F) x :
  validate_probabilities p q = Raise x -> exists m, x = ValueError m.
Proof.
  unfold validate_probabilities. destruct (negb _); [intros [= <-]; eauto|].
  destruct (existsb _ _); [intros [= <-]; eauto|]. cbv zeta.
  destruct (fltb _ _); [intros [= <-]; eauto | done].
Qed.

Section Report.
Context {K : Type}.
Variables (root0 : table (option Z)) (keys : list K).
Hypothesis Hroots : roots_in_range root0 (length keys).

Lemma chosen_line_ok L i acc :
  1 <= i -> 1 <= L -> i + L - 1 <= length keys ->
  exists line, chosen_line root0 keys L i acc = Ok (acc ++ [line]) /\
    interval_of line = (i, i + L - 1) /\ line_ok keys line.
Proof.
  intros Hi HL Hj. unfold chosen_line. cbv zeta.
  destruct (enter root0 keys Hroots i (i + L - 1))
    as (r & k & Hr & -> & Hm & _ & Hk & Hidx); [lia..|].
  cbn [bind]. rewrite Hm, Hidx. cbn [bind]. eexists.
  split; [done|]. split; [done|].
  split; [done|]. cbn. apply list_elem_of_In, list_elem_of_lookup.
  exists (r - i). unfold slice. rewrite lookup_take.
  destruct (decide (r - i < i + L - 1 - (i - 1))); [|lia].
  rewrite lookup_drop. by replace (i - 1 + (r - i)) with (r - 1) by lia.
Qed.

Lemma chosen_inner L : forall len a acc,
  1 <= a -> 1 <= L -> (len = 0 \/ a + len + L - 2 <= length keys) ->
  exists lines,
    for_each (seq a len) (chosen_line root0 keys L) acc = Ok (acc ++ lines) /\
    map interval_of lines = map (fun i => (i, i + L - 1)) (seq a len) /\
    Forall (line_ok keys) lines.
Proof.
  induction len as [|len IH]; intros a acc Ha HL Hlen.
  - exists []. simpl. by rewrite app_nil_r.
  - destruct (chosen_line_ok L a acc) as (line & Hline & Hint & Hok);
      [lia..|].
    destruct (IH (S a) (acc ++ [line])) as (lines & Hrun & Hmap & Hall);
      [lia | lia | lia |].
    exists (line :: lines). simpl. rewrite Hline. cbn [bind].
    rewrite Hrun, <- app_assoc. split; [done|].
    split; [by rewrite Hint, Hmap | by constructor].
Qed.

Lemma chosen_outer : forall Ls acc,
  (forall L, In L Ls -> 1 <= L <= length keys) ->
  exists lines,
    for_each Ls
      (fun L => for_each (range 1 (length keys - L + 2))
                  (chosen_line root0 keys L)) acc = Ok (acc ++ lines) /\
    map interval_of lines =
      flat_map (fun L => map (fun i => (i, i + L - 1))
                           (range 1 (length keys - L + 2))) Ls /\
    Forall (line_ok keys) lines.
Proof.
  induction Ls as [|L Ls IH]; intros acc HLs.
  - exists []. simpl. by rewrite app_nil_r.
  - assert (1 <= L <= length keys) as HL by (apply HLs; by left).
    destruct (chosen_inner L (length keys - L + 2 - 1) 1 acc)
      as (l1 & H1 & Hmap1 & Hall1); [lia..|].
    destruct (IH (acc ++ l1)) as (l2 & H2 & Hmap2 & Hall2).
    { intros; apply HLs; by right. }
    exists (l1 ++ l2). simpl. unfold range at 1. rewrite H1. cbn [bind].
    rewrite H2, <- app_assoc. split; [done|].
    rewrite map_app, Hmap1, Hmap2. split; [done|].
    by apply Forall_app.
Qed.

End Report.

Section ReportAny.
Context {K : Type}.
Variables (root0 : table (option Z)) (keys : list K).
Hypothesis Hdich : rooted_or_none root0 (length keys).

Lemma chosen_line_any L i acc :
  1 <= i -> 1 <= L -> i + L - 1 <= length keys ->
  (exists lines, chosen_line root0 keys L i acc = Ok lines) \/
  (chosen_line root0 keys L i acc = Raise TypeError /\
   tget root0 i (i + L - 1) = Ok None).
Proof.
  intros Hi HL Hj. unfold chosen_line. cbv zeta.
  destruct (Hdich i (i + L - 1)) as [Hnone|(r & Hr & Hget)]; [lia..| |].
  - right. by rewrite (root_of_none _ _ _ Hnone).
  - left. rewrite (root_of_tget _ _ _ _ Hget). cbn [bind].
    destruct (item_lt keys (r - 1)) as (k & Hitem & _); [lia|].
    replace (Z.of_nat r - 1)%Z with (Z.of_nat (r - 1)) by lia.
    rewrite index_of_nat, Hitem. cbn [bind]. eauto.
Qed.

Lemma chosen_inner_raises L : forall len a acc x,
  1 <= a -> 1 <= L -> (len = 0 \/ a + len + L - 2 <= length keys) ->
  for_each (seq a len) (chosen_line root0 keys L) acc = Raise x ->
  x = TypeError /\ some_none root0 (length keys).
Proof.
  induction len as [|len IH]; intros a acc x Ha HL Hlen H; [done|].
  simpl in H.
  destruct (chosen_line_any L a acc) as [[lines Hl]|[Hl Hnone]]; [lia..| |].
  - rewrite Hl in H. cbn [bind] in H.
    apply (IH (S a) lines); (done || lia).
  - rewrite Hl in H. injection H as <-. split; [done|].
    exists a, (a + L - 1). repeat split; (done || lia).
Qed.

Lemma chosen_outer_raises : forall Ls acc x,
  (forall L, In L Ls -> 1 <= L <= length keys) ->
  for_each Ls
    (fun L => for_each (range 1 (length keys - L + 2))
                (chosen_line root0 keys L)) acc = Raise x ->
  x = TypeError /\ some_none root0 (length keys).
Proof.
  induction Ls as [|L Ls IH]; intros acc x HLs H; [done|].
  assert (1 <= L <= length keys) as HL by (apply HLs; by left).
  simpl in H.
  destruct (for_each (range 1 _) _ acc) as [lines|y] eqn:E; cbn [bind] in H.
  - apply (IH lines); [|done]. intros; apply HLs; by right.
  - injection H as <-. unfold range in E.
    apply (chosen_inner_raises L (length keys - L + 2 - 1) 1 acc);
      (done || lia).
Qed.

Lemma preorder_raises depth : forall i j x,
  1 <= i -> i <= j + 1 -> j <= length keys ->
  preorder_from_root depth root0 keys (Z.of_nat i) (Z.of_nat j) = Raise x ->
  (x = RecursionError /\ depth <= j + 1 - i) \/
  (x = TypeError /\ some_none root0 (length keys)).
Proof.
  induction depth as [|depth IH]; intros i j x Hi Hij Hj H.
  { injection H as <-. left. split; [done | lia]. }
  cbn [preorder_from_root] in H.
  destruct (Z.ltb_spec (Z.of_nat j) (Z.of_nat i)); [done|].
  destruct (Hdich i j) as [Hnone|(r & Hr & Hget)]; [lia..| |].
  { rewrite (root_of_none _ _ _ Hnone) in H. injection H as <-.
    right. split; [done|]. exists i, j. repeat split; (done || lia). }
  rewrite (root_of_tget _ _ _ _ Hget) in H. cbn [bind] in H.
  destruct (item_lt keys (r - 1)) as (k & Hitem & _); [lia|].
  replace (Z.of_nat r - 1)%Z with (Z.of_nat (r - 1)) in H by lia.
  replace (Z.of_nat r + 1)%Z with (Z.of_nat (r + 1)) in H by lia.
  rewrite index_of_nat, Hitem in H. cbn [bind] in H.
  destruct (preorder_from_root depth root0 keys (Z.of_nat i) _) eqn:E1;
    cbn [bind] in H.
  - destruct (preorder_from_root depth root0 keys (Z.of_nat (r + 1)) _) eqn:E2;
      cbn [bind] in H; [done|].
    injection H as <-.
    destruct (IH (r + 1) j _ ltac:(lia) ltac:(lia) Hj E2) as [[-> Hd]|Hn];
      [left; split; [done | lia] | by right].
  - injection H as <-.
    destruct (IH i (r - 1) _ Hi ltac:(lia) ltac:(lia) E1) as [[-> Hd]|Hn];
      [left; split; [done | lia] | by right].
Qed.

Lemma inorder_raises depth : forall i j x,
  1 <= i -> i <= j + 1 -> j <= length keys ->
  inorder_from_root depth root0 keys (Z.of_nat i) (Z.of_nat j) = Raise x ->
  (x = RecursionError /\ depth <= j + 1 - i) \/
  (x = TypeError /\ some_none root0 (length keys)).
Proof.
  induction depth as [|depth IH]; intros i j x Hi Hij Hj H.
  { injection H as <-. left. split; [done | lia]. }
  cbn [inorder_from_root] in H.
  destruct (Z.ltb_spec (Z.of_nat j) (Z.of_nat i)); [done|].
  destruct (Hdich i j) as [Hnone|(r & Hr & Hget)]; [lia..| |].
  { rewrite (root_of_none _ _ _ Hnone) in H. injection H as <-.
    right. split; [done|]. exists i, j. repeat split; (done || lia). }
  rewrite (root_of_tget _ _ _ _ Hget) in H. cbn [bind] in H.
  destruct (item_lt keys (r - 1)) as (k & Hitem & _); [lia|].
  replace (Z.of_nat r - 1)%Z with (Z.of_nat (r - 1)) in H by lia.
  replace (Z.of_nat r + 1)%Z with (Z.of_nat (r + 1)) in H by lia.
  rewrite index_of_nat, Hitem in H.
  destruct (inorder_from_root depth root0 keys (Z.of_nat i) _) eqn:E1;
    cbn [bind] in H.
  - destruct (inorder_from_root depth root0 keys (Z.of_nat (r + 1)) _) eqn:E2;
      cbn [bind] in H; [done|].
    injection H as <-.
    destruct (IH (r + 1) j _ ltac:(lia) ltac:(lia) Hj E2) as [[-> Hd]|Hn];
      [left; split; [done | lia] | by right].
  - injection H as <-.
    destruct (IH i (r - 1) _ Hi ltac:(lia) ltac:(lia) E1) as [[-> Hd]|Hn];
      [left; split; [done | lia] | by right].
Qed.

Lemma postorder_raises depth : forall i j x,
  1 <= i -> i <= j + 1 -> j <= length keys ->
  postorder_from_root depth root0 keys (Z.of_nat i) (Z.of_nat j) = Raise x ->
  (x = RecursionError /\ depth <= j + 1 - i) \/
  (x = TypeError /\ some_none root0 (length keys)).
Proof.
  induction depth as [|depth IH]; intros i j x Hi Hij Hj H.
  { injection H as <-. left. split; [done | lia]. }
  cbn [postorder_from_root] in H.
  destruct (Z.ltb_spec (Z.of_nat j) (Z.of_nat i)); [done|].
  destruct (Hdich i j) as [Hnone|(r & Hr & Hget)]; [lia..| |].
  { rewrite (root_of_none _ _ _ Hnone) in H. injection H as <-.
    right. split; [done|]. exists i, j. repeat split; (done || lia). }
  rewrite (root_of_tget _ _ _ _ Hget) in H. cbn [bind] in H.
  destruct (item_lt keys (r - 1)) as (k & Hitem & _); [lia|].
  replace (Z.of_nat r - 1)%Z with (Z.of_nat (r - 1)) in H by lia.
  replace (Z.of_nat r + 1)%Z with (Z.of_nat (r + 1)) in H by lia.
  rewrite index_of_nat, Hitem in H.
  destruct (postorder_from_root depth root0 keys (Z.of_nat i) _) eqn:E1;
    cbn [bind] in H.
  - destruct (postorder_from_root depth root0 keys (Z.of_nat (r + 1)) _)
      eqn:E2; cbn [bind] in H; [done|].
    injection H as <-.
    destruct (IH (r + 1) j _ ltac:(lia) ltac:(lia) Hj E2) as [[-> Hd]|Hn];
      [left; split; [done | lia] | by right].
  - injection H as <-.
    destruct (IH i (r - 1) _ Hi ltac:(lia) ltac:(lia) E1) as [[-> Hd]|Hn];
      [left; split; [done | lia] | by right].
Qed.
End ReportAny.

Section ReportTables.
Context {F : Type} {A : Arith F} {K : Type}.
Hypothesis HA : lawful A.
Variables p q : list F.
Variable st : tables F.
Variable keys : list K.
Hypothesis Hst : solved p q st.
Hypothesis Hk : length keys = length p.

Lemma solved_rooted : rooted_or_none (root st) (length keys).
Proof.
  intros i j Hi Hij Hj. rewrite Hk in Hj.
  destruct (chosen_cell p q st Hst HA i j Hi Hij Hj)
    as [(Hget & _)|(r & Hr & Hget & _)]; [by left|].
  right. by exists r.
Qed.

Lemma costed_roots :
  (forall i j, 1 <= i -> i <= j -> j <= length keys ->
     below_inf (cell (e st) i j)) ->
  roots_in_range (root st) (length keys).
Proof.
  intros Hall i j Hi Hij Hj.
  destruct (below_inf_root p q st Hst HA i j) as (r & Hr & Hget & _);
    [lia.. | by apply Hall | eauto].
Qed.

Lemma some_none_inf :
  some_none (root st) (length keys) ->
  exists i j, 1 <= i /\ i <= j /\ j <= length keys /\
    tget (root st) i j = Ok None /\ tget (e st) i j = Ok inf.
Proof.
  intros (i & j & Hi & Hij & Hj & Hnone). exists i, j.
  do 4 (split; [done|]). rewrite Hk in Hj.
  rewrite (tget_cell_e p q st Hst) by lia. f_equal.
  destruct (chosen_cell p q st Hst HA i j Hi Hij Hj)
    as [(_ & He & _)|(r & _ & Hget & _)]; [done | congruence].
Qed.

Lemma report_tables_returns depth :
  length p < depth ->
  (forall i j, 1 <= i -> i <= j -> j <= length keys ->
     below_inf (cell (e st) i j)) ->
  exists rep, report_tables depth keys st = Ok rep /\
    tget (e st) 1 (length p) = Ok (cost_dp rep) /\
    map interval_of (chosen rep) = intervals (length keys) /\
    Forall (line_ok keys) (chosen rep) /\
    ino rep = keys /\ pre rep ≡ₚ keys /\ post rep ≡ₚ keys.
Proof.
  intros Hd Hall. pose proof (costed_roots Hall) as Hroots.
  unfold report_tables. cbv zeta. rewrite Hk.
  rewrite (tget_cell_e p q st Hst) by lia. cbn [bind]. rewrite <- Hk.
  destruct (chosen_outer (root st) keys Hroots
              (range 1 (length keys + 1)) [])
    as (lines & -> & Hmap & Hall').
  { intros L HL. apply in_seq in HL. lia. }
  cbn [bind app].
  assert (inorder_from_root depth (root st) keys 1 (Z.of_nat (length keys))
            = Ok keys) as Hin.
  { change 1%Z with (Z.of_nat 1).
    rewrite (inorder_slice (root st) keys Hroots) by lia.
    change (1 - 1) with 0. by rewrite slice_all. }
  destruct (inorder_others (root st) keys depth _ _ _ Hin)
    as (l1 & l2 & -> & Hpost & Hp1 & Hp2).
  cbn [bind]. rewrite Hin, Hpost. cbn [bind].
  eexists. split; [done|]. cbn [cost_dp chosen pre ino post].
  repeat split; done.
Qed.

Lemma report_tables_raises depth x :
  report_tables depth keys st = Raise x ->
  (x = RecursionError /\ depth <= length keys) \/
  (x = TypeError /\ some_none (root st) (length keys)).
Proof.
  intros H. pose proof solved_rooted as Hdich.
  assert (forall y d,
            (y = RecursionError /\ d <= length keys + 1 - 1) \/
            (y = TypeError /\ some_none (root st) (length keys)) ->
            (y = RecursionError /\ d <= length keys) \/
            (y = TypeError /\ some_none (root st) (length keys))) as Hfit.
  { intros y d [[-> Hd]|Hn]; [left; split; [done | lia] | by right]. }
  unfold report_tables in H. cbv zeta in H.
  rewrite (tget_cell_e p q st Hst) in H by lia. cbn [bind] in H.
  destruct (for_each (range 1 (length keys + 1)) _ [])
    as [lines|y] eqn:El; cbn [bind] in H.
  2: { injection H as <-. right.
       apply (chosen_outer_raises (root st) keys Hdich
                (range 1 (length keys + 1)) [] y); [|done].
       intros L HL. apply in_seq in HL. lia. }
  change 1%Z with (Z.of_nat 1) in H.
  destruct (preorder_from_root _ _ _ _ _) as [l1|y] eqn:E1; cbn [bind] in H.
  2: { injection H as <-. apply (Hfit y depth).
       apply (preorder_raises (root st) keys Hdich depth 1 (length keys) y);
         (done || lia). }
  destruct (inorder_from_root _ _ _ _ _) as [l2|y] eqn:E2; cbn [bind] in H.
  2: { injection H as <-. apply (Hfit y depth).
       apply (inorder_raises (root st) keys Hdich depth 1 (length keys) y);
         (done || lia). }
  destruct (postorder_from_root _ _ _ _ _) as [l3|y] eqn:E3; cbn [bind] in H;
    [done|].
  injection H as <-. apply (Hfit y depth).
  apply (postorder_raises (root st) keys Hdich depth 1 (length keys) y);
    (done || lia).
Qed.
End ReportTables.

(** X16.  In binary64 (whichever way the builtin [sum] adds), [run]
    returns a report whenever the rescaling
    returns, the validation accepts the rescaled lists, [optimal_bst]
    returns tables for them in which the cost of every non-empty interval
    is below [inf], and the recursion depth exceeds the number of keys.  The
    report gives [e[1][n]], lists the non-empty intervals by increasing
    length and start, each with its keys [keys[i-1:j]] and a root among
    them; its in-order list is [keys]; its pre-order and post-order lists
    are permutations of [keys].  In exact arithmetic, on rational inputs,
    this is the case whenever [q] is one longer than [p], [keys] is as long
    as [p], no entry is negative, their sum is not 0, there are at most
    19980 entries and the recursion depth exceeds the number of keys. *)
Theorem run_returns {K} (depth : nat) (keys : list K) :
  (forall (S : Summation float) (p q : list float) pq st,
     normalise p q = Ok pq ->
     validate_probabilities (fst pq) (snd pq) = Ok tt ->
     optimal_bst (fst pq) (snd pq) keys = Ok st ->
     (forall i j, 1 <= i -> i <= j -> j <= length keys ->
        (cell (e st) i j <? infinity)%float = true) ->
     length keys < depth ->
     exists rep,
       run depth keys p q = Ok rep /\
       tget (e st) 1 (length keys) = Ok (cost_dp rep) /\
       map interval_of (chosen rep) = intervals (length keys) /\
       Forall (line_ok keys) (chosen rep) /\
       ino rep = keys /\ pre rep ≡ₚ keys /\ post rep ≡ₚ keys) /\
  (forall p q : list Q,
     length q = length p + 1 -> length keys = length p ->
     (forall x, In x (p ++ q) -> (0 <= x)%Q) ->
     ~ (Qsum p + Qsum q == 0)%Q ->
     (Z.of_nat (length p + length q) <= 19980)%Z -> length p < depth ->
     exists rep v,
       run depth keys (rationals p) (rationals q) = Ok rep /\
       cost_dp rep = Fin v /\
       map interval_of (chosen rep) = intervals (length keys) /\
       Forall (line_ok keys) (chosen rep) /\
       ino rep = keys /\ pre rep ≡ₚ keys /\ post rep ≡ₚ keys).
Proof.
  split.
  - intros S p q pq st Hn Hval Hrun Hall Hd. rewrite run_unfold, Hn.
    cbn [bind]. rewrite Hval. cbn [bind]. rewrite Hrun. cbn [bind].
    destruct (optimal_bst_returned _ _ keys st Hrun) as [Hk _].
    pose proof (optimal_bst_returns_solved _ _ keys st Hrun) as Hst.
    destruct (report_tables_returns binary64_lawful _ _ st keys Hst Hk depth)
      as (rep & Hrep & Hcost & Hrest); [lia | exact Hall |].
    exists rep. split; [done|]. split; [by rewrite Hk | done].
  - intros p q Hq Hk Hpos Hne Hsmall Hd. rewrite run_unfold.
    destruct (normalise_nonzero p q Hne)
      as (p' & q' & -> & Hlp & Hlq & Hsum & Hpos').
    cbn [bind fst snd].
    assert (inject_Z (Z.of_nat (length p + length q)) <= 19980 # 1)%Q as Hn.
    { change (19980 # 1)%Q with (inject_Z 19980). by rewrite <- Zle_Qle. }
    rewrite (validate_accepts p' q'); [|lia|by apply Hpos'|lra].
    cbn [bind].
    destruct (optimal_bst_exact p' q' keys) as (st & -> & Hst); [lia..|].
    cbn [bind].
    assert (length keys = length (rationals p')) as Hk'
      by (rewrite length_rationals; lia).
    destruct (report_tables_returns exact_lawful _ _ st keys Hst Hk' depth)
      as (rep & -> & Hcost & Hrest).
    + rewrite length_rationals. lia.
    + intros i j Hi Hij Hj. unfold below_inf, cell.
      rewrite (cost_at_get p' q' st Hst) by lia. reflexivity.
    + rewrite length_rationals in Hcost.
      rewrite (cost_at_get p' q' st Hst) in Hcost by lia.
      injection Hcost as Hcost.
      exists rep. eexists. split; [done|]. split; [by symmetry | done].
Qed.

Lemma run_returns_witness :
  exists rep,
    run (S := Binary64.compensated) recursion_limit example_keys
      (map Binary64.lit example_p) (map Binary64.lit example_q) = Ok rep /\
    map interval_of (chosen rep) = intervals (length example_keys) /\
    ino rep = example_keys.
Proof.
  pose (pq := match normalise (S := Binary64.compensated)
                      (map Binary64.lit example_p)
                      (map Binary64.lit example_q) with
              | Ok pq => pq
              | Raise _ => ([], [])
              end).
  pose (st := match optimal_bst (fst pq) (snd pq) example_keys with
              | Ok st => st
              | Raise _ => Tables [] [] []
              end).
  destruct (run_returns recursion_limit example_keys) as [H64 _].
  destruct (H64 Binary64.compensated (map Binary64.lit example_p)
              (map Binary64.lit example_q) pq st)
    as (rep & Hrun & _ & Hmap & _ & Hin & _).
  - vm_compute. reflexivity.
  - vm_compute. reflexivity.
  - vm_compute. reflexivity.
  - intros i j Hi Hij Hj. simpl in Hj.
    destruct i as [|[|[|[|[|i]]]]]; try lia;
      destruct j as [|[|[|[|[|j]]]]]; try lia; vm_compute; reflexivity.
  - apply Nat.ltb_lt. reflexivity.
  - exists rep. split; [exact Hrun|]. split; [exact Hmap | exact Hin].
Defined.

(** X17.  In binary64 (whichever way the builtin [sum] adds), [run] never
    raises an [IndexError].  When it
    raises, it is a [ZeroDivisionError] because the float
    [sum(p) + sum(q)] equals 0; or a [ValueError] of the validation or of
    the key count; or, once the tables are built, a [TypeError] because
    [root[i][j]] is [None] (and [e[i][j]] is [inf]) at some non-empty
    interval, or a [RecursionError] because the depth available does not
    exceed the number of keys.  In exact arithmetic, on rational inputs,
    there is no [TypeError] either. *)
Theorem run_raises {K} (depth : nat) (keys : list K) :
  (forall (S : Summation float) (p q : list float) x,
     run depth keys p q = Raise x ->
     x <> IndexError /\
     ((x = ZeroDivisionError /\ (sum p + sum q =? 0)%float = true) \/
      (exists m, x = ValueError m) \/
      (exists pq st,
         normalise p q = Ok pq /\
         validate_probabilities (fst pq) (snd pq) = Ok tt /\
         optimal_bst (fst pq) (snd pq) keys = Ok st /\
         ((x = TypeError /\
           exists i j, 1 <= i /\ i <= j /\ j <= length keys /\
             tget (root st) i j = Ok None /\
             tget (e st) i j = Ok infinity) \/
          (x = RecursionError /\ depth <= length keys))))) /\
  (forall (p q : list Q) x,
     run depth keys (rationals p) (rationals q) = Raise x ->
     (x = ZeroDivisionError /\ (Qsum p + Qsum q == 0)%Q) \/
     ((exists m, x = ValueError m) /\ ~ (Qsum p + Qsum q == 0)%Q) \/
     (x = RecursionError /\ ~ (Qsum p + Qsum q == 0)%Q /\
      depth <= length p /\
      length keys = length p /\ length q = length p + 1)).
Proof.
  split.
  - intros S p q x H.
    assert ((x = ZeroDivisionError /\ (sum p + sum q =? 0)%float = true) \/
            (exists m, x = ValueError m) \/
            (exists pq st,
               normalise p q = Ok pq /\
               validate_probabilities (fst pq) (snd pq) = Ok tt /\
               optimal_bst (fst pq) (snd pq) keys = Ok st /\
               ((x = TypeError /\
                 exists i j, 1 <= i /\ i <= j /\ j <= length keys /\
                   tget (root st) i j = Ok None /\
                   tget (e st) i j = Ok infinity) \/
                (x = RecursionError /\ depth <= length keys)))) as Hx.
    2: { split; [|done].
         destruct Hx as [[-> _]|[[m ->]|(pq & st & _ & _ & _ & [[-> _]|[-> _]])]];
           discriminate. }
    rewrite run_unfold in H.
    destruct (normalise p q) as [pq|y] eqn:Hn; cbn [bind] in H.
    2: { injection H as <-. left.
         by apply (normalise_raises p q). }
    destruct (validate_probabilities (fst pq) (snd pq)) as [[]|y] eqn:Hval;
      cbn [bind] in H.
    2: { injection H as <-. right. left.
         by apply (validate_raises_value (fst pq) (snd pq)). }
    pose proof (validate_lengths _ _ Hval) as Hq.
    destruct (decide (length keys = length (fst pq))) as [Hk|Hk].
    2: { rewrite (optimal_bst_mismatch _ _ keys Hk) in H. cbn [bind] in H.
         injection H as <-. right. left. eauto. }
    destruct (optimal_bst_solved _ _ Hq keys Hk) as (st & Hrun & Hst).
    rewrite Hrun in H. cbn [bind] in H.
    right. right. exists pq, st. do 3 (split; [done|]).
    destruct (report_tables_raises binary64_lawful _ _ st keys Hst Hk depth x
                H) as [Hrec|[-> Hnone]]; [by right|].
    left. split; [done|].
    by apply (some_none_inf binary64_lawful _ _ st keys Hst Hk).
  - intros p q x. rewrite run_unfold.
    destruct (Qeq_dec (Qsum p + Qsum q) 0) as [H0|Hne].
    { rewrite (normalise_zero p q H0). cbn [bind]. intros [= <-]. by left. }
    destruct (normalise_nonzero p q Hne)
      as (p' & q' & -> & Hlp & Hlq & _). cbn [bind fst snd].
    destruct (validate_probabilities (rationals p') (rationals q'))
      as [[]|x0] eqn:Hval; cbn [bind].
    2: { intros [= <-]. right. left. split; [|done].
         by apply (validate_raises_value (rationals p') (rationals q')). }
    destruct (validate_Ok p' q' Hval) as (Hq' & _).
    destruct (decide (length keys = length p')) as [Hk|Hk].
    2: { rewrite (optimal_bst_mismatch _ _ keys); [|by rewrite length_rationals].
         cbn [bind]. intros [= <-]. right. left. eauto. }
    destruct (optimal_bst_exact p' q' keys Hq' Hk) as (st & -> & Hst).
    cbn [bind]. intros H.
    assert (length keys = length (rationals p')) as Hk'
      by (by rewrite length_rationals).
    destruct (report_tables_raises exact_lawful _ _ st keys Hst Hk' depth x H)
      as [[-> Hd]|[_ (i & j & Hi & Hij & Hj & Hnone)]].
    + right. right. repeat split; try done; lia.
    + destruct (solved_roots p' q' st Hst i j) as (r & _ & Hget); [lia..|].
      congruence.
Qed.

Lemma run_raises_witness :
  run (S := Binary64.compensated) 5 ["Ana"%string] [PrimFloat.nan]
    [0; 0]%float = Raise TypeError /\
  TypeError <> IndexError /\
  run (S := Binary64.left_to_right) 5 (@nil string) [] [0]%float
    = Raise ZeroDivisionError.
Proof.
  assert (run (S := Binary64.compensated) 5 ["Ana"%string] [PrimFloat.nan]
            [0; 0]%float = Raise TypeError) as Hrun by reflexivity.
  split; [exact Hrun|]. split; [|reflexivity].
  destruct (run_raises 5 ["Ana"%string]) as [H64 _].
  destruct (H64 Binary64.compensated [PrimFloat.nan] [0; 0]%float TypeError
              Hrun) as [Hne _].
  exact Hne.
Defined.

